(** * Machine Center: structural mutations, attention scan and history

    A shallow embedding of the core of the Machine Center application.
    The source files are cited as they lie in the source tree, with line
    numbers:
    - the record types, [ATTENTION_THRESHOLDS] and [daysSince]
      ([src/components/Collapsible.tsx], lines 106-361);
    - the table wrapper [SupabaseTable] and [db]
      ([src/pages/Whiteboard.tsx], lines 1469-1756), with every table a
      list of rows in insertion order;
    - [getSeverity], [findRootMachine] and [runScan]
      ([src/hooks/useDashboardScan.ts], lines 17-178);
    - [useUndoRedo] ([src/hooks/useDashboardScan.ts], lines 187-233) as a
      transition system;
    - [prepareDelete] with [countRecursive], [confirmDelete] with
      [deleteRecursive] and [duplicateMachine] with [cloneRecursive] of
      the dashboard page ([src/components/Collapsible.tsx], lines 664-786);
    - the breadcrumb walk, [handleUpdateNode] and [handleDeleteNode] of
      the whiteboard page ([src/pages/Whiteboard.tsx], lines 1110-1125,
      1200-1231 and 1280-1295);
    - the step handlers of the procedure panel
      ([src/pages/Whiteboard.tsx], lines 802-843) and the key conversions
      and field maps of the table wrapper (lines 1449-1465, 1602-1606,
      1645-1648 and 1686-1742);
    - the path and the root of a search result of the dashboard
      ([src/components/Collapsible.tsx], lines 599-628);
    - the handlers of the inbox page ([src/pages/Inbox.tsx], lines 33-61
      and 92-94);
    - the problem list and the problem cards of the whiteboard page
      ([src/pages/Whiteboard.tsx], lines 525-533, 607-634 and 1248-1258).

    Conventions.  A [Date] is its number of milliseconds since the epoch
    (a [Z]); [Date.now()] and [new Date()] are the explicit argument
    [now].  Every number the modelled code handles is an integer, so
    [number] is [Z] (or [nat] for a count).  [async] calls are sequential:
    each [await] is a plain function application on the current store.  A
    call that the store rejects (transport error, violated constraint) is
    outside the model.  [uuid()] is a sequence of identifiers, [uuid k]
    being the result of the [k]-th call.  Recursion and loops that the
    source leaves unbounded take a [fuel] argument and return [None] when
    it runs out.  Of the React state only what the modelled functions
    compute with is kept; the canvas projection, the selection and the
    menus are left out. *)

From stdpp Require Import base decidable option list sorting gmap strings pretty.
From Stdlib Require Import ZArith Lia Ascii.

Local Open Scope string_scope.
Local Open Scope list_scope.
Local Open Scope Z_scope.

(** ** Data model ([src/components/Collapsible.tsx], lines 106-361) *)

Inductive NodeType := machine | sop | tool | skill | note.

Inductive ProficiencyLevel := beginner | intermediate | advanced | expert.

Inductive EdgeRelationship := feeds | depends | triggers | supports | custom.

Inductive ProblemSeverity := ps_critical | ps_high | ps_medium | ps_low.

Inductive ProblemStatus := open | diagnosing | planned | fixing | resolved.

Inductive EventType :=
  | ev_status_change | ev_problem_logged | ev_problem_resolved
  | ev_problem_updated | ev_metric_updated | ev_metric_snapshot
  | ev_step_completed | ev_step_uncompleted | ev_note_updated
  | ev_node_created | ev_node_deleted | ev_capture_processed.

#[global] Instance NodeType_eq_dec : EqDecision NodeType.
Proof. solve_decision. Defined.
#[global] Instance ProblemStatus_eq_dec : EqDecision ProblemStatus.
Proof. solve_decision. Defined.
#[global] Instance EventType_eq_dec : EqDecision EventType.
Proof. solve_decision. Defined.
#[global] Instance EdgeRelationship_eq_dec : EqDecision EdgeRelationship.
Proof. solve_decision. Defined.

Record SopStep := {
  step_id : string;
  step_text : string;
  step_done : bool;
  step_order : Z;
  step_linkedNodeId : option string;
}.

Record MachineNode := {
  node_id : string;
  node_parentId : string;
  node_type : NodeType;
  node_label : string;
  node_description : string;
  node_statusId : string;
  node_position : Z * Z;
  node_goal : string;
  node_bottleneck : string;
  node_notes : string;
  node_steps : list SopStep;
  node_toolUrl : string;
  node_proficiency : option ProficiencyLevel;
  node_hasChildren : bool;
  node_createdAt : Z;
  node_updatedAt : Z;
}.

Record MachineEdge := {
  edge_id : string;
  edge_parentId : string;
  edge_source : string;
  edge_target : string;
  edge_label : option string;
  edge_relationship : EdgeRelationship;
}.

Record VictoryCondition := {
  vc_id : string;
  vc_machineNodeId : string;
  vc_label : string;
  vc_target : string;
  vc_current : string;
  vc_met : bool;
  vc_order : Z;
}.

Record StatusChange := {
  sc_id : string;
  sc_machineNodeId : string;
  sc_fromStatusId : string;
  sc_toStatusId : string;
  sc_changedAt : Z;
}.

Record Problem := {
  problem_id : string;
  problem_machineNodeId : string;
  problem_title : string;
  problem_description : string;
  problem_severity : ProblemSeverity;
  problem_status : ProblemStatus;
  problem_diagnosis : string;
  problem_plan : string;
  problem_createdAt : Z;
  problem_resolvedAt : option Z;
}.

Record Capture := {
  capture_id : string;
  capture_text : string;
  capture_machineId : string;
  capture_processed : bool;
  capture_createdAt : Z;
}.

Record MachineEvent := {
  event_id : string;
  event_nodeId : string;
  event_eventType : EventType;
  event_timestamp : Z;
  event_previousValue : option string;
  event_newValue : option string;
  event_metadata : option string;
}.

(** [ATTENTION_THRESHOLDS] *)
Record Thresholds := { amber : Z; red : Z; critical : Z }.

Module ATTENTION_THRESHOLDS.
Definition problem := {| amber := 3; red := 7; critical := 14 |}.
Definition staleness := {| amber := 7; red := 14; critical := 21 |}.
Definition capture := {| amber := 1; red := 2; critical := 3 |}.
Definition blocked := {| amber := 3; red := 7; critical := 14 |}.
End ATTENTION_THRESHOLDS.

(** [daysSince]: [Math.floor((Date.now() - date) / 86400000)]; [Z.div]
    rounds towards minus infinity, as [Math.floor] does. *)
Definition daysSince (now date : Z) : Z := (now - date) / (1000 * 60 * 60 * 24).

(** A JavaScript string is truthy when it is not empty. *)
Definition truthy (s : string) : bool := bool_decide (s ≠ "").

(** [a || b] on strings. *)
Definition or_else (a b : string) : string := if truthy a then a else b.

(** ** The store ([src/pages/Whiteboard.tsx], lines 1744-1756)

    One list of rows, in insertion order, for each table that the
    modelled functions read or write. *)

Record Db := {
  nodes : list MachineNode;
  edges : list MachineEdge;
  problems : list Problem;
  victoryConditions : list VictoryCondition;
  statusChanges : list StatusChange;
  captures : list Capture;
  events : list MachineEvent;
}.

(** ** Severity classifier ([src/hooks/useDashboardScan.ts], lines 17-22) *)

Inductive Severity := sev_normal | sev_amber | sev_red | sev_critical.

#[global] Instance Severity_eq_dec : EqDecision Severity.
Proof. solve_decision. Defined.

Definition getSeverity (days : Z) (thresholds : Thresholds) : Severity :=
  if bool_decide (days >= critical thresholds) then sev_critical
  else if bool_decide (days >= red thresholds) then sev_red
  else if bool_decide (days >= amber thresholds) then sev_amber
  else sev_normal.

(** The ordinal of a tier ([critical > red > amber > normal]) and the
    cutoff a threshold profile gives it; [normal] has no cutoff. *)
Definition tier (s : Severity) : nat :=
  match s with sev_normal => 0 | sev_amber => 1 | sev_red => 2 | sev_critical => 3 end.

Definition cutoff (th : Thresholds) (s : Severity) : option Z :=
  match s with
  | sev_normal => None
  | sev_amber => Some (amber th)
  | sev_red => Some (red th)
  | sev_critical => Some (critical th)
  end.

(** [meets th days s]: [s] is a tier with a cutoff and [days] reaches it. *)
Definition meets (th : Thresholds) (days : Z) (s : Severity) : Prop :=
  ∃ c, cutoff th s = Some c ∧ c <= days.

(** ** Attention scan ([src/hooks/useDashboardScan.ts], lines 38-178) *)

Inductive AttentionType :=
  | stale_problem | stale_node | unmet_vc | blocked_machine | aging_capture.

#[global] Instance AttentionType_eq_dec : EqDecision AttentionType.
Proof. solve_decision. Defined.

Record AttentionItem := {
  item_id : string;
  item_type : AttentionType;
  item_title : string;
  item_subtitle : string;
  item_nodeId : string;
  item_machineId : string;
  item_severity : Severity;
  item_ageDays : Z;
  item_link : string;
}.

(** [Array.prototype.sort(cmp)].  ECMAScript makes the sort stable, and a
    stable sort by a consistent comparator has one possible result; it is
    written here as a stable insertion sort: an element moves right only
    past elements it is strictly greater than ([cmp x y > 0]). *)
Fixpoint insertBy {A} (cmp : A → A → Z) (x : A) (l : list A) : list A :=
  match l with
  | [] => [x]
  | y :: l' => if bool_decide (cmp x y > 0) then y :: insertBy cmp x l' else x :: l
  end.

Definition sortBy {A} (cmp : A → A → Z) (l : list A) : list A :=
  foldr (insertBy cmp) [] l.

(** [new Map(allNodes.map(n => [n.id, n]))]: a later row with the same id
    replaces an earlier one. *)
Definition nodeMapOf (allNodes : list MachineNode) : gmap string MachineNode :=
  foldl (λ m n, <[node_id n := n]> m) ∅ allNodes.

(** The [while (n && n.parentId)] loop of [findRootMachine], from a node
    [n] that is defined: [Some r] when the loop ends at [r], [None] when
    [fuel] iterations were not enough. *)
Fixpoint findRootLoop (fuel : nat) (nodeMap : gmap string MachineNode)
    (n : MachineNode) : option MachineNode :=
  match fuel with
  | O => None
  | S fuel' =>
      if truthy (node_parentId n) then
        match nodeMap !! node_parentId n with
        | None => Some n
        | Some parent => findRootLoop fuel' nodeMap parent
        end
      else Some n
  end.

Definition findRootMachine (fuel : nat) (nodeMap : gmap string MachineNode)
    (nodeId : string) : option string :=
  match nodeMap !! nodeId with
  | None => Some nodeId
  | Some n => r ← findRootLoop fuel nodeMap n; Some (or_else (node_id r) nodeId)
  end.

(** A [for (const x of l)] loop whose body pushes zero or more items and
    may fail to return. *)
Definition forEach {A B} (body : A → option (list B)) (l : list A) : option (list B) :=
  foldr (λ x rest, r ← body x; rs ← rest; Some (r ++ rs)) (Some []) l.

Definition machineLink (machineId : string) : string :=
  "/machine/" +:+ machineId +:+ "?parent=" +:+ machineId.

Section Scan.
Variable fuel : nat.
Variable now : Z.
Variable db : Db.

Let allProblems := problems db.
Let allNodes := nodes db.
Let allVCs := victoryConditions db.
Let allCaptures := filter (λ c, capture_processed c = false) (captures db).
Let allStatusChanges := statusChanges db.
Let nodeMap := nodeMapOf allNodes.

(** 1. Stale problems *)
Definition staleProblemItem (p : Problem) : option (list AttentionItem) :=
  let age := daysSince now (problem_createdAt p) in
  let severity := getSeverity age ATTENTION_THRESHOLDS.problem in
  if bool_decide (severity = sev_normal) then Some [] else
  let node := nodeMap !! problem_machineNodeId p in
  machineId ← findRootMachine fuel nodeMap (problem_machineNodeId p);
  Some [{| item_id := "prob-" +:+ problem_id p;
           item_type := stale_problem;
           item_title := or_else (problem_title p) "Untitled problem";
           item_subtitle := "Open " +:+ pretty age +:+ "d on " +:+
             or_else (from_option node_label "" node) "Unknown";
           item_nodeId := problem_machineNodeId p;
           item_machineId := machineId;
           item_severity := severity;
           item_ageDays := age;
           item_link := machineLink machineId |}].

Definition staleProblems : option (list AttentionItem) :=
  forEach staleProblemItem
    (filter (λ p, problem_status p ≠ resolved) allProblems).

(** 2. Blocked machines *)
Definition lastBlocked (node : MachineNode) : option StatusChange :=
  head (sortBy (λ a b, sc_changedAt b - sc_changedAt a)
          (filter (λ sc, sc_machineNodeId sc = node_id node
                         ∧ sc_toStatusId sc = "blocked") allStatusChanges)).

Definition blockedAge (node : MachineNode) : Z :=
  match lastBlocked node with
  | Some sc => daysSince now (sc_changedAt sc)
  | None => daysSince now (node_updatedAt node)
  end.

Definition blockedMachineItem (node : MachineNode) : option (list AttentionItem) :=
  let age := blockedAge node in
  let severity := getSeverity age ATTENTION_THRESHOLDS.blocked in
  if bool_decide (severity = sev_normal) then Some [] else
  machineId ← findRootMachine fuel nodeMap (node_id node);
  Some [{| item_id := "blocked-" +:+ node_id node;
           item_type := blocked_machine;
           item_title := node_label node;
           item_subtitle := "Blocked for " +:+ pretty age +:+ "d";
           item_nodeId := node_id node;
           item_machineId := machineId;
           item_severity := severity;
           item_ageDays := age;
           item_link := machineLink machineId |}].

Definition blockedMachines : option (list AttentionItem) :=
  forEach blockedMachineItem
    (filter (λ n, node_statusId n = "blocked") allNodes).

(** 3. Unmet victory conditions *)
Definition unmetVCItem (vc : VictoryCondition) : option (list AttentionItem) :=
  match nodeMap !! vc_machineNodeId vc with
  | None => Some []
  | Some node =>
      let age := daysSince now (node_updatedAt node) in
      let severity := getSeverity age ATTENTION_THRESHOLDS.staleness in
      if bool_decide (severity = sev_normal) then Some [] else
      machineId ← findRootMachine fuel nodeMap (vc_machineNodeId vc);
      Some [{| item_id := "vc-" +:+ vc_id vc;
               item_type := unmet_vc;
               item_title := or_else (vc_label vc) "Unnamed condition";
               item_subtitle := "Unmet on " +:+ node_label node +:+
                 " — last updated " +:+ pretty age +:+ "d ago";
               item_nodeId := vc_machineNodeId vc;
               item_machineId := machineId;
               item_severity := severity;
               item_ageDays := age;
               item_link := machineLink machineId |}]
  end.

Definition unmetVCs : option (list AttentionItem) :=
  forEach unmetVCItem (filter (λ vc, vc_met vc = false) allVCs).

(** 4. Stale nodes: root machines with no recent update *)
Definition staleNodeItem (node : MachineNode) : list AttentionItem :=
  let age := daysSince now (node_updatedAt node) in
  let severity := getSeverity age ATTENTION_THRESHOLDS.staleness in
  if bool_decide (severity = sev_normal) then [] else
  if bool_decide (node_statusId node = "blocked") then [] else
  [{| item_id := "stale-" +:+ node_id node;
      item_type := stale_node;
      item_title := node_label node;
      item_subtitle := "No activity for " +:+ pretty age +:+ "d";
      item_nodeId := node_id node;
      item_machineId := node_id node;
      item_severity := severity;
      item_ageDays := age;
      item_link := machineLink (node_id node) |}].

Definition staleNodes : list AttentionItem :=
  concat (map staleNodeItem
    (filter (λ n, node_parentId n = "" ∧ node_type n = machine) allNodes)).

(** 5. Aging captures: at most one aggregate item *)
Definition agingCaptures : list AttentionItem :=
  let unprocessedCaptures := filter (λ c, capture_processed c = false) allCaptures in
  match map (λ c, daysSince now (capture_createdAt c)) unprocessedCaptures with
  | [] => []
  | a :: ages =>
      let oldestAge := foldl Z.max a ages in
      let severity := getSeverity oldestAge ATTENTION_THRESHOLDS.capture in
      if bool_decide (severity ≠ sev_normal) then
        [{| item_id := "captures";
            item_type := aging_capture;
            item_title := pretty (length unprocessedCaptures) +:+
              " unprocessed capture" +:+
              (if bool_decide (1 < length unprocessedCaptures)%nat then "s" else "");
            item_subtitle := "Oldest: " +:+ pretty oldestAge +:+ "d ago";
            item_nodeId := "";
            item_machineId := "";
            item_severity := severity;
            item_ageDays := oldestAge;
            item_link := "/inbox" |}]
      else []
  end.

(** [severityOrder] and the comparator of the final sort *)
Definition severityOrder (s : Severity) : Z :=
  match s with sev_critical => 0 | sev_red => 1 | sev_amber => 2 | sev_normal => 3 end.

Definition compareItems (a b : AttentionItem) : Z :=
  let so := severityOrder (item_severity a) - severityOrder (item_severity b) in
  if bool_decide (so ≠ 0) then so else item_ageDays b - item_ageDays a.

(** The items in the order the five detectors push them. *)
Definition detected : option (list AttentionItem) :=
  r1 ← staleProblems; r2 ← blockedMachines; r3 ← unmetVCs;
  Some (r1 ++ r2 ++ r3 ++ staleNodes ++ agingCaptures).

Definition runScan : option (list AttentionItem) :=
  results ← detected; Some (sortBy compareItems results).
End Scan.

(** ** History tracker ([src/hooks/useDashboardScan.ts], lines 187-233)

    The hook's state after a render: the current flow ([flowNodes],
    [flowEdges]), the two stacks with their top at the END of the list (as
    in the arrays of the source), and the two refs.  [structuredClone] is
    the identity on immutable values. *)

Record FlowNode := { fn_id : string; fn_position : Z * Z; fn_data : string }.

Record FlowEdge := { fe_id : string; fe_source : string; fe_target : string }.

Record FlowState := { fs_nodes : list FlowNode; fs_edges : list FlowEdge }.

Definition MAX_HISTORY : nat := 50.

(** The value that [takeSnapshot] serialises with [JSON.stringify]: node
    ids with their positions and the edge ids.  [JSON.stringify] is
    injective on such values and never returns the empty string, so the
    key is kept structured and the initial [lastSaved = ''] is [None]. *)
Definition Fingerprint : Type := list (string * Z * Z) * list string.

Definition fingerprint (s : FlowState) : Fingerprint :=
  (map (λ n, (fn_id n, fst (fn_position n), snd (fn_position n))) (fs_nodes s),
   map fe_id (fs_edges s)).

Record History := {
  flow : FlowState;
  past : list FlowState;
  future : list FlowState;
  isUndoRedo : bool;
  lastSaved : option Fingerprint;
}.

Definition initialHistory : History :=
  {| flow := {| fs_nodes := []; fs_edges := [] |};
     past := []; future := []; isUndoRedo := false; lastSaved := None |}.

(** [a.slice(-k)] and [a.slice(0, -1)] *)
Definition sliceLast {A} (k : nat) (a : list A) : list A := drop (length a - k) a.
Definition sliceInit {A} (a : list A) : list A := take (length a - 1) a.

Definition takeSnapshot (h : History) : History :=
  if isUndoRedo h then h else
  let key := fingerprint (flow h) in
  if bool_decide (Some key = lastSaved h) then h else
  {| flow := flow h;
     past := sliceLast (MAX_HISTORY - 1) (past h) ++ [flow h];
     future := [];
     isUndoRedo := isUndoRedo h;
     lastSaved := Some key |}.

(** [undo] and [redo]: the stack is empty ([past.length === 0]) exactly
    when it has no last element. *)
Definition undo (h : History) : History :=
  match last (past h) with
  | None => h
  | Some prev =>
      {| flow := prev;
         past := sliceInit (past h);
         future := future h ++ [flow h];
         isUndoRedo := true;
         lastSaved := lastSaved h |}
  end.

Definition redo (h : History) : History :=
  match last (future h) with
  | None => h
  | Some next =>
      {| flow := next;
         past := past h ++ [flow h];
         future := sliceInit (future h);
         isUndoRedo := true;
         lastSaved := lastSaved h |}
  end.

(** What happens around the hook: the canvas changes the flow
    ([setFlowNodes], [setFlowEdges]), and the timer that [undo] and [redo]
    start clears the replay flag. *)
Definition setFlow (s : FlowState) (h : History) : History :=
  {| flow := s; past := past h; future := future h;
     isUndoRedo := isUndoRedo h; lastSaved := lastSaved h |}.

Definition replayEnds (h : History) : History :=
  {| flow := flow h; past := past h; future := future h;
     isUndoRedo := false; lastSaved := lastSaved h |}.

Inductive step : History → History → Prop :=
  | step_takeSnapshot h : step h (takeSnapshot h)
  | step_undo h : step h (undo h)
  | step_redo h : step h (redo h)
  | step_setFlow s h : step h (setFlow s h)
  | step_replayEnds h : step h (replayEnds h).

Definition reachable (h : History) : Prop := rtc step initialHistory h.

(** The canvas moves to each state of [l] in turn and a snapshot is taken
    of each. *)
Definition pushSnapshots (l : list FlowState) (h : History) : History :=
  foldl (λ h s, takeSnapshot (setFlow s h)) h l.

(** ** Dashboard: delete with confirmation
    ([src/components/Collapsible.tsx], lines 664-723) *)

Record DeletionSummary := {
  sum_nodes : nat; sum_sops : nat; sum_tools : nat; sum_skills : nat;
  sum_notes : nat; sum_problems : nat; sum_edges : nat;
}.

(** [totals.<category>++] for the category of [ty] *)
Definition tally (ty : NodeType) (t : DeletionSummary) : DeletionSummary :=
  match ty with
  | machine =>
      {| sum_nodes := S (sum_nodes t); sum_sops := sum_sops t;
         sum_tools := sum_tools t; sum_skills := sum_skills t;
         sum_notes := sum_notes t; sum_problems := sum_problems t;
         sum_edges := sum_edges t |}
  | sop =>
      {| sum_nodes := sum_nodes t; sum_sops := S (sum_sops t);
         sum_tools := sum_tools t; sum_skills := sum_skills t;
         sum_notes := sum_notes t; sum_problems := sum_problems t;
         sum_edges := sum_edges t |}
  | tool =>
      {| sum_nodes := sum_nodes t; sum_sops := sum_sops t;
         sum_tools := S (sum_tools t); sum_skills := sum_skills t;
         sum_notes := sum_notes t; sum_problems := sum_problems t;
         sum_edges := sum_edges t |}
  | skill =>
      {| sum_nodes := sum_nodes t; sum_sops := sum_sops t;
         sum_tools := sum_tools t; sum_skills := S (sum_skills t);
         sum_notes := sum_notes t; sum_problems := sum_problems t;
         sum_edges := sum_edges t |}
  | note =>
      {| sum_nodes := sum_nodes t; sum_sops := sum_sops t;
         sum_tools := sum_tools t; sum_skills := sum_skills t;
         sum_notes := S (sum_notes t); sum_problems := sum_problems t;
         sum_edges := sum_edges t |}
  end.

(** [totals.<category> += childTotals.<category>], all seven *)
Definition addTotals (t c : DeletionSummary) : DeletionSummary :=
  {| sum_nodes := sum_nodes t + sum_nodes c;
     sum_sops := sum_sops t + sum_sops c;
     sum_tools := sum_tools t + sum_tools c;
     sum_skills := sum_skills t + sum_skills c;
     sum_notes := sum_notes t + sum_notes c;
     sum_problems := sum_problems t + sum_problems c;
     sum_edges := sum_edges t + sum_edges c |}%nat.

(** [db.nodes.where('parentId').equals(nodeId).toArray()] *)
Definition childrenOf (db : Db) (nodeId : string) : list MachineNode :=
  filter (λ n, node_parentId n = nodeId) (nodes db).

Fixpoint countRecursive (fuel : nat) (db : Db) (nodeId : string) : option DeletionSummary :=
  match fuel with
  | O => None
  | S fuel' =>
      let children := childrenOf db nodeId in
      let edgeCount := length (filter (λ e, edge_parentId e = nodeId) (edges db)) in
      let probCount := length (filter (λ p, problem_machineNodeId p = nodeId) (problems db)) in
      let totals :=
        {| sum_nodes := 0; sum_sops := 0; sum_tools := 0; sum_skills := 0;
           sum_notes := 0; sum_problems := probCount; sum_edges := edgeCount |}%nat in
      foldl (λ acc child,
               totals ← acc;
               childTotals ← countRecursive fuel' db (node_id child);
               Some (addTotals (tally (node_type child) totals) childTotals))
            (Some totals) children
  end.

(** [prepareDelete]: the summary shown in the confirmation dialog. *)
Definition prepareDelete (fuel : nat) (db : Db) (machine : MachineNode) : option DeletionSummary :=
  summary ← countRecursive fuel db (node_id machine);
  Some {| sum_nodes := sum_nodes summary + 1;
          sum_sops := sum_sops summary; sum_tools := sum_tools summary;
          sum_skills := sum_skills summary; sum_notes := sum_notes summary;
          sum_problems := sum_problems summary; sum_edges := sum_edges summary |}%nat.

(** The writes of [deleteRecursive] on one node, after its children:
    [where(field).equals(nodeId).delete()] on four tables, then
    [db.nodes.delete(nodeId)]. *)
Definition deleteOwn (nodeId : string) (db : Db) : Db :=
  {| nodes := filter (λ n, node_id n ≠ nodeId) (nodes db);
     edges := filter (λ e, edge_parentId e ≠ nodeId) (edges db);
     problems := filter (λ p, problem_machineNodeId p ≠ nodeId) (problems db);
     victoryConditions := filter (λ v, vc_machineNodeId v ≠ nodeId) (victoryConditions db);
     statusChanges := filter (λ c, sc_machineNodeId c ≠ nodeId) (statusChanges db);
     captures := captures db;
     events := events db |}.

Fixpoint deleteRecursive (fuel : nat) (db : Db) (nodeId : string) : option Db :=
  match fuel with
  | O => None
  | S fuel' =>
      let children := childrenOf db nodeId in
      db' ← foldl (λ acc child, d ← acc; deleteRecursive fuel' d (node_id child))
                  (Some db) children;
      Some (deleteOwn nodeId db')
  end.

(** [confirmDelete], on the store; [deleteTarget] is the machine that
    [prepareDelete] recorded. *)
Definition confirmDelete (fuel : nat) (db : Db) (deleteTarget : option MachineNode) : option Db :=
  match deleteTarget with
  | None => Some db
  | Some target => deleteRecursive fuel db (node_id target)
  end.

(** [db.nodes.get(id)]: the row with that id, if any. *)
Definition getNode (db : Db) (id : string) : option MachineNode :=
  head (filter (λ n, node_id n = id) (nodes db)).

(** [table.add(row)] appends the row; one function per table written. *)
Definition addNode (n : MachineNode) (db : Db) : Db :=
  {| nodes := nodes db ++ [n]; edges := edges db; problems := problems db;
     victoryConditions := victoryConditions db; statusChanges := statusChanges db;
     captures := captures db; events := events db |}.

Definition addEdge (e : MachineEdge) (db : Db) : Db :=
  {| nodes := nodes db; edges := edges db ++ [e]; problems := problems db;
     victoryConditions := victoryConditions db; statusChanges := statusChanges db;
     captures := captures db; events := events db |}.

Definition addVictoryCondition (v : VictoryCondition) (db : Db) : Db :=
  {| nodes := nodes db; edges := edges db; problems := problems db;
     victoryConditions := victoryConditions db ++ [v]; statusChanges := statusChanges db;
     captures := captures db; events := events db |}.

Definition addStatusChange (c : StatusChange) (db : Db) : Db :=
  {| nodes := nodes db; edges := edges db; problems := problems db;
     victoryConditions := victoryConditions db; statusChanges := statusChanges db ++ [c];
     captures := captures db; events := events db |}.

Definition addEvent (e : MachineEvent) (db : Db) : Db :=
  {| nodes := nodes db; edges := edges db; problems := problems db;
     victoryConditions := victoryConditions db; statusChanges := statusChanges db;
     captures := captures db; events := events db ++ [e] |}.

(** ** Dashboard: duplicate ([src/components/Collapsible.tsx], lines 727-786)

    [uuid k] is the identifier that the [k]-th call of [uuid()] returns;
    the state of a duplication carries the store, the [idMap] and the
    number of identifiers handed out so far. *)

Record CloneState := {
  c_db : Db;
  c_idMap : gmap string string;
  c_next : nat;
}.

(** [idMap.get(x) || x] *)
Definition remap (idMap : gmap string string) (x : string) : string :=
  or_else (default "" (idMap !! x)) x.

Section Duplicate.
Variable uuid : nat → string.
Variable now : Z.

(** [node.steps.map(s => ({ ...s, id: uuid(), done: false }))], the
    first call of [uuid()] being the [k]-th. *)
Fixpoint cloneSteps (k : nat) (steps : list SopStep) : list SopStep :=
  match steps with
  | [] => []
  | s :: rest =>
      {| step_id := uuid k; step_text := step_text s; step_done := false;
         step_order := step_order s; step_linkedNodeId := step_linkedNodeId s |}
      :: cloneSteps (S k) rest
  end.

Definition cloneNode (node : MachineNode) (newId newParentId : string) (k : nat) : MachineNode :=
  {| node_id := newId;
     node_parentId := newParentId;
     node_type := node_type node;
     node_label := if bool_decide (newParentId = "")
                   then node_label node +:+ " (Copy)" else node_label node;
     node_description := node_description node;
     node_statusId := node_statusId node;
     node_position := node_position node;
     node_goal := node_goal node;
     node_bottleneck := node_bottleneck node;
     node_notes := node_notes node;
     node_steps := cloneSteps k (node_steps node);
     node_toolUrl := node_toolUrl node;
     node_proficiency := node_proficiency node;
     node_hasChildren := node_hasChildren node;
     node_createdAt := now;
     node_updatedAt := now |}.

(** One turn of the loop over the edges of the level. *)
Definition cloneEdge (newId : string) (st : CloneState) (edge : MachineEdge) : CloneState :=
  {| c_db := addEdge {| edge_id := uuid (c_next st);
                        edge_parentId := newId;
                        edge_source := remap (c_idMap st) (edge_source edge);
                        edge_target := remap (c_idMap st) (edge_target edge);
                        edge_label := edge_label edge;
                        edge_relationship := edge_relationship edge |} (c_db st);
     c_idMap := c_idMap st;
     c_next := S (c_next st) |}.

(** One turn of the loop over the victory conditions of the node. *)
Definition cloneVC (newId : string) (st : CloneState) (vc : VictoryCondition) : CloneState :=
  {| c_db := addVictoryCondition
               {| vc_id := uuid (c_next st); vc_machineNodeId := newId;
                  vc_label := vc_label vc; vc_target := vc_target vc;
                  vc_current := vc_current vc; vc_met := vc_met vc;
                  vc_order := vc_order vc |} (c_db st);
     c_idMap := c_idMap st;
     c_next := S (c_next st) |}.

Fixpoint cloneRecursive (fuel : nat) (nodeId newParentId : string)
    (st : CloneState) : option CloneState :=
  match fuel with
  | O => None
  | S fuel' =>
      match getNode (c_db st) nodeId with
      | None => Some st
      | Some node =>
          let newId := uuid (c_next st) in
          let clone := cloneNode node newId newParentId (S (c_next st)) in
          let st1 :=
            {| c_db := addNode clone (c_db st);
               c_idMap := <[nodeId := newId]> (c_idMap st);
               c_next := S (c_next st) + length (node_steps node) |} in
          let children := childrenOf (c_db st1) nodeId in
          st2 ← foldl (λ acc child,
                         s ← acc; cloneRecursive fuel' (node_id child) newId s)
                      (Some st1) children;
          let levelEdges := filter (λ e, edge_parentId e = nodeId) (edges (c_db st2)) in
          let st3 := foldl (cloneEdge newId) st2 levelEdges in
          let vcs := filter (λ v, vc_machineNodeId v = nodeId)
                            (victoryConditions (c_db st3)) in
          Some (foldl (cloneVC newId) st3 vcs)
      end
  end.

(** [duplicateMachine], on the store; [k] identifiers were handed out
    before. *)
Definition duplicateMachine (fuel : nat) (k : nat) (db : Db) (machine : MachineNode)
    : option CloneState :=
  cloneRecursive fuel (node_id machine) ""
    {| c_db := db; c_idMap := ∅; c_next := k |}.
End Duplicate.

(** ** Whiteboard ([src/pages/Whiteboard.tsx], lines 1110-1125, 1200-1231,
    1280-1295) *)

(** [Partial<MachineNode>] *)
Record NodeUpdates := {
  u_id : option string;
  u_parentId : option string;
  u_type : option NodeType;
  u_label : option string;
  u_description : option string;
  u_statusId : option string;
  u_position : option (Z * Z);
  u_goal : option string;
  u_bottleneck : option string;
  u_notes : option string;
  u_steps : option (list SopStep);
  u_toolUrl : option string;
  u_proficiency : option (option ProficiencyLevel);
  u_hasChildren : option bool;
  u_createdAt : option Z;
  u_updatedAt : option Z;
}.

Definition noUpdates : NodeUpdates :=
  {| u_id := None; u_parentId := None; u_type := None; u_label := None;
     u_description := None; u_statusId := None; u_position := None;
     u_goal := None; u_bottleneck := None; u_notes := None; u_steps := None;
     u_toolUrl := None; u_proficiency := None; u_hasChildren := None;
     u_createdAt := None; u_updatedAt := None |}.

(** [{ ...n, ...updates }] *)
Definition applyUpdates (n : MachineNode) (u : NodeUpdates) : MachineNode :=
  {| node_id := default (node_id n) (u_id u);
     node_parentId := default (node_parentId n) (u_parentId u);
     node_type := default (node_type n) (u_type u);
     node_label := default (node_label n) (u_label u);
     node_description := default (node_description n) (u_description u);
     node_statusId := default (node_statusId n) (u_statusId u);
     node_position := default (node_position n) (u_position u);
     node_goal := default (node_goal n) (u_goal u);
     node_bottleneck := default (node_bottleneck n) (u_bottleneck u);
     node_notes := default (node_notes n) (u_notes u);
     node_steps := default (node_steps n) (u_steps u);
     node_toolUrl := default (node_toolUrl n) (u_toolUrl u);
     node_proficiency := default (node_proficiency n) (u_proficiency u);
     node_hasChildren := default (node_hasChildren n) (u_hasChildren u);
     node_createdAt := default (node_createdAt n) (u_createdAt u);
     node_updatedAt := default (node_updatedAt n) (u_updatedAt u) |}.

(** [{ ...updates, updatedAt: new Date() }] *)
Definition withUpdatedAt (u : NodeUpdates) (now : Z) : NodeUpdates :=
  {| u_id := u_id u; u_parentId := u_parentId u; u_type := u_type u;
     u_label := u_label u; u_description := u_description u;
     u_statusId := u_statusId u; u_position := u_position u;
     u_goal := u_goal u; u_bottleneck := u_bottleneck u; u_notes := u_notes u;
     u_steps := u_steps u; u_toolUrl := u_toolUrl u;
     u_proficiency := u_proficiency u; u_hasChildren := u_hasChildren u;
     u_createdAt := u_createdAt u; u_updatedAt := Some now |}.

(** [db.nodes.update(id, updates)] *)
Definition updateNode (id : string) (u : NodeUpdates) (db : Db) : Db :=
  {| nodes := map (λ n, if bool_decide (node_id n = id) then applyUpdates n u else n) (nodes db);
     edges := edges db; problems := problems db;
     victoryConditions := victoryConditions db; statusChanges := statusChanges db;
     captures := captures db; events := events db |}.

(** The state of the whiteboard page that the handlers read and write:
    the store, the nodes of the canvas level on screen ([dbNodes]) and the
    number of identifiers handed out. *)
Record Whiteboard := {
  wb_db : Db;
  dbNodes : list MachineNode;
  wb_next : nat;
}.

Definition mkEvent (id nodeId : string) (ty : EventType) (now : Z)
    (previousValue newValue : option string) : MachineEvent :=
  {| event_id := id; event_nodeId := nodeId; event_eventType := ty;
     event_timestamp := now; event_previousValue := previousValue;
     event_newValue := newValue; event_metadata := None |}.

Section WhiteboardHandlers.
Variable uuid : nat → string.
Variable now : Z.

(** The [if (updates.statusId) { ... }] block of [handleUpdateNode]. *)
Definition trackStatusChange (id : string) (updates : NodeUpdates) (w : Whiteboard) : Whiteboard :=
  match u_statusId updates with
  | None => w
  | Some newStatus =>
      if truthy newStatus then
        match head (filter (λ n, node_id n = id) (dbNodes w)) with
        | None => w
        | Some currentNode =>
            if bool_decide (node_statusId currentNode ≠ newStatus) then
              {| wb_db :=
                   addEvent
                     (mkEvent (uuid (S (wb_next w))) id ev_status_change now
                        (Some (node_statusId currentNode)) (Some newStatus))
                     (addStatusChange
                        {| sc_id := uuid (wb_next w); sc_machineNodeId := id;
                           sc_fromStatusId := node_statusId currentNode;
                           sc_toStatusId := newStatus; sc_changedAt := now |}
                        (wb_db w));
                 dbNodes := dbNodes w;
                 wb_next := S (S (wb_next w)) |}
            else w
        end
      else w
  end.

(** The [if (updates.notes !== undefined) { ... }] block. *)
Definition trackNoteUpdate (id : string) (updates : NodeUpdates) (w : Whiteboard) : Whiteboard :=
  match u_notes updates with
  | None => w
  | Some _ =>
      {| wb_db := addEvent (mkEvent (uuid (wb_next w)) id ev_note_updated now None None) (wb_db w);
         dbNodes := dbNodes w;
         wb_next := S (wb_next w) |}
  end.

Definition handleUpdateNode (id : string) (updates : NodeUpdates) (w : Whiteboard) : Whiteboard :=
  let w1 := trackStatusChange id updates w in
  let w2 := trackNoteUpdate id updates w1 in
  {| wb_db := updateNode id (withUpdatedAt updates now) (wb_db w2);
     dbNodes := map (λ n, if bool_decide (node_id n = id) then applyUpdates n updates else n)
                    (dbNodes w2);
     wb_next := wb_next w2 |}.

(** [table.filter(fn).delete()]: every matching row is deleted by id. *)
Definition deleteEdgesWhere (P : MachineEdge → Prop) `{∀ e, Decision (P e)}
    (rows : list MachineEdge) : list MachineEdge :=
  foldl (λ rs item, filter (λ e, edge_id e ≠ edge_id item) rs) rows (filter P rows).

Definition handleDeleteNode (nodeId : string) (w : Whiteboard) : Whiteboard :=
  let db := wb_db w in
  let children := childrenOf db nodeId in
  let nodes1 := foldl (λ rs c, filter (λ n, node_id n ≠ node_id c) rs) (nodes db) children in
  {| wb_db :=
       {| nodes := filter (λ n, node_id n ≠ nodeId) nodes1;
          edges := deleteEdgesWhere
                     (λ e, edge_source e = nodeId ∨ edge_target e = nodeId) (edges db);
          problems := filter (λ p, problem_machineNodeId p ≠ nodeId) (problems db);
          victoryConditions :=
            filter (λ v, vc_machineNodeId v ≠ nodeId) (victoryConditions db);
          statusChanges := statusChanges db;
          captures := captures db;
          events := events db
                    ++ [mkEvent (uuid (wb_next w)) nodeId ev_node_deleted now None None] |};
     dbNodes := filter (λ n, node_id n ≠ nodeId) (dbNodes w);
     wb_next := S (wb_next w) |}.
End WhiteboardHandlers.

(** The breadcrumb walk of the whiteboard page. *)
Record BreadcrumbSegment := { seg_id : option string; seg_label : string }.

(** The [while (cid && !visited.has(cid))] loop; [cid = None] is [null]. *)
Fixpoint breadcrumbLoop (fuel : nat) (db : Db) (cid : option string)
    (visited : gset string) (trail : list BreadcrumbSegment)
    : option (list BreadcrumbSegment) :=
  match fuel with
  | O => None
  | S fuel' =>
      match cid with
      | None => Some trail
      | Some c =>
          if negb (truthy c) || bool_decide (c ∈ visited) then Some trail else
          match getNode db c with
          | Some node =>
              breadcrumbLoop fuel' db
                (if truthy (node_parentId node) then Some (node_parentId node) else None)
                ({[c]} ∪ visited)
                ({| seg_id := Some (node_id node); seg_label := node_label node |} :: trail)
          | None => Some trail
          end
      end
  end.

Definition buildBreadcrumbs (fuel : nat) (db : Db) (parentId : string)
    : option (list BreadcrumbSegment) :=
  trail ← breadcrumbLoop fuel db (Some parentId) ∅ [];
  Some (match trail with
        | [] => []
        | _ => {| seg_id := None; seg_label := "Machines" |} :: trail
        end).

(** ** Predicates of the statements and sample data *)

(** An item that the feed shows: its severity is above [normal]. *)
Definition flagged (it : AttentionItem) : Prop := item_severity it ≠ sev_normal.

(** The order of the feed: a more severe item first, and among items of
    one severity the older first. *)
Definition rankedBefore (a b : AttentionItem) : Prop :=
  severityOrder (item_severity a) < severityOrder (item_severity b)
  ∨ (item_severity a = item_severity b ∧ item_ageDays b <= item_ageDays a).

(** The items of one severity and one age. *)
Definition sameRank (s : Severity) (age : Z) (it : AttentionItem) : Prop :=
  item_severity it = s ∧ item_ageDays it = age.

#[global] Instance sameRank_dec s age it : Decision (sameRank s age it).
Proof. unfold sameRank. apply _. Defined.

Definition day : Z := 1000 * 60 * 60 * 24.

(** A node as [handleAddNode] and [handleCreate] build it
    ([defaultNodeFields]), created and last updated at [time]. *)
Definition newNode (id parentId : string) (type : NodeType) (label statusId : string)
    (time : Z) : MachineNode :=
  {| node_id := id; node_parentId := parentId; node_type := type;
     node_label := label; node_description := ""; node_statusId := statusId;
     node_position := (0, 0); node_goal := ""; node_bottleneck := "";
     node_notes := ""; node_steps := []; node_toolUrl := "";
     node_proficiency := None; node_hasChildren := false;
     node_createdAt := time; node_updatedAt := time |}.

Definition emptyDb : Db :=
  {| nodes := []; edges := []; problems := []; victoryConditions := [];
     statusChanges := []; captures := []; events := [] |}.

(** An item of the ranking example: only severity and age matter. *)
Definition sampleItem (s : Severity) (age : Z) : AttentionItem :=
  {| item_id := ""; item_type := stale_problem; item_title := "";
     item_subtitle := ""; item_nodeId := ""; item_machineId := "";
     item_severity := s; item_ageDays := age; item_link := "" |}.

(** A store on day 30: an open problem of day 10 on a sub-machine, a root
    machine untouched since day 20 and an unprocessed capture of day 28. *)
Definition scanDb : Db :=
  {| nodes := [newNode "m1" "" machine "Sales" "running" (20 * day);
               newNode "m2" "m1" machine "Leads" "running" (29 * day)];
     edges := [];
     problems := [{| problem_id := "p1"; problem_machineNodeId := "m2";
                     problem_title := "No replies"; problem_description := "";
                     problem_severity := ps_medium; problem_status := open;
                     problem_diagnosis := ""; problem_plan := "";
                     problem_createdAt := 10 * day; problem_resolvedAt := None |}];
     victoryConditions := [];
     statusChanges := [];
     captures := [{| capture_id := "c1"; capture_text := "call Bob";
                     capture_machineId := "m1"; capture_processed := false;
                     capture_createdAt := 28 * day |}];
     events := [] |}.

(** A store on day 10: a root machine last updated on day 0 whose status
    was set to blocked on day 9. *)
Definition blockedRoot : MachineNode := newNode "m" "" machine "Sales" "blocked" 0.

Definition blockedDb : Db :=
  {| nodes := [blockedRoot];
     edges := []; problems := []; victoryConditions := [];
     statusChanges := [{| sc_id := "s1"; sc_machineNodeId := "m";
                          sc_fromStatusId := "running"; sc_toStatusId := "blocked";
                          sc_changedAt := 9 * day |}];
     captures := []; events := [] |}.

(** Each state of [l] has a fingerprint different from the one recorded
    just before it, [last] being the fingerprint recorded before the
    first. *)
Fixpoint distinctFrom (last : option Fingerprint) (l : list FlowState) : Prop :=
  match l with
  | [] => True
  | s :: l' => last ≠ Some (fingerprint s) ∧ distinctFrom (Some (fingerprint s)) l'
  end.

#[global] Instance distinctFrom_dec last l : Decision (distinctFrom last l).
Proof. revert last. induction l; simpl; intros; apply _. Defined.

(** Flow states with one node ["a"] at [(x, x)], and the empty canvas. *)
Definition flowAt (x : Z) : FlowState :=
  {| fs_nodes := [{| fn_id := "a"; fn_position := (x, x); fn_data := "" |}];
     fs_edges := [] |}.

Definition emptyFlow : FlowState := {| fs_nodes := []; fs_edges := [] |}.

(** After: snapshot of the empty canvas, node added at 0, snapshot, node
    moved to 1, undo, end of the replay window. *)
Definition afterUndo : History :=
  replayEnds (undo (setFlow (flowAt 1)
    (takeSnapshot (setFlow (flowAt 0) (takeSnapshot initialHistory))))).

(** ... and one more undo, which empties [past]. *)
Definition allUndone : History := undo afterUndo.

(** ** The subtree under a node

    The ids that a recursion over the children reaches from [nodeId] on a
    store that does not change, a node before its descendants. *)
Fixpoint subtree (fuel : nat) (db : Db) (nodeId : string) : option (list string) :=
  match fuel with
  | O => None
  | S fuel' =>
      ls ← mapM (λ child, subtree fuel' db (node_id child)) (childrenOf db nodeId);
      Some (nodeId :: concat ls)
  end.

(** The store without the nodes of [ids] and without the rows that
    [deleteRecursive] deletes with one of them. *)
Definition deleteAll (ids : list string) (db : Db) : Db :=
  {| nodes := filter (λ n, node_id n ∉ ids) (nodes db);
     edges := filter (λ e, edge_parentId e ∉ ids) (edges db);
     problems := filter (λ p, problem_machineNodeId p ∉ ids) (problems db);
     victoryConditions := filter (λ v, vc_machineNodeId v ∉ ids) (victoryConditions db);
     statusChanges := filter (λ c, sc_machineNodeId c ∉ ids) (statusChanges db);
     captures := captures db;
     events := events db |}.

(** The parent id that the row of [x] records, and the [k]-th ancestor. *)
Definition parentOf (db : Db) (x : string) : option string :=
  node_parentId <$> getNode db x.

Fixpoint up (db : Db) (k : nat) (x : string) : option string :=
  match k with
  | O => Some x
  | S k' => p ← parentOf db x; up db k' p
  end.

(** The seven counters of a deletion summary. *)
Inductive Category :=
  | cat_nodes | cat_sops | cat_tools | cat_skills | cat_notes
  | cat_problems | cat_edges.

#[global] Instance Category_eq_dec : EqDecision Category.
Proof. solve_decision. Defined.

Definition getCategory (c : Category) (t : DeletionSummary) : nat :=
  match c with
  | cat_nodes => sum_nodes t | cat_sops => sum_sops t | cat_tools => sum_tools t
  | cat_skills => sum_skills t | cat_notes => sum_notes t
  | cat_problems => sum_problems t | cat_edges => sum_edges t
  end.

(** The counter that [countRecursive] increments for a child of a type. *)
Definition categoryOf (ty : NodeType) : Category :=
  match ty with
  | machine => cat_nodes | sop => cat_sops | tool => cat_tools
  | skill => cat_skills | note => cat_notes
  end.

(** What the visit of [x] adds to a counter: the children of [x] of the
    type, the problems keyed to [x], the edges owned by [x]. *)
Definition ownCount (db : Db) (c : Category) (x : string) : nat :=
  match c with
  | cat_problems => length (filter (λ p, problem_machineNodeId p = x) (problems db))
  | cat_edges => length (filter (λ e, edge_parentId e = x) (edges db))
  | _ => length (filter (λ r, categoryOf (node_type r) = c) (childrenOf db x))
  end.

(** The rows of a node table of one type. *)
Definition countType (ty : NodeType) (rows : list MachineNode) : nat :=
  length (filter (λ n, node_type n = ty) rows).

(** The scenario of the specification: a root machine M with one child
    procedure P of two steps, and an edge M → P owned by the level of M. *)
Definition rootM : MachineNode := newNode "m" "" machine "Sales" "running" 0.

Definition procedureP : MachineNode :=
  {| node_id := "p"; node_parentId := "m"; node_type := sop;
     node_label := "Follow up"; node_description := ""; node_statusId := "not-built";
     node_position := (0, 0); node_goal := ""; node_bottleneck := "";
     node_notes := "";
     node_steps :=
       [{| step_id := "s1"; step_text := "Call"; step_done := true;
           step_order := 0; step_linkedNodeId := None |};
        {| step_id := "s2"; step_text := "Mail"; step_done := false;
           step_order := 1; step_linkedNodeId := None |}];
     node_toolUrl := ""; node_proficiency := None; node_hasChildren := false;
     node_createdAt := 0; node_updatedAt := 0 |}.

Definition machineWithProcedure : Db :=
  {| nodes := [rootM; procedureP];
     edges := [{| edge_id := "e1"; edge_parentId := "m"; edge_source := "m";
                  edge_target := "p"; edge_label := None;
                  edge_relationship := feeds |}];
     problems := []; victoryConditions := []; statusChanges := [];
     captures := []; events := [] |}.

(** A whiteboard three levels deep: machine [m] > [a] > [b], [b2] > [c],
    with an edge between [b] and [b2] on the canvas of [a], and a
    problem, a victory condition and a status change below [a]. *)
Definition deepDb : Db :=
  {| nodes := [newNode "m" "" machine "Sales" "running" 0;
               newNode "a" "m" machine "Leads" "running" 0;
               newNode "b" "a" machine "Cold calls" "running" 0;
               newNode "b2" "a" tool "Phone" "running" 0;
               newNode "c" "b" note "Script" "running" 0];
     edges := [{| edge_id := "e1"; edge_parentId := "a"; edge_source := "b";
                  edge_target := "b2"; edge_label := None;
                  edge_relationship := depends |}];
     problems := [{| problem_id := "p1"; problem_machineNodeId := "b";
                     problem_title := "No answers"; problem_description := "";
                     problem_severity := ps_high; problem_status := open;
                     problem_diagnosis := ""; problem_plan := "";
                     problem_createdAt := 0; problem_resolvedAt := None |}];
     victoryConditions := [{| vc_id := "v1"; vc_machineNodeId := "b";
                              vc_label := "10 calls a day"; vc_target := "10";
                              vc_current := "2"; vc_met := false; vc_order := 0 |}];
     statusChanges := [{| sc_id := "s1"; sc_machineNodeId := "a";
                          sc_fromStatusId := "not-built"; sc_toStatusId := "running";
                          sc_changedAt := 0 |}];
     captures := []; events := [] |}.

(** The canvas of [m] is on screen: its only node is [a]. *)
Definition deepWhiteboard : Whiteboard :=
  {| wb_db := deepDb; dbNodes := childrenOf deepDb "m"; wb_next := 0 |}.

(** Two root machines joined by an edge of the top level. *)
Definition twoRootsDb : Db :=
  {| nodes := [newNode "m1" "" machine "Sales" "running" 0;
               newNode "m2" "" machine "Delivery" "running" 0];
     edges := [{| edge_id := "e1"; edge_parentId := ""; edge_source := "m1";
                  edge_target := "m2"; edge_label := None;
                  edge_relationship := feeds |}];
     problems := []; victoryConditions := []; statusChanges := [];
     captures := []; events := [] |}.

(** Two nodes that name each other as parent. *)
Definition cycleA : MachineNode := newNode "a" "b" machine "A" "running" 0.
Definition cycleB : MachineNode := newNode "b" "a" machine "B" "running" 0.

Definition cycleDb : Db :=
  {| nodes := [cycleA; cycleB];
     edges := []; problems := []; victoryConditions := []; statusChanges := [];
     captures := []; events := [] |}.

(** The canvas of [a] is on screen while [a] itself is still selected:
    [dbNodes] holds the children of [a]. *)
Definition insideA : Whiteboard :=
  {| wb_db := deepDb; dbNodes := childrenOf deepDb "a"; wb_next := 0 |}.

(** [{ statusId }] *)
Definition statusUpdate (statusId : string) : NodeUpdates :=
  {| u_id := None; u_parentId := None; u_type := None; u_label := None;
     u_description := None; u_statusId := Some statusId; u_position := None;
     u_goal := None; u_bottleneck := None; u_notes := None; u_steps := None;
     u_toolUrl := None; u_proficiency := None; u_hasChildren := None;
     u_createdAt := None; u_updatedAt := None |}.

(** The length of the chain of parents that resolve, from a node up to a
    node without parent or with a parent that is not in the map. *)
Inductive depth (nodeMap : gmap string MachineNode) : MachineNode → nat → Prop :=
  | depth_root n : node_parentId n = "" → depth nodeMap n 0
  | depth_orphan n : nodeMap !! node_parentId n = None → depth nodeMap n 0
  | depth_child n parent d :
      node_parentId n ≠ "" → nodeMap !! node_parentId n = Some parent →
      depth nodeMap parent d → depth nodeMap n (S d).

(** ** Duplication: the ids of a store and of a run *)

(** Every id that a row of the store, or a step embedded in a node,
    carries. *)
Definition storeIds (db : Db) : list string :=
  (node_id <$> nodes db)
  ++ (step_id <$> concat (node_steps <$> nodes db))
  ++ (edge_id <$> edges db)
  ++ (problem_id <$> problems db)
  ++ (vc_id <$> victoryConditions db)
  ++ (sc_id <$> statusChanges db)
  ++ (capture_id <$> captures db)
  ++ (event_id <$> events db).

(** [x] is the result of one of the calls [a], ..., [b - 1] of [uuid()]. *)
Definition generated (uuid : nat → string) (a b : nat) (x : string) : Prop :=
  ∃ j, (a ≤ j < b)%nat ∧ x = uuid j.

(** From [st] to [st'] the run only called [uuid()], appended rows with
    generated ids to the node, edge and victory-condition tables, and
    added entries with generated values to the [idMap]. *)
Definition grows (uuid : nat → string) (st st' : CloneState) : Prop :=
  (c_next st ≤ c_next st')%nat
  ∧ (∃ ns es vs,
       nodes (c_db st') = nodes (c_db st) ++ ns
       ∧ edges (c_db st') = edges (c_db st) ++ es
       ∧ victoryConditions (c_db st') = victoryConditions (c_db st) ++ vs
       ∧ Forall (λ n, generated uuid (c_next st) (c_next st') (node_id n)
                      ∧ Forall (λ s, generated uuid (c_next st) (c_next st') (step_id s))
                               (node_steps n)) ns
       ∧ Forall (λ e, generated uuid (c_next st) (c_next st') (edge_id e)) es
       ∧ Forall (λ v, generated uuid (c_next st) (c_next st') (vc_id v)) vs)
  ∧ problems (c_db st') = problems (c_db st)
  ∧ statusChanges (c_db st') = statusChanges (c_db st)
  ∧ captures (c_db st') = captures (c_db st)
  ∧ events (c_db st') = events (c_db st)
  ∧ dom (c_idMap st) ⊆ dom (c_idMap st')
  ∧ (∀ x y, c_idMap st' !! x = Some y →
            c_idMap st !! x = Some y ∨ generated uuid (c_next st) (c_next st') y).

(** The clone of edge [e] made with the [idMap] [m], under the clone
    [newId] of its level, with id [id]. *)
Definition edgeClone (id newId : string) (m : gmap string string) (e : MachineEdge)
    : MachineEdge :=
  {| edge_id := id; edge_parentId := newId;
     edge_source := remap m (edge_source e);
     edge_target := remap m (edge_target e);
     edge_label := edge_label e;
     edge_relationship := edge_relationship e |}.

(** A sample generator: ["u0"], ["u1"], ... *)
Definition sampleUuid (k : nat) : string := "u" +:+ pretty k.

(** Root machine [m] with child [x]; the edge of the canvas of [m] goes
    from [x] to [o], a root machine outside the subtree of [m]. *)
Definition externalEdgeDb : Db :=
  {| nodes := [newNode "m" "" machine "Sales" "running" 0;
               newNode "x" "m" machine "Leads" "running" 0;
               newNode "o" "" machine "Delivery" "running" 0];
     edges := [{| edge_id := "e1"; edge_parentId := "m"; edge_source := "x";
                  edge_target := "o"; edge_label := None;
                  edge_relationship := feeds |}];
     problems := []; victoryConditions := []; statusChanges := [];
     captures := []; events := [] |}.

(** The state after the first writes of [cloneRecursive] on a node that
    exists: the clone is added and the [idMap] has its entry. *)
Definition afterClone (uuid : nat → string) (now : Z) (node : MachineNode)
    (nodeId newParentId : string) (st : CloneState) : CloneState :=
  {| c_db := addNode (cloneNode uuid now node (uuid (c_next st)) newParentId
                        (S (c_next st))) (c_db st);
     c_idMap := <[nodeId := uuid (c_next st)]> (c_idMap st);
     c_next := S (c_next st) + length (node_steps node) |}.

(** Every chain of parents in the map resolves in at most [d] steps: the
    map has no cycle. *)
Definition acyclicWithin (d : nat) (nodeMap : gmap string MachineNode) : Prop :=
  ∀ x n, nodeMap !! x = Some n → ∃ d', (d' ≤ d)%nat ∧ depth nodeMap n d'.

(** ** Procedure steps ([src/pages/Whiteboard.tsx], lines 802-843)

    The handlers of the step list of a procedure.  Each one computes the
    new list [updated] from [steps = node.steps] and hands it to
    [onUpdateNode(node.id, { steps: updated })], which is
    [handleUpdateNode]. *)

(** [{ steps }] *)
Definition stepsUpdate (steps : list SopStep) : NodeUpdates :=
  {| u_id := None; u_parentId := None; u_type := None; u_label := None;
     u_description := None; u_statusId := None; u_position := None;
     u_goal := None; u_bottleneck := None; u_notes := None; u_steps := Some steps;
     u_toolUrl := None; u_proficiency := None; u_hasChildren := None;
     u_createdAt := None; u_updatedAt := None |}.

(** [steps.map(s => s.id === stepId ? { ...s, done: !s.done } : s)] *)
Definition toggled (stepId : string) (steps : list SopStep) : list SopStep :=
  map (λ s, if bool_decide (step_id s = stepId)
            then {| step_id := step_id s; step_text := step_text s;
                    step_done := negb (step_done s); step_order := step_order s;
                    step_linkedNodeId := step_linkedNodeId s |}
            else s) steps.

(** [steps.filter(s => s.id !== stepId)] *)
Definition withoutStep (stepId : string) (steps : list SopStep) : list SopStep :=
  filter (λ s, step_id s ≠ stepId) steps.

(** [steps.map(s => s.id === stepId ? { ...s, text } : s)] *)
Definition withStepText (stepId text : string) (steps : list SopStep) : list SopStep :=
  map (λ s, if bool_decide (step_id s = stepId)
            then {| step_id := step_id s; step_text := text;
                    step_done := step_done s; step_order := step_order s;
                    step_linkedNodeId := step_linkedNodeId s |}
            else s) steps.

(** [steps.map(s => s.id === stepId
      ? { ...s, linkedNodeId: linkedNodeId || undefined } : s)] *)
Definition withStepLink (stepId linkedNodeId : string) (steps : list SopStep) : list SopStep :=
  map (λ s, if bool_decide (step_id s = stepId)
            then {| step_id := step_id s; step_text := step_text s;
                    step_done := step_done s; step_order := step_order s;
                    step_linkedNodeId :=
                      if truthy linkedNodeId then Some linkedNodeId else None |}
            else s) steps.

(** [updated.map((s, i) => ({ ...s, order: i }))] *)
Definition reordered (steps : list SopStep) : list SopStep :=
  imap (λ i s, {| step_id := step_id s; step_text := step_text s;
                  step_done := step_done s; step_order := Z.of_nat i;
                  step_linkedNodeId := step_linkedNodeId s |}) steps.

(** [a.splice(i, 0, x)] for an index [i >= 0]: [x] goes before position
    [i], or to the end when the array is shorter. *)
Definition spliceIn {A} (i : nat) (x : A) (a : list A) : list A :=
  take i a ++ x :: drop i a.

(** What [moveStep] hands to [onUpdateNode].  The two indices are array
    indices (natural numbers).  [updated.splice(fromIdx, 1)] removes the
    element at [fromIdx] and returns it; when [fromIdx] is no index of
    the array it removes nothing and [moved] is [undefined], which the
    second [splice] then inserts: that list is no list of steps, and is
    [UndefinedStep] here. *)
Inductive StepsUpdate :=
  | NoUpdate
  | Updated (steps : list SopStep)
  | UndefinedStep.

Definition moveStep (fromIdx toIdx : nat) (steps : list SopStep) : StepsUpdate :=
  if bool_decide (fromIdx = toIdx) then NoUpdate else
  match steps !! fromIdx with
  | Some moved => Updated (reordered (spliceIn toIdx moved (delete fromIdx steps)))
  | None => UndefinedStep
  end.

Section StepHandlers.
Variable uuid : nat → string.
Variable now : Z.

(** [toggleStep] of the panel of [node]: the update of the node, then the
    event, whose type is read off the step that [steps.find] returns. *)
Definition toggleStep (node : MachineNode) (stepId : string) (w : Whiteboard) : Whiteboard :=
  let steps := node_steps node in
  let step := head (filter (λ s, step_id s = stepId) steps) in
  let w1 := handleUpdateNode uuid now (node_id node) (stepsUpdate (toggled stepId steps)) w in
  let eventType :=
    match step with
    | Some s => if negb (step_done s) then ev_step_completed else ev_step_uncompleted
    | None => ev_step_uncompleted
    end in
  {| wb_db := addEvent {| event_id := uuid (wb_next w1); event_nodeId := node_id node;
                          event_eventType := eventType; event_timestamp := now;
                          event_previousValue := None; event_newValue := None;
                          event_metadata := Some stepId |} (wb_db w1);
     dbNodes := dbNodes w1;
     wb_next := S (wb_next w1) |}.
End StepHandlers.

(** ** Column names ([src/pages/Whiteboard.tsx], lines 1449-1465, 1602-1606,
    1645-1648 and 1686-1742)

    The keys of the records are their TypeScript property names, strings
    of ASCII characters.  [toLowerCase] and [toUpperCase] are modelled on
    the ASCII letters and leave every other character as it is. *)

Definition isUpper (c : ascii) : bool :=
  (65 <=? nat_of_ascii c)%nat && (nat_of_ascii c <=? 90)%nat.

Definition isLower (c : ascii) : bool :=
  (97 <=? nat_of_ascii c)%nat && (nat_of_ascii c <=? 122)%nat.

Definition toLowerChar (c : ascii) : ascii :=
  if isUpper c then ascii_of_nat (nat_of_ascii c + 32) else c.

Definition toUpperChar (c : ascii) : ascii :=
  if isLower c then ascii_of_nat (nat_of_ascii c - 32) else c.

Fixpoint toLowerCase (s : string) : string :=
  match s with
  | EmptyString => EmptyString
  | String c rest => String (toLowerChar c) (toLowerCase rest)
  end.

(** [key.replace(/([A-Z])/g, '_$1')]: an underscore before every capital. *)
Fixpoint underscoreCapitals (key : string) : string :=
  match key with
  | EmptyString => EmptyString
  | String c rest =>
      if isUpper c then String "_" (String c (underscoreCapitals rest))
      else String c (underscoreCapitals rest)
  end.

(** [const snakeKey = key.replace(/([A-Z])/g, '_$1').toLowerCase()] *)
Definition snakeKey (key : string) : string := toLowerCase (underscoreCapitals key).

(** [const camelKey = key.replace(/_([a-z])/g, (_, c) => c.toUpperCase())]:
    the matches are taken from left to right and do not overlap. *)
Fixpoint camelKey (key : string) : string :=
  match key with
  | EmptyString => EmptyString
  | String c rest =>
      match rest with
      | String d rest' =>
          if Ascii.eqb c "_" && isLower d
          then String (toUpperChar d) (camelKey rest')
          else String c (camelKey rest)
      | EmptyString => String c (camelKey rest)
      end
  end.

(** The field maps: camelCase property, snake_case column. *)
Definition NODE_FIELDS : list (string * string) :=
  [("parentId", "parent_id"); ("statusId", "status_id"); ("toolUrl", "tool_url");
   ("hasChildren", "has_children"); ("createdAt", "created_at");
   ("updatedAt", "updated_at")].

Definition EDGE_FIELDS : list (string * string) := [("parentId", "parent_id")].

Definition PROBLEM_FIELDS : list (string * string) :=
  [("machineNodeId", "machine_node_id"); ("createdAt", "created_at");
   ("resolvedAt", "resolved_at")].

Definition VC_FIELDS : list (string * string) := [("machineNodeId", "machine_node_id")].

Definition VCS_FIELDS : list (string * string) :=
  [("victoryConditionId", "victory_condition_id");
   ("machineNodeId", "machine_node_id"); ("recordedAt", "recorded_at")].

Definition SC_FIELDS : list (string * string) :=
  [("machineNodeId", "machine_node_id"); ("fromStatusId", "from_status_id");
   ("toStatusId", "to_status_id"); ("changedAt", "changed_at")].

Definition LEVER_FIELDS : list (string * string) :=
  [("machineNodeId", "machine_node_id"); ("currentValue", "current_value")].

Definition PRINCIPLE_FIELDS : list (string * string) :=
  [("machineNodeId", "machine_node_id"); ("createdAt", "created_at")].

Definition CAPTURE_FIELDS : list (string * string) :=
  [("machineId", "machine_id"); ("createdAt", "created_at")].

Definition EVENT_FIELDS : list (string * string) :=
  [("nodeId", "node_id"); ("eventType", "event_type");
   ("previousValue", "previous_value"); ("newValue", "new_value")].

(** The field maps of the tables of [db]; [statuses] has none. *)
Definition fieldMaps : list (list (string * string)) :=
  [NODE_FIELDS; EDGE_FIELDS; PROBLEM_FIELDS; LEVER_FIELDS; PRINCIPLE_FIELDS;
   VC_FIELDS; VCS_FIELDS; SC_FIELDS; CAPTURE_FIELDS; EVENT_FIELDS].

(** The names of the properties that an object literal inherits from
    [Object.prototype].  The field maps are object literals: a lookup
    [fieldMap[name]] of one of these names, for which the map has no entry
    of its own, finds the inherited member, a function (for [__proto__]
    the prototype object). *)
Definition OBJECT_PROTOTYPE_KEYS : list string :=
  ["constructor"; "__defineGetter__"; "__defineSetter__"; "hasOwnProperty";
   "__lookupGetter__"; "__lookupSetter__"; "isPrototypeOf";
   "propertyIsEnumerable"; "toString"; "valueOf"; "__proto__";
   "toLocaleString"].

(** What a lookup in a field map gives: the column of an entry, a string,
    or the member of [Object.prototype] of that name, which is no string
    and is truthy. *)
Inductive FieldValue :=
  | ColumnName (column : string)
  | InheritedMember (name : string).

(** [fieldMap?.[field]]: the column of the entry for [field]; without
    such an entry the inherited member of that name, if there is one;
    [None] for [undefined]. *)
Definition fieldMapGet (fieldMap : option (list (string * string))) (field : string)
    : option FieldValue :=
  fm ← fieldMap;
  match head (filter (λ e, fst e = field) fm) with
  | Some e => Some (ColumnName (snd e))
  | None =>
      if bool_decide (field ∈ OBJECT_PROTOTYPE_KEYS)
      then Some (InheritedMember field) else None
  end.

(** [const mappedField = this.fieldMap?.[field] || snakeField] of [where]
    and [orderBy]. *)
Definition mappedField (fieldMap : option (list (string * string))) (field : string)
    : FieldValue :=
  match fieldMapGet fieldMap field with
  | Some (ColumnName column) => ColumnName (or_else column (snakeKey field))
  | Some (InheritedMember name) => InheritedMember name
  | None => ColumnName (snakeKey field)
  end.

(** ** Dashboard search: path and root of a result
    ([src/components/Collapsible.tsx], lines 599-628) *)

(** [allNodes.find(n => n.id === id)] *)
Definition findNode (allNodes : list MachineNode) (id : string) : option MachineNode :=
  head (filter (λ n, node_id n = id) allNodes).

(** The [while (current)] loop: the labels from the top of the chain of
    parents down to the node. *)
Fixpoint searchPathLoop (fuel : nat) (allNodes : list MachineNode)
    (current : option MachineNode) (path : list string) : option (list string) :=
  match fuel with
  | O => None
  | S fuel' =>
      match current with
      | None => Some path
      | Some c =>
          searchPathLoop fuel' allNodes (findNode allNodes (node_parentId c))
            (node_label c :: path)
      end
  end.

(** The [while (walk && walk.parentId !== '')] loop. *)
Fixpoint searchRootLoop (fuel : nat) (allNodes : list MachineNode)
    (rootId : string) (walk : option MachineNode) : option string :=
  match fuel with
  | O => None
  | S fuel' =>
      match walk with
      | None => Some rootId
      | Some w =>
          if bool_decide (node_parentId w ≠ "") then
            searchRootLoop fuel' allNodes (node_parentId w)
              (findNode allNodes (node_parentId w))
          else Some rootId
      end
  end.

Record SearchResult := {
  sr_node : MachineNode;
  sr_path : list string;
  sr_rootMachineId : string;
}.

(** The body of [filtered.map(node => ...)]. *)
Definition searchResult (fuel : nat) (allNodes : list MachineNode) (node : MachineNode)
    : option SearchResult :=
  path ← searchPathLoop fuel allNodes (Some node) [];
  rootId ← searchRootLoop fuel allNodes (node_id node) (Some node);
  Some {| sr_node := node; sr_path := path; sr_rootMachineId := rootId |}.

(** [handleSearchSelect]: the address the page navigates to. *)
Definition handleSearchSelect (r : SearchResult) : string :=
  if bool_decide (node_parentId (sr_node r) = "")
  then "/machine/" +:+ node_id (sr_node r)
  else "/machine/" +:+ sr_rootMachineId r +:+ "?parent=" +:+ node_parentId (sr_node r)
       +:+ "&select=" +:+ node_id (sr_node r).

(** ** Inbox ([src/pages/Inbox.tsx], lines 10-61 and 92-94)

    The state of the page: the store, the list [captures] of the page and
    the number of identifiers handed out.  [JSON.stringify] on an object
    whose properties are strings is the argument [stringify], applied to
    the list of the properties. *)

Record Inbox := {
  in_db : Db;
  in_captures : list Capture;
  in_next : nat;
}.

(** [db.captures.update(captureId, { processed: true })] *)
Definition markProcessed (captureId : string) (db : Db) : Db :=
  {| nodes := nodes db; edges := edges db; problems := problems db;
     victoryConditions := victoryConditions db; statusChanges := statusChanges db;
     captures :=
       map (λ c, if bool_decide (capture_id c = captureId)
                 then {| capture_id := capture_id c; capture_text := capture_text c;
                         capture_machineId := capture_machineId c;
                         capture_processed := true;
                         capture_createdAt := capture_createdAt c |}
                 else c) (captures db);
     events := events db |}.

(** [db.problems.add(row)] *)
Definition addProblem (p : Problem) (db : Db) : Db :=
  {| nodes := nodes db; edges := edges db; problems := problems db ++ [p];
     victoryConditions := victoryConditions db; statusChanges := statusChanges db;
     captures := captures db; events := events db |}.

(** [{ notes, updatedAt }] *)
Definition notesUpdate (notes : string) (updatedAt : Z) : NodeUpdates :=
  {| u_id := None; u_parentId := None; u_type := None; u_label := None;
     u_description := None; u_statusId := None; u_position := None;
     u_goal := None; u_bottleneck := None; u_notes := Some notes; u_steps := None;
     u_toolUrl := None; u_proficiency := None; u_hasChildren := None;
     u_createdAt := None; u_updatedAt := Some updatedAt |}.

Section InboxHandlers.
Variable uuid : nat → string.
Variable now : Z.
Variable stringify : list (string * string) → string.

(** The [capture-processed] event that every handler adds last. *)
Definition processedEvent (id : string) (metadata : list (string * string)) : MachineEvent :=
  {| event_id := id; event_nodeId := ""; event_eventType := ev_capture_processed;
     event_timestamp := now; event_previousValue := None; event_newValue := None;
     event_metadata := Some (stringify metadata) |}.

Definition dismissCapture (captureId : string) (st : Inbox) : Inbox :=
  {| in_db := addEvent (processedEvent (uuid (in_next st)) [("action", "dismissed")])
                (markProcessed captureId (in_db st));
     in_captures := filter (λ c, capture_id c ≠ captureId) (in_captures st);
     in_next := S (in_next st) |}.

(** The button [Dismiss All]: [for (const c of captures) await
    dismissCapture(c.id)], over the list of the render. *)
Definition dismissAll (st : Inbox) : Inbox :=
  foldl (λ s c, dismissCapture (capture_id c) s) st (in_captures st).

Definition makeNote (captureId nodeId text : string) (st : Inbox) : Inbox :=
  match getNode (in_db st) nodeId with
  | None => st
  | Some node =>
      let existingNotes := or_else (node_notes node) "" in
      let newNotes :=
        if truthy existingNotes
        then existingNotes +:+ String "010" (String "010" "📥 ") +:+ text
        else "📥 " +:+ text in
      let db1 := updateNode nodeId (notesUpdate newNotes now) (in_db st) in
      let db2 := markProcessed captureId db1 in
      let db3 :=
        addEvent {| event_id := uuid (in_next st); event_nodeId := nodeId;
                    event_eventType := ev_note_updated; event_timestamp := now;
                    event_previousValue := None; event_newValue := Some text;
                    event_metadata := None |} db2 in
      {| in_db := addEvent (processedEvent (uuid (S (in_next st)))
                              [("action", "note"); ("targetNodeId", nodeId)]) db3;
         in_captures := filter (λ c, capture_id c ≠ captureId) (in_captures st);
         in_next := S (S (in_next st)) |}
  end.

Definition makeProblem (captureId nodeId text : string) (st : Inbox) : Inbox :=
  let db1 :=
    addProblem {| problem_id := uuid (in_next st); problem_machineNodeId := nodeId;
                  problem_title := text; problem_description := "";
                  problem_severity := ps_medium; problem_status := open;
                  problem_diagnosis := ""; problem_plan := "";
                  problem_createdAt := now; problem_resolvedAt := None |} (in_db st) in
  let db2 := markProcessed captureId db1 in
  let db3 :=
    addEvent {| event_id := uuid (S (in_next st)); event_nodeId := nodeId;
                event_eventType := ev_problem_logged; event_timestamp := now;
                event_previousValue := None; event_newValue := Some text;
                event_metadata := None |} db2 in
  {| in_db := addEvent (processedEvent (uuid (S (S (in_next st))))
                          [("action", "problem"); ("targetNodeId", nodeId)]) db3;
     in_captures := filter (λ c, capture_id c ≠ captureId) (in_captures st);
     in_next := S (S (S (in_next st))) |}.
End InboxHandlers.

(** ** Duplication: the clones of a subtree *)

(** During the duplication of a subtree with ids [ids] of the store [db]:
    the node table of [st] is that of [db] followed by clones, none of
    which has an id or a parent id in [ids]. *)
Definition extends (db : Db) (ids : list string) (st : CloneState) : Prop :=
  ∃ ns, nodes (c_db st) = nodes db ++ ns
        ∧ Forall (λ n, (node_id n ∉ ids) ∧ (node_parentId n ∉ ids)) ns.

(** [idMap.set(x, clone.id)] for each pair of a node id and its clone, in
    turn. *)
Definition setAll (pairs : list (string * MachineNode)) (m : gmap string string)
    : gmap string string :=
  foldl (λ m p, <[p.1 := node_id p.2]> m) m pairs.

(** [n'] is the clone that [cloneRecursive] makes of [node]: [cloneNode]
    with an identifier handed out at or after the [k]-th call of [uuid()]
    (the identifiers of the steps follow it). *)
Definition cloneOf (uuid : nat → string) (now : Z) (k : nat) (node n' : MachineNode)
    : Prop :=
  ∃ j, (k ≤ j)%nat ∧ n' = cloneNode uuid now node (uuid j) (node_parentId n') (S j).

(** [pairs] lists what a run of [cloneRecursive] under the new parent [p]
    cloned, each node id with its clone, in the order of the run: the
    first clone hangs under [p], every other one under the clone of the
    parent of its original. *)
Definition clonesOf (uuid : nat → string) (now : Z) (db : Db) (k : nat) (p : string)
    (pairs : list (string * MachineNode)) : Prop :=
  (∃ x n' rest, pairs = (x, n') :: rest ∧ node_parentId n' = p)
  ∧ (∀ x n', (x, n') ∈ pairs →
       ∃ node, getNode db x = Some node ∧ cloneOf uuid now k node n')
  ∧ (∀ y n', (y, n') ∈ tail pairs →
       ∃ node n_par, getNode db y = Some node
                     ∧ (node_parentId node, n_par) ∈ pairs
                     ∧ node_parentId n' = node_id n_par).

(** ** The steps of a procedure: what a renumbering keeps *)

(** Two steps that differ at most in their [order]. *)
Definition sameStep (a b : SopStep) : Prop :=
  step_id a = step_id b ∧ step_text a = step_text b ∧ step_done a = step_done b
  ∧ step_linkedNodeId a = step_linkedNodeId b.

(** A procedure with three steps. *)
Definition threeSteps : list SopStep :=
  [{| step_id := "s1"; step_text := "Call"; step_done := true;
      step_order := 0; step_linkedNodeId := None |};
   {| step_id := "s2"; step_text := "Mail"; step_done := false;
      step_order := 1; step_linkedNodeId := None |};
   {| step_id := "s3"; step_text := "Visit"; step_done := false;
      step_order := 2; step_linkedNodeId := None |}].

(** ** Column names: the keys that convert back *)

(** Every character of the key is an ASCII character. *)
Fixpoint asciiOnly (key : string) : bool :=
  match key with
  | EmptyString => true
  | String c rest => (nat_of_ascii c <? 128)%nat && asciiOnly rest
  end.

(** No underscore of the key stands right before a small letter. *)
Fixpoint noUnderscoreLower (key : string) : bool :=
  match key with
  | EmptyString => true
  | String c rest =>
      match rest with
      | String d _ => negb (Ascii.eqb c "_" && isLower d)
      | EmptyString => true
      end && noUnderscoreLower rest
  end.

(** The key has no capital letter. *)
Fixpoint noCapital (key : string) : bool :=
  match key with
  | EmptyString => true
  | String c rest => negb (isUpper c) && noCapital rest
  end.

(** ** Breadcrumbs: the trail as a chain of nodes *)

(** [{ id: node.id, label: node.label }] *)
Definition crumbOf (node : MachineNode) : BreadcrumbSegment :=
  {| seg_id := Some (node_id node); seg_label := node_label node |}.

(** Each node of the list is the row that the parent id of the next one
    names. *)
Definition ancestorChain (db : Db) (ns : list MachineNode) : Prop :=
  ∀ i p n, ns !! i = Some p → ns !! S i = Some n →
           node_parentId n ≠ "" ∧ getNode db (node_parentId n) = Some p.

(** ** Duplication: what a later delete of the duplicate finds *)

(** Every string by which a row of the store names a node: the ids and
    the parent ids of the nodes, the parent ids of the edges and the
    [machineNodeId] of the problems, victory conditions and status
    changes. *)
Definition nodeRefs (db : Db) : list string :=
  (node_id <$> nodes db)
  ++ (node_parentId <$> nodes db)
  ++ (edge_parentId <$> edges db)
  ++ (problem_machineNodeId <$> problems db)
  ++ (vc_machineNodeId <$> victoryConditions db)
  ++ (sc_machineNodeId <$> statusChanges db).

(** From [st] to [st'] the node table got rows whose ids are results of
    calls of [uuid()] made in between, in the order of the calls. *)
Definition indexed (uuid : nat → string) (st st' : CloneState) : Prop :=
  (c_next st ≤ c_next st')%nat
  ∧ ∃ ns js,
      nodes (c_db st') = nodes (c_db st) ++ ns
      ∧ (node_id <$> ns) = (uuid <$> js)
      ∧ StronglySorted lt js
      ∧ Forall (λ j, (c_next st ≤ j < c_next st')%nat) js.

(** Since [base], the edge and victory-condition tables of [st] only got
    rows owned by nodes that were added since [base]. *)
Definition ownedSince (base st : CloneState) : Prop :=
  ∃ ns es vs,
    nodes (c_db st) = nodes (c_db base) ++ ns
    ∧ edges (c_db st) = edges (c_db base) ++ es
    ∧ victoryConditions (c_db st) = victoryConditions (c_db base) ++ vs
    ∧ Forall (λ e, edge_parentId e ∈ node_id <$> ns) es
    ∧ Forall (λ v, vc_machineNodeId v ∈ node_id <$> ns) vs.

(** ** Duplication: the copies of the edges and victory conditions *)

(** What a clone keeps of an edge, with its owner: the endpoints go
    through the [idMap] and the id is new. *)
Definition edgeData (e : MachineEdge) : string * option string * EdgeRelationship :=
  (edge_parentId e, edge_label e, edge_relationship e).

(** What a clone keeps of a victory condition, with its owner; the id is
    new. *)
Definition vcData (v : VictoryCondition) : string * string * string * string * bool * Z :=
  (vc_machineNodeId v, vc_label v, vc_target v, vc_current v, vc_met v, vc_order v).

(** The rows of the store owned by the node [p.1], handed to its clone
    [p.2]. *)
Definition edgeCopies (db : Db) (p : string * MachineNode)
    : list (string * option string * EdgeRelationship) :=
  (λ e, (node_id p.2, edge_label e, edge_relationship e))
    <$> filter (λ e, edge_parentId e = p.1) (edges db).

Definition vcCopies (db : Db) (p : string * MachineNode)
    : list (string * string * string * string * bool * Z) :=
  (λ v, (node_id p.2, vc_label v, vc_target v, vc_current v, vc_met v, vc_order v))
    <$> filter (λ v, vc_machineNodeId v = p.1) (victoryConditions db).

(** During the duplication of a subtree with ids [ids] of the store [db]:
    the edge and victory-condition tables of [st] are those of [db]
    followed by rows that no node of [ids] owns. *)
Definition rowsExtend (db : Db) (ids : list string) (st : CloneState) : Prop :=
  ∃ es vs,
    edges (c_db st) = edges db ++ es
    ∧ victoryConditions (c_db st) = victoryConditions db ++ vs
    ∧ Forall (λ e, edge_parentId e ∉ ids) es
    ∧ Forall (λ v, vc_machineNodeId v ∉ ids) vs.

(** What a run adds to the two tables, given the pairs of the nodes it
    cloned: one copy of each row that a cloned node owns. *)
Definition copied (db : Db) (ids : list string) (st st' : CloneState)
    (pairs : list (string * MachineNode)) : Prop :=
  ∃ es vs,
    edges (c_db st') = edges (c_db st) ++ es
    ∧ victoryConditions (c_db st') = victoryConditions (c_db st) ++ vs
    ∧ Forall (λ e, edge_parentId e ∉ ids) es
    ∧ Forall (λ v, vc_machineNodeId v ∉ ids) vs
    ∧ edgeData <$> es ≡ₚ pairs ≫= edgeCopies db
    ∧ vcData <$> vs ≡ₚ pairs ≫= vcCopies db.

(** ** Duplication: the endpoints of a cloned edge *)

(** The endpoint [x] of an edge as its clone has it, when the [idMap] held
    the nodes [walked] at the time of the copy: the id of the clone of [x]
    for a node of [walked], and [x] itself otherwise. *)
Definition rewritten (idMap : gmap string string) (walked : list string) (x : string)
    : string :=
  if bool_decide (x ∈ walked) then default x (idMap !! x) else x.

(** In the run from [st] to [st'] that cloned [pairs], the edge [e] was
    cloned when the walk had cloned the pairs [ps1], which end with the
    subtree [Lz] of the level of [e]: the clone is made with the [idMap]
    of that moment and is owned by the clone [n'] of the level. *)
Definition clonedIn (uuid : nat → string) (db : Db) (st st' : CloneState)
    (pairs : list (string * MachineNode)) (e : MachineEdge) : Prop :=
  ∃ (ps1 ps2 : list (string * MachineNode)) (pre Lz : list string) (f : nat)
    (n' : MachineNode) (j : nat),
    pairs = ps1 ++ ps2
    ∧ ps1.*1 = pre ++ Lz
    ∧ subtree f db (edge_parentId e) = Some Lz
    ∧ (edge_parentId e, n') ∈ ps1
    ∧ edgeClone (uuid j) (node_id n') (setAll ps1 (c_idMap st)) e ∈ edges (c_db st').

(** ** Problems of a machine ([src/pages/Whiteboard.tsx], lines 525-533,
    607-634 and 1248-1258) *)

#[global] Instance ProblemSeverity_eq_dec : EqDecision ProblemSeverity.
Proof. solve_decision. Defined.

(** [Partial<Problem>]: the properties that an update carries.
    [resolvedAt] may be given as [null]. *)
Record ProblemUpdates := {
  pu_id : option string;
  pu_machineNodeId : option string;
  pu_title : option string;
  pu_description : option string;
  pu_severity : option ProblemSeverity;
  pu_status : option ProblemStatus;
  pu_diagnosis : option string;
  pu_plan : option string;
  pu_createdAt : option Z;
  pu_resolvedAt : option (option Z);
}.

Definition noProblemUpdates : ProblemUpdates :=
  {| pu_id := None; pu_machineNodeId := None; pu_title := None;
     pu_description := None; pu_severity := None; pu_status := None;
     pu_diagnosis := None; pu_plan := None; pu_createdAt := None;
     pu_resolvedAt := None |}.

(** [{ ...p, ...u }] *)
Definition applyProblemUpdates (p : Problem) (u : ProblemUpdates) : Problem :=
  {| problem_id := default (problem_id p) (pu_id u);
     problem_machineNodeId := default (problem_machineNodeId p) (pu_machineNodeId u);
     problem_title := default (problem_title p) (pu_title u);
     problem_description := default (problem_description p) (pu_description u);
     problem_severity := default (problem_severity p) (pu_severity u);
     problem_status := default (problem_status p) (pu_status u);
     problem_diagnosis := default (problem_diagnosis p) (pu_diagnosis u);
     problem_plan := default (problem_plan p) (pu_plan u);
     problem_createdAt := default (problem_createdAt p) (pu_createdAt u);
     problem_resolvedAt := default (problem_resolvedAt p) (pu_resolvedAt u) |}.

(** [db.problems.get(id)]: the row with that id, if any. *)
Definition getProblem (db : Db) (id : string) : option Problem :=
  head (filter (λ p, problem_id p = id) (problems db)).

(** [db.problems.update(id, u)] *)
Definition updateProblem (id : string) (u : ProblemUpdates) (db : Db) : Db :=
  {| nodes := nodes db; edges := edges db;
     problems := map (λ p, if bool_decide (problem_id p = id)
                           then applyProblemUpdates p u else p) (problems db);
     victoryConditions := victoryConditions db; statusChanges := statusChanges db;
     captures := captures db; events := events db |}.

(** The state of the whiteboard page that the problem handlers read and
    write: the store, the list [problems] of the page and the number of
    identifiers handed out. *)
Record ProblemsState := {
  ps_db : Db;
  ps_problems : list Problem;
  ps_next : nat;
}.

(** [PROBLEM_SEVERITY_ORDER] ([src/components/Collapsible.tsx], lines
    231-233) *)
Definition PROBLEM_SEVERITY_ORDER (s : ProblemSeverity) : Z :=
  match s with ps_critical => 0 | ps_high => 1 | ps_medium => 2 | ps_low => 3 end.

(** The string of a severity. *)
Definition severityName (s : ProblemSeverity) : string :=
  match s with
  | ps_critical => "critical" | ps_high => "high"
  | ps_medium => "medium" | ps_low => "low"
  end.

(** The comparator of [sortedProblems]: severity order, then oldest
    first. *)
Definition compareProblems (a b : Problem) : Z :=
  let sevDiff := PROBLEM_SEVERITY_ORDER (problem_severity a)
                 - PROBLEM_SEVERITY_ORDER (problem_severity b) in
  if bool_decide (sevDiff ≠ 0) then sevDiff
  else problem_createdAt a - problem_createdAt b.

(** [sortedProblems] of [MachineOpsPanel]; [severityFilter] is the empty
    string or the string of a severity. *)
Definition sortedProblems (severityFilter : string) (problems : list Problem)
    : list Problem :=
  sortBy compareProblems
    (filter (λ p, negb (truthy severityFilter)
                  || bool_decide (severityName (problem_severity p) = severityFilter))
            problems).

Section ProblemHandlers.
Variable uuid : nat → string.
Variable now : Z.

Definition handleUpdateProblem (id : string) (u : ProblemUpdates) (w : ProblemsState)
    : ProblemsState :=
  let existing := getProblem (ps_db w) id in
  let db1 := updateProblem id u (ps_db w) in
  let problems' := map (λ p, if bool_decide (problem_id p = id)
                             then applyProblemUpdates p u else p) (ps_problems w) in
  match existing with
  | Some ex =>
      let eventType :=
        if bool_decide (pu_status u = Some resolved)
        then ev_problem_resolved else ev_problem_updated in
      {| ps_db := addEvent {| event_id := uuid (ps_next w);
                              event_nodeId := problem_machineNodeId ex;
                              event_eventType := eventType; event_timestamp := now;
                              event_previousValue := None; event_newValue := None;
                              event_metadata := Some id |} db1;
         ps_problems := problems';
         ps_next := S (ps_next w) |}
  | None => {| ps_db := db1; ps_problems := problems'; ps_next := ps_next w |}
  end.

(** [save] of [ProblemCard], with the field [f] being edited and the text
    [ev] of the input. *)
Definition saveProblemField (problem : Problem) (f ev : string) (w : ProblemsState)
    : ProblemsState :=
  if bool_decide (f = "title") then
    handleUpdateProblem (problem_id problem)
      {| pu_id := None; pu_machineNodeId := None; pu_title := Some ev;
         pu_description := None; pu_severity := None; pu_status := None;
         pu_diagnosis := None; pu_plan := None; pu_createdAt := None;
         pu_resolvedAt := None |} w
  else if bool_decide (f = "diagnosis") then
    handleUpdateProblem (problem_id problem)
      {| pu_id := None; pu_machineNodeId := None; pu_title := None;
         pu_description := None; pu_severity := None;
         pu_status := Some (if truthy ev then diagnosing else open);
         pu_diagnosis := Some ev; pu_plan := None; pu_createdAt := None;
         pu_resolvedAt := None |} w
  else if bool_decide (f = "plan") then
    handleUpdateProblem (problem_id problem)
      {| pu_id := None; pu_machineNodeId := None; pu_title := None;
         pu_description := None; pu_severity := None;
         pu_status := Some (if truthy ev then planned else diagnosing);
         pu_diagnosis := None; pu_plan := Some ev; pu_createdAt := None;
         pu_resolvedAt := None |} w
  else w.

(** [onChange] of the status select of [ProblemCard]. *)
Definition selectProblemStatus (problem : Problem) (status : ProblemStatus)
    (w : ProblemsState) : ProblemsState :=
  handleUpdateProblem (problem_id problem)
    {| pu_id := None; pu_machineNodeId := None; pu_title := None;
       pu_description := None; pu_severity := None; pu_status := Some status;
       pu_diagnosis := None; pu_plan := None; pu_createdAt := None;
       pu_resolvedAt := Some (if bool_decide (status = resolved) then Some now else None) |}
    w.
End ProblemHandlers.

(** [a] may stand before [b] in the list of problems: a more severe
    problem first, and of two problems of the same severity the older
    one. *)
Definition problemBefore (a b : Problem) : Prop :=
  PROBLEM_SEVERITY_ORDER (problem_severity a) < PROBLEM_SEVERITY_ORDER (problem_severity b)
  ∨ (problem_severity a = problem_severity b
     ∧ problem_createdAt a <= problem_createdAt b).

(** The update that a handler of [ProblemCard] makes of the rows with the
    id of the card, and the event it logs. *)
Definition statusOfText (f ev : string) : ProblemStatus :=
  if bool_decide (f = "diagnosis") then (if truthy ev then diagnosing else open)
  else (if truthy ev then planned else diagnosing).

(** ** More sample data *)

(** A store on day 30: a root machine untouched since day 20 and a
    sub-machine that was set to blocked on day 20. *)
Definition stuckDb : Db :=
  {| nodes := [newNode "m1" "" machine "Sales" "running" (20 * day);
               newNode "m2" "m1" machine "Leads" "blocked" (29 * day)];
     edges := []; problems := []; victoryConditions := [];
     statusChanges := [{| sc_id := "s1"; sc_machineNodeId := "m2";
                          sc_fromStatusId := "running"; sc_toStatusId := "blocked";
                          sc_changedAt := 20 * day |}];
     captures := []; events := [] |}.

(** A store on day 10 whose only rows point at a node ["gone"] that no
    longer exists: an open problem of day 0 and an unmet victory
    condition. *)
Definition danglingProblem : Problem :=
  {| problem_id := "p1"; problem_machineNodeId := "gone";
     problem_title := "No replies"; problem_description := "";
     problem_severity := ps_medium; problem_status := open;
     problem_diagnosis := ""; problem_plan := "";
     problem_createdAt := 0; problem_resolvedAt := None |}.

Definition danglingDb : Db :=
  {| nodes := []; edges := [];
     problems := [danglingProblem];
     victoryConditions := [{| vc_id := "v1"; vc_machineNodeId := "gone";
                              vc_label := "10 calls a day"; vc_target := "10";
                              vc_current := "2"; vc_met := false; vc_order := 0 |}];
     statusChanges := []; captures := []; events := [] |}.

(** The inbox page on [scanDb], just loaded: its list holds the one
    unprocessed capture of the store. *)
Definition scanInbox : Inbox :=
  {| in_db := scanDb; in_captures := captures scanDb; in_next := 0 |}.

(** A stand-in for [JSON.stringify] in the examples. *)
Definition sampleStringify (props : list (string * string)) : string := "{}".

(** Root machine [m] with child [x], an edge on the canvas of [m] and a
    victory condition of [x] that is met. *)
Definition salesM : MachineNode := newNode "m" "" machine "Sales" "running" 0.

Definition goalDb : Db :=
  {| nodes := [salesM; newNode "x" "m" machine "Leads" "running" 0];
     edges := [{| edge_id := "e1"; edge_parentId := "m"; edge_source := "x";
                  edge_target := "x"; edge_label := None;
                  edge_relationship := feeds |}];
     problems := [];
     victoryConditions := [{| vc_id := "v1"; vc_machineNodeId := "x";
                              vc_label := "10 calls a day"; vc_target := "10";
                              vc_current := "12"; vc_met := true; vc_order := 0 |}];
     statusChanges := []; captures := []; events := [] |}.

(** The page of machine [m] with one problem that was resolved on day 5. *)
Definition resolvedProblem : Problem :=
  {| problem_id := "p1"; problem_machineNodeId := "m";
     problem_title := "No replies"; problem_description := "";
     problem_severity := ps_high; problem_status := resolved;
     problem_diagnosis := ""; problem_plan := "";
     problem_createdAt := 0; problem_resolvedAt := Some (5 * day) |}.

Definition resolvedState : ProblemsState :=
  {| ps_db := {| nodes := [salesM]; edges := []; problems := [resolvedProblem];
                 victoryConditions := []; statusChanges := []; captures := [];
                 events := [] |};
     ps_problems := [resolvedProblem];
     ps_next := 0 |}.

(** Root machine [m] with the children [c1] and [c2], in this order.  One
    edge is on the canvas of [m], between its two children; the other is
    owned by [c1] and goes from [c1] to [c2], which the walk reaches only
    after the edges of [c1]. *)
Definition siblingEdgeDb : Db :=
  {| nodes := [salesM; newNode "c1" "m" machine "Leads" "running" 0;
               newNode "c2" "m" machine "Calls" "running" 0];
     edges := [{| edge_id := "e1"; edge_parentId := "m"; edge_source := "c1";
                  edge_target := "c2"; edge_label := None;
                  edge_relationship := feeds |};
               {| edge_id := "e2"; edge_parentId := "c1"; edge_source := "c1";
                  edge_target := "c2"; edge_label := None;
                  edge_relationship := depends |}];
     problems := []; victoryConditions := []; statusChanges := [];
     captures := []; events := [] |}.

(** * Properties *)

(** ** Severity classifier *)

Lemma getSeverity_cases days th :
  (critical th <= days ∧ getSeverity days th = sev_critical)
  ∨ (days < critical th ∧ red th <= days ∧ getSeverity days th = sev_red)
  ∨ (days < critical th ∧ days < red th ∧ amber th <= days
     ∧ getSeverity days th = sev_amber)
  ∨ (days < critical th ∧ days < red th ∧ days < amber th
     ∧ getSeverity days th = sev_normal).
Proof.
  unfold getSeverity.
  repeat case_bool_decide; intuition lia.
Qed.

(** C5.  [getSeverity] is a total function that returns the highest tier
    whose cutoff the age reaches, and [normal] exactly when the age reaches
    no cutoff; with the thresholds 3/7/14 it sends 2, 3, 7, 14 and 20 to
    normal, amber, red, critical and critical. *)
Theorem getSeverity_highest_tier (days : Z) (th : Thresholds) :
  (∀ s, meets th days s → (tier s ≤ tier (getSeverity days th))%nat)
  ∧ (getSeverity days th ≠ sev_normal → meets th days (getSeverity days th))
  ∧ (getSeverity days th = sev_normal ↔ ∀ s, ¬ meets th days s)
  ∧ getSeverity 2 {| amber := 3; red := 7; critical := 14 |} = sev_normal
  ∧ getSeverity 3 {| amber := 3; red := 7; critical := 14 |} = sev_amber
  ∧ getSeverity 7 {| amber := 3; red := 7; critical := 14 |} = sev_red
  ∧ getSeverity 14 {| amber := 3; red := 7; critical := 14 |} = sev_critical
  ∧ getSeverity 20 {| amber := 3; red := 7; critical := 14 |} = sev_critical.
Proof.
  split_and!; try reflexivity.
  - intros s [c [Hc Hle]].
    destruct (getSeverity_cases days th)
      as [(?&->)|[(?&?&->)|[(?&?&?&->)|(?&?&?&->)]]];
      destruct s; simpl in *; simplify_eq; lia.
  - destruct (getSeverity_cases days th)
      as [(?&->)|[(?&?&->)|[(?&?&?&->)|(?&?&?&->)]]];
      intros Hn; try done; eexists; (split; [reflexivity|]); simpl; lia.
  - split.
    + intros Hn s [c [Hc Hle]].
      destruct (getSeverity_cases days th)
        as [(?&Hg)|[(?&?&Hg)|[(?&?&?&Hg)|(?&?&?&Hg)]]];
        rewrite Hg in Hn; try done; destruct s; simpl in *; simplify_eq; lia.
    + intros Hall.
      destruct (getSeverity_cases days th)
        as [(?&Hg)|[(?&?&Hg)|[(?&?&?&Hg)|(?&?&?&Hg)]]]; try done; exfalso.
      * apply (Hall sev_critical). eexists; split; [reflexivity|]. simpl; lia.
      * apply (Hall sev_red). eexists; split; [reflexivity|]. simpl; lia.
      * apply (Hall sev_amber). eexists; split; [reflexivity|]. simpl; lia.
Qed.

Lemma getSeverity_highest_tier_witness :
  (tier sev_amber ≤ tier (getSeverity 5 ATTENTION_THRESHOLDS.problem))%nat.
Proof.
  destruct (getSeverity_highest_tier 5 ATTENTION_THRESHOLDS.problem) as [Hmax _].
  apply Hmax. exists 3. split; [reflexivity|lia].
Defined.

(** ** The stable sort *)

Section sortBy_facts.
Context {A : Type} (cmp : A → A → Z).

Lemma insertBy_perm x l : insertBy cmp x l ≡ₚ x :: l.
Proof.
  induction l as [|y l IH]; simpl; [done|].
  case_bool_decide; [|done].
  rewrite IH. apply Permutation_swap.
Qed.

Lemma sortBy_perm l : sortBy cmp l ≡ₚ l.
Proof.
  induction l as [|x l IH]; simpl; [done|].
  rewrite insertBy_perm. by rewrite IH.
Qed.

(** Insertion does not reorder the members of a class of elements that
    the comparator does not separate. *)
Lemma insertBy_filter (P : A → Prop) `{∀ x, Decision (P x)} x l :
  (∀ y, P x → P y → cmp x y <= 0) →
  filter P (insertBy cmp x l) = filter P (x :: l).
Proof.
  intros Heq. induction l as [|y l IH]; simpl; [done|].
  case_bool_decide as Hgt; [|done].
  rewrite filter_cons, IH, !filter_cons.
  destruct (decide (P y)) as [Hy|]; [|done].
  destruct (decide (P x)) as [Hx|]; [|done].
  specialize (Heq y Hx Hy). lia.
Qed.

Lemma sortBy_stable (P : A → Prop) `{∀ x, Decision (P x)} l :
  (∀ x y, P x → P y → cmp x y <= 0) →
  filter P (sortBy cmp l) = filter P l.
Proof.
  intros Heq. induction l as [|x l IH]; simpl; [done|].
  rewrite insertBy_filter by eauto.
  by rewrite !filter_cons, IH.
Qed.

Hypothesis cmp_total : ∀ x y, cmp x y > 0 → cmp y x <= 0.
Hypothesis cmp_trans : ∀ x y z, cmp x y <= 0 → cmp y z <= 0 → cmp x z <= 0.

Lemma insertBy_sorted x l :
  StronglySorted (λ a b, cmp a b <= 0) l →
  StronglySorted (λ a b, cmp a b <= 0) (insertBy cmp x l).
Proof.
  induction 1 as [|y l Hs IH Hall]; simpl.
  - repeat constructor.
  - case_bool_decide as Hgt.
    + constructor; [done|].
      rewrite insertBy_perm. constructor; [by apply cmp_total|done].
    + constructor; [by constructor|].
      constructor; [lia|].
      eapply Forall_impl; [exact Hall|].
      intros z Hz. simpl in Hz. eapply cmp_trans; [|exact Hz]. lia.
Qed.

Lemma sortBy_sorted l : StronglySorted (λ a b, cmp a b <= 0) (sortBy cmp l).
Proof.
  induction l as [|x l IH]; simpl; [constructor|].
  by apply insertBy_sorted.
Qed.
End sortBy_facts.

(** ** Attention scan *)

Lemma compareItems_le a b :
  compareItems a b <= 0 ↔
  severityOrder (item_severity a) < severityOrder (item_severity b)
  ∨ (item_severity a = item_severity b ∧ item_ageDays b <= item_ageDays a).
Proof.
  unfold compareItems. case_bool_decide as Hso.
  - split; [intros; left; lia|].
    intros [?|[Heq _]]; [lia|]. rewrite Heq in Hso. lia.
  - split.
    + intros. right. split; [|lia].
      destruct (item_severity a), (item_severity b); simpl in *; try done; lia.
    + intros [?|[_ ?]]; lia.
Qed.

Lemma compareItems_total a b : compareItems a b > 0 → compareItems b a <= 0.
Proof.
  unfold compareItems. repeat case_bool_decide; lia.
Qed.

Lemma compareItems_trans a b c :
  compareItems a b <= 0 → compareItems b c <= 0 → compareItems a c <= 0.
Proof.
  rewrite !compareItems_le.
  intros [?|[Hab ?]] [?|[Hbc ?]].
  - left; lia.
  - left. rewrite <- Hbc. done.
  - left. rewrite Hab. done.
  - right. split; [congruence|lia].
Qed.

Lemma forEach_Forall {A B} (P : B → Prop) (body : A → option (list B)) l out :
  (∀ x r, body x = Some r → Forall P r) →
  forEach body l = Some out → Forall P out.
Proof.
  intros Hbody. revert out.
  induction l as [|x l IH]; simpl; intros out Hout.
  - by simplify_eq.
  - destruct (body x) as [r|] eqn:Hr; simpl in Hout; [|done].
    destruct (forEach body l) as [rs|] eqn:Hrs; simpl in Hout; [|done].
    simplify_eq. apply Forall_app. eauto.
Qed.


Lemma staleProblemItem_flagged fuel now db p r :
  staleProblemItem fuel now db p = Some r → Forall flagged r.
Proof.
  unfold staleProblemItem. case_bool_decide as Hs; intros Hr.
  - simplify_eq. constructor.
  - destruct (findRootMachine _ _ _); simpl in Hr; simplify_eq.
    repeat constructor. exact Hs.
Qed.

Lemma blockedMachineItem_flagged fuel now db n r :
  blockedMachineItem fuel now db n = Some r → Forall flagged r.
Proof.
  unfold blockedMachineItem. case_bool_decide as Hs; intros Hr.
  - simplify_eq. constructor.
  - destruct (findRootMachine _ _ _); simpl in Hr; simplify_eq.
    repeat constructor. exact Hs.
Qed.

Lemma unmetVCItem_flagged fuel now db v r :
  unmetVCItem fuel now db v = Some r → Forall flagged r.
Proof.
  unfold unmetVCItem. destruct (_ !! _) as [node|]; [|intros; simplify_eq; constructor].
  case_bool_decide as Hs; intros Hr.
  - simplify_eq. constructor.
  - destruct (findRootMachine _ _ _); simpl in Hr; simplify_eq.
    repeat constructor. exact Hs.
Qed.

Lemma staleNodes_flagged now db : Forall flagged (staleNodes now db).
Proof.
  unfold staleNodes. apply Forall_concat, Forall_map, Forall_forall.
  intros n _. unfold staleNodeItem.
  repeat case_bool_decide; repeat constructor; done.
Qed.

Lemma agingCaptures_flagged now db : Forall flagged (agingCaptures now db).
Proof.
  unfold agingCaptures. destruct (map _ _) as [|a ages]; [constructor|].
  case_bool_decide; repeat constructor; done.
Qed.

Lemma detected_flagged fuel now db results :
  detected fuel now db = Some results → Forall flagged results.
Proof.
  unfold detected. intros H.
  destruct (staleProblems fuel now db) as [r1|] eqn:H1; simpl in H; [|done].
  destruct (blockedMachines fuel now db) as [r2|] eqn:H2; simpl in H; [|done].
  destruct (unmetVCs fuel now db) as [r3|] eqn:H3; simpl in H; [|done].
  simplify_eq. rewrite !Forall_app. split_and!.
  - eapply forEach_Forall; [|exact H1]. apply staleProblemItem_flagged.
  - eapply forEach_Forall; [|exact H2]. apply blockedMachineItem_flagged.
  - eapply forEach_Forall; [|exact H3]. apply unmetVCItem_flagged.
  - apply staleNodes_flagged.
  - apply agingCaptures_flagged.
Qed.

Lemma forEach_elem_of {A B} (body : A → option (list B)) l out y :
  forEach body l = Some out → y ∈ out → ∃ x r, x ∈ l ∧ body x = Some r ∧ y ∈ r.
Proof.
  revert out. induction l as [|x l IH]; simpl; intros out Hout Hy.
  - simplify_eq. by apply elem_of_nil in Hy.
  - destruct (body x) as [r|] eqn:Hr; simpl in Hout; [|done].
    destruct (forEach body l) as [rs|] eqn:Hrs; simpl in Hout; [|done].
    simplify_eq. apply elem_of_app in Hy as [Hy|Hy].
    + exists x, r. split_and!; [left|done|done].
    + destruct (IH rs eq_refl Hy) as (x' & r' & ? & ? & ?).
      exists x', r'. split_and!; [by right|done|done].
Qed.

Lemma rankedBefore_compare a b : rankedBefore a b ↔ compareItems a b <= 0.
Proof. unfold rankedBefore. by rewrite compareItems_le. Qed.

(** C6.  Whenever the scan returns, its output is the list of the items
    the five detectors pushed, none of severity normal, stably sorted:
    by severity (critical, red, amber), then by age, oldest first, and
    items of one severity and one age keep the order in which they were
    pushed.  The sort puts red/5, critical/1, amber/30 in the order
    critical/1, red/5, amber/30. *)
Theorem runScan_ranked (fuel : nat) (now : Z) (db : Db) (out : list AttentionItem) :
  runScan fuel now db = Some out →
  (∃ results, detected fuel now db = Some results
     ∧ out ≡ₚ results
     ∧ ∀ s age, filter (sameRank s age) out = filter (sameRank s age) results)
  ∧ Forall flagged out
  ∧ StronglySorted rankedBefore out
  ∧ sortBy compareItems
      [sampleItem sev_red 5; sampleItem sev_critical 1; sampleItem sev_amber 30]
    = [sampleItem sev_critical 1; sampleItem sev_red 5; sampleItem sev_amber 30].
Proof.
  unfold runScan. intros Hrun.
  destruct (detected fuel now db) as [results|] eqn:Hdet; simpl in Hrun; [|done].
  injection Hrun as <-.
  split_and!.
  - exists results. split_and!; [done|apply sortBy_perm|].
    intros s age. apply sortBy_stable.
    intros x y [Hx1 Hx2] [Hy1 Hy2]. apply rankedBefore_compare.
    right. split; [congruence|lia].
  - rewrite sortBy_perm. by eapply detected_flagged.
  - eapply StronglySorted_ind with (P := StronglySorted rankedBefore);
      [constructor| |apply (sortBy_sorted compareItems
                              compareItems_total compareItems_trans results)].
    intros a l _ IH Hall. constructor; [done|].
    eapply Forall_impl; [exact Hall|]. intros b. apply rankedBefore_compare.
  - reflexivity.
Qed.

Lemma runScan_ranked_witness :
  ∃ out, runScan 3 (30 * day) scanDb = Some out
         ∧ map (λ it, (item_id it, item_severity it, item_ageDays it)) out
           = [("prob-p1", sev_critical, 20); ("captures", sev_red, 2);
              ("stale-m1", sev_amber, 10)]
         ∧ StronglySorted rankedBefore out.
Proof.
  eexists. split; [vm_compute; reflexivity|].
  split; [reflexivity|].
  eapply (runScan_ranked 3 (30 * day) scanDb). vm_compute; reflexivity.
Defined.

(** ** Detector 4: stale root machines *)

Lemma staleNodeItem_elem now n it :
  it ∈ staleNodeItem now n ↔
  getSeverity (daysSince now (node_updatedAt n)) ATTENTION_THRESHOLDS.staleness ≠ sev_normal
  ∧ node_statusId n ≠ "blocked"
  ∧ staleNodeItem now n = [it].
Proof.
  unfold staleNodeItem.
  case_bool_decide as Hs.
  { split; [by intros ?%elem_of_nil|by intros (? & ? & ?)]. }
  case_bool_decide as Hb.
  { split; [by intros ?%elem_of_nil|by intros (? & ? & ?)]. }
  split.
  - intros ->%list_elem_of_singleton. done.
  - intros (_ & _ & [= <-]). by left.
Qed.

Lemma staleNodeItem_type now n it : it ∈ staleNodeItem now n → item_type it = stale_node.
Proof.
  unfold staleNodeItem. repeat case_bool_decide; try by intros ?%elem_of_nil.
  by intros ->%list_elem_of_singleton.
Qed.

Lemma staleNodes_elem now db it :
  it ∈ staleNodes now db ↔
  ∃ n, n ∈ nodes db ∧ node_parentId n = "" ∧ node_type n = machine
       ∧ getSeverity (daysSince now (node_updatedAt n)) ATTENTION_THRESHOLDS.staleness
         ≠ sev_normal
       ∧ node_statusId n ≠ "blocked"
       ∧ staleNodeItem now n = [it].
Proof.
  unfold staleNodes. rewrite list_elem_of_In, in_concat. split.
  - intros (l & Hl & Hit). apply in_map_iff in Hl as (n & <- & Hn).
    apply list_elem_of_In, list_elem_of_filter in Hn as [[Hp Ht] Hn].
    apply list_elem_of_In, staleNodeItem_elem in Hit as (? & ? & ?). by exists n.
  - intros (n & Hn & Hp & Ht & Hs & Hb & Hit).
    exists [it]. split; [|by left].
    apply in_map_iff. exists n. split; [done|].
    apply list_elem_of_In, list_elem_of_filter. done.
Qed.

Lemma other_detectors_type fuel now db r1 r2 r3 it :
  staleProblems fuel now db = Some r1 →
  blockedMachines fuel now db = Some r2 →
  unmetVCs fuel now db = Some r3 →
  it ∈ r1 ++ r2 ++ r3 ++ agingCaptures now db → item_type it ≠ stale_node.
Proof.
  intros H1 H2 H3. rewrite !elem_of_app. intros [Hit|[Hit|[Hit|Hit]]].
  - destruct (forEach_elem_of _ _ _ _ H1 Hit) as (p & r & _ & Hr & Hin).
    unfold staleProblemItem in Hr. case_bool_decide.
    + simplify_eq. by apply elem_of_nil in Hin.
    + destruct (findRootMachine _ _ _); simpl in Hr; simplify_eq.
      by apply list_elem_of_singleton in Hin as ->.
  - destruct (forEach_elem_of _ _ _ _ H2 Hit) as (p & r & _ & Hr & Hin).
    unfold blockedMachineItem in Hr. case_bool_decide.
    + simplify_eq. by apply elem_of_nil in Hin.
    + destruct (findRootMachine _ _ _); simpl in Hr; simplify_eq.
      by apply list_elem_of_singleton in Hin as ->.
  - destruct (forEach_elem_of _ _ _ _ H3 Hit) as (p & r & _ & Hr & Hin).
    unfold unmetVCItem in Hr. destruct (_ !! _).
    2:{ simplify_eq. by apply elem_of_nil in Hin. }
    case_bool_decide.
    + simplify_eq. by apply elem_of_nil in Hin.
    + destruct (findRootMachine _ _ _); simpl in Hr; simplify_eq.
      by apply list_elem_of_singleton in Hin as ->.
  - unfold agingCaptures in Hit. destruct (map _ _); [by apply elem_of_nil in Hit|].
    case_bool_decide; [|by apply elem_of_nil in Hit].
    by apply list_elem_of_singleton in Hit as ->.
Qed.

(** An eligible machine yields its item. *)
Lemma staleNodeItem_eligible now n :
  getSeverity (daysSince now (node_updatedAt n)) ATTENTION_THRESHOLDS.staleness ≠ sev_normal →
  node_statusId n ≠ "blocked" →
  staleNodeItem now n
  = [{| item_id := "stale-" +:+ node_id n;
        item_type := stale_node;
        item_title := node_label n;
        item_subtitle := "No activity for "
                         +:+ pretty (daysSince now (node_updatedAt n)) +:+ "d";
        item_nodeId := node_id n;
        item_machineId := node_id n;
        item_severity := getSeverity (daysSince now (node_updatedAt n))
                           ATTENTION_THRESHOLDS.staleness;
        item_ageDays := daysSince now (node_updatedAt n);
        item_link := machineLink (node_id n) |}].
Proof.
  intros Hs Hb. unfold staleNodeItem.
  by rewrite !bool_decide_eq_false_2.
Qed.

(** C7, as the code has it.  The stale-node items of the feed are exactly
    the items of the top-level machines whose staleness severity is above
    normal and whose status is not blocked: every such machine has its
    item in the feed (id, title, age, severity and link as the detector
    builds them), every stale-node item of the feed is the item of such a
    machine, and the detector leaves out every blocked machine, whether or
    not the blocked-machines detector pushed an item for it. *)
Theorem runScan_stale_nodes (fuel : nat) (now : Z) (db : Db) (out : list AttentionItem) :
  runScan fuel now db = Some out →
  (∀ it, it ∈ out ∧ item_type it = stale_node ↔
     ∃ n, n ∈ nodes db ∧ node_parentId n = "" ∧ node_type n = machine
          ∧ getSeverity (daysSince now (node_updatedAt n))
              ATTENTION_THRESHOLDS.staleness ≠ sev_normal
          ∧ node_statusId n ≠ "blocked"
          ∧ it = {| item_id := "stale-" +:+ node_id n;
                    item_type := stale_node;
                    item_title := node_label n;
                    item_subtitle := "No activity for "
                      +:+ pretty (daysSince now (node_updatedAt n)) +:+ "d";
                    item_nodeId := node_id n;
                    item_machineId := node_id n;
                    item_severity := getSeverity (daysSince now (node_updatedAt n))
                                       ATTENTION_THRESHOLDS.staleness;
                    item_ageDays := daysSince now (node_updatedAt n);
                    item_link := machineLink (node_id n) |})
  ∧ (NoDup (node_id <$> nodes db) →
     ∀ n it, n ∈ nodes db → node_statusId n = "blocked" → it ∈ out →
             item_type it = stale_node → item_nodeId it ≠ node_id n)
  ∧ (∀ n, node_statusId n = "blocked" → staleNodeItem now n = []).
Proof.
  unfold runScan, detected. intros Hrun.
  destruct (staleProblems fuel now db) as [r1|] eqn:H1; simpl in Hrun; [|done].
  destruct (blockedMachines fuel now db) as [r2|] eqn:H2; simpl in Hrun; [|done].
  destruct (unmetVCs fuel now db) as [r3|] eqn:H3; simpl in Hrun; [|done].
  injection Hrun as <-.
  assert (Hiff : ∀ it,
    it ∈ sortBy compareItems (r1 ++ r2 ++ r3 ++ staleNodes now db ++ agingCaptures now db)
    ∧ item_type it = stale_node ↔ it ∈ staleNodes now db).
  { intros it. rewrite sortBy_perm. split.
    - intros [Hin Hty].
      rewrite !elem_of_app in Hin. destruct Hin as [Hin|[Hin|[Hin|[Hin|Hin]]]]; [..|done| ];
        exfalso; eapply (other_detectors_type fuel now db r1 r2 r3 it); try done;
        rewrite !elem_of_app; auto.
    - intros Hin. split.
      + rewrite !elem_of_app. auto.
      + apply staleNodes_elem in Hin as (n & _ & _ & _ & _ & _ & Hit).
        apply (staleNodeItem_type now n). rewrite Hit. by left. }
  assert (Hitem : ∀ it,
    it ∈ staleNodes now db ↔
    ∃ n, n ∈ nodes db ∧ node_parentId n = "" ∧ node_type n = machine
         ∧ getSeverity (daysSince now (node_updatedAt n))
             ATTENTION_THRESHOLDS.staleness ≠ sev_normal
         ∧ node_statusId n ≠ "blocked"
         ∧ it = {| item_id := "stale-" +:+ node_id n;
                   item_type := stale_node;
                   item_title := node_label n;
                   item_subtitle := "No activity for "
                     +:+ pretty (daysSince now (node_updatedAt n)) +:+ "d";
                   item_nodeId := node_id n;
                   item_machineId := node_id n;
                   item_severity := getSeverity (daysSince now (node_updatedAt n))
                                      ATTENTION_THRESHOLDS.staleness;
                   item_ageDays := daysSince now (node_updatedAt n);
                   item_link := machineLink (node_id n) |}).
  { intros it. rewrite staleNodes_elem. split.
    - intros (n & Hn & Hp & Ht & Hs & Hb & Hit). exists n. split_and!; try done.
      rewrite (staleNodeItem_eligible now n Hs Hb) in Hit. by injection Hit as <-.
    - intros (n & Hn & Hp & Ht & Hs & Hb & ->). exists n. split_and!; try done.
      by apply staleNodeItem_eligible. }
  split_and!.
  - intros it. by rewrite Hiff, Hitem.
  - intros Hnd n it Hn Hb Hin Hty Heq.
    assert (Hst : it ∈ staleNodes now db) by (apply Hiff; by split).
    apply Hitem in Hst as (n' & Hn' & _ & _ & _ & Hb' & ->). simpl in Heq.
    assert (n' = n) as ->; [|done].
    apply list_elem_of_lookup in Hn as [i Hi]. apply list_elem_of_lookup in Hn' as [i' Hi'].
    assert (i' = i) as ->; [|congruence].
    eapply (NoDup_lookup _ _ _ _ Hnd); rewrite list_lookup_fmap.
    + by rewrite Hi'.
    + rewrite Hi. simpl. by rewrite Heq.
  - intros n Hb. unfold staleNodeItem. by repeat case_bool_decide.
Qed.

Lemma runScan_stale_nodes_witness :
  ∃ out, runScan 3 (30 * day) scanDb = Some out
         ∧ {| item_id := "stale-m1"; item_type := stale_node;
              item_title := "Sales"; item_subtitle := "No activity for 10d";
              item_nodeId := "m1"; item_machineId := "m1";
              item_severity := sev_amber; item_ageDays := 10;
              item_link := "/machine/m1?parent=m1" |} ∈ out.
Proof.
  destruct (runScan 3 (30 * day) scanDb) as [out|] eqn:Hrun;
    [|vm_compute in Hrun; discriminate].
  exists out. split; [done|].
  destruct (runScan_stale_nodes 3 (30 * day) scanDb out Hrun) as (Hiff & _).
  apply (Hiff _). exists (newNode "m1" "" machine "Sales" "running" (20 * day)).
  split_and!; first [done | by left | (vm_compute; discriminate)].
Defined.

(** C7, as stated, fails on [blockedDb] on day 10.  The root machine is
    stale (10 days, amber) and the blocked-machines detector dropped it
    (blocked for 1 day, normal), so it was not flagged by that detector;
    yet the feed is empty: no stale-node item is pushed for it. *)
Lemma stale_root_blocked_counterexample :
  blockedRoot ∈ nodes blockedDb
  ∧ node_parentId blockedRoot = "" ∧ node_type blockedRoot = machine
  ∧ getSeverity (daysSince (10 * day) (node_updatedAt blockedRoot))
      ATTENTION_THRESHOLDS.staleness = sev_amber
  ∧ blockedMachineItem 3 (10 * day) blockedDb blockedRoot = Some []
  ∧ runScan 3 (10 * day) blockedDb = Some []
  ∧ ¬ (∀ out, runScan 3 (10 * day) blockedDb = Some out →
         (∀ it, it ∈ out → ¬ (item_type it = blocked_machine
                              ∧ item_nodeId it = node_id blockedRoot)) →
         ∃ it, it ∈ out ∧ item_type it = stale_node
               ∧ item_nodeId it = node_id blockedRoot).
Proof.
  split_and!; try (vm_compute; reflexivity).
  - by left.
  - intros Hclaim.
    destruct (Hclaim [] ltac:(vm_compute; reflexivity)) as (it & Hin & _).
    + intros it Hin. by apply elem_of_nil in Hin.
    + by apply elem_of_nil in Hin.
Qed.

(** ** History tracker *)

Lemma sliceInit_snoc {A} (l : list A) x : sliceInit (l ++ [x]) = l.
Proof.
  unfold sliceInit. rewrite length_app. simpl.
  replace (length l + 1 - 1)%nat with (length l) by lia.
  by rewrite take_app_length.
Qed.

Lemma sliceInit_last {A} (l : list A) x : last l = Some x → sliceInit l ++ [x] = l.
Proof.
  intros Hl. destruct (last_Some l x) as [[l' ->] _]; [done|].
  by rewrite sliceInit_snoc.
Qed.

Lemma sliceLast_snoc {A} (k : nat) (l : list A) x :
  sliceLast k l ++ [x] = sliceLast (S k) (l ++ [x]).
Proof.
  unfold sliceLast. rewrite length_app. simpl.
  replace (length l + 1 - S k)%nat with (length l - k)%nat by lia.
  rewrite drop_app_le by lia. done.
Qed.

Lemma sliceLast_app_sliceLast {A} (k : nat) (p r : list A) :
  r ≠ [] → sliceLast (S k) (sliceLast k p ++ r) = sliceLast (S k) (p ++ r).
Proof.
  intros Hr. unfold sliceLast.
  assert (0 < length r)%nat by (destruct r; simpl; [done|lia]).
  rewrite !length_app, length_drop.
  destruct (decide (length p ≤ k)%nat) as [Hle|Hgt].
  - replace (length p - k)%nat with 0%nat by lia. simpl.
    by replace (length p - 0)%nat with (length p) by lia.
  - replace (length p + length r - S k)%nat
      with ((length p - k) + (length r - 1))%nat by lia.
    rewrite <- drop_drop, (drop_app_le p) by lia.
    f_equal. lia.
Qed.

Lemma takeSnapshot_records h :
  isUndoRedo h = false → lastSaved h ≠ Some (fingerprint (flow h)) →
  takeSnapshot h =
    {| flow := flow h;
       past := sliceLast (MAX_HISTORY - 1) (past h) ++ [flow h];
       future := [];
       isUndoRedo := false;
       lastSaved := Some (fingerprint (flow h)) |}.
Proof.
  intros Hflag Hkey. unfold takeSnapshot. rewrite Hflag.
  case_bool_decide; [congruence|done].
Qed.

Lemma undo_empty h : past h = [] → undo h = h.
Proof. intros Hp. unfold undo. by rewrite Hp. Qed.

Lemma undo_takeSnapshot h s :
  isUndoRedo h = false → lastSaved h ≠ Some (fingerprint (flow h)) →
  flow (undo (setFlow s (takeSnapshot h))) = flow h.
Proof.
  intros Hflag Hkey. rewrite takeSnapshot_records by done.
  unfold undo, setFlow. simpl. by rewrite last_snoc.
Qed.

Lemma redo_undo h :
  past h ≠ [] →
  redo (undo h) =
    {| flow := flow h; past := past h; future := future h;
       isUndoRedo := true; lastSaved := lastSaved h |}.
Proof.
  intros Hp. unfold undo.
  destruct (last (past h)) as [prev|] eqn:Hlast.
  2:{ apply last_None in Hlast. done. }
  unfold redo. simpl. rewrite last_snoc, sliceInit_snoc.
  by rewrite (sliceInit_last _ _ Hlast).
Qed.

Lemma pushSnapshots_cons s l h :
  pushSnapshots (s :: l) h = pushSnapshots l (takeSnapshot (setFlow s h)).
Proof. reflexivity. Qed.

Lemma pushSnapshots_past l : ∀ s h,
  isUndoRedo h = false → distinctFrom (lastSaved h) (s :: l) →
  past (pushSnapshots (s :: l) h) = sliceLast MAX_HISTORY (past h ++ s :: l).
Proof.
  induction l as [|s2 l IH]; intros s h Hflag [Hs Hl].
  - simpl. rewrite takeSnapshot_records by done. simpl.
    apply sliceLast_snoc.
  - rewrite pushSnapshots_cons.
    assert (Hrec := takeSnapshot_records (setFlow s h) Hflag Hs).
    simpl in Hrec. rewrite IH; rewrite Hrec; simpl; [|done|done].
    rewrite <- app_assoc. change ([s] ++ s2 :: l) with (s :: s2 :: l).
    by apply (sliceLast_app_sliceLast (MAX_HISTORY - 1)).
Qed.

Lemma pushSnapshots_overflow l h :
  isUndoRedo h = false → length l = S MAX_HISTORY → distinctFrom (lastSaved h) l →
  past (pushSnapshots l h) = drop 1 l.
Proof.
  intros Hflag Hlen Hd. destruct l as [|s l]; [done|].
  rewrite pushSnapshots_past by done.
  unfold sliceLast. rewrite length_app, Hlen.
  replace (length (past h) + S MAX_HISTORY - MAX_HISTORY)%nat
    with (length (past h) + 1)%nat by lia.
  by rewrite drop_app_add.
Qed.

(** C9, as the code has it.  [undo] does nothing when [past] is empty.
    When [takeSnapshot] records (no replay in progress, and the
    fingerprint differs from the last recorded one), an [undo] after it,
    with or without a change of the canvas in between, restores the state
    of the snapshot.  When [past] is not empty, [undo] then [redo]
    restores the state, and both stacks, of before the [undo].  Fifty-one
    snapshots, each with a fingerprint different from the one before,
    leave in [past] the last fifty of them: the oldest is evicted. *)
Theorem history_laws (h : History) :
  (past h = [] → undo h = h)
  ∧ (isUndoRedo h = false → lastSaved h ≠ Some (fingerprint (flow h)) →
     flow (undo (takeSnapshot h)) = flow h
     ∧ ∀ s, flow (undo (setFlow s (takeSnapshot h))) = flow h)
  ∧ (past h ≠ [] →
     flow (redo (undo h)) = flow h
     ∧ past (redo (undo h)) = past h
     ∧ future (redo (undo h)) = future h)
  ∧ (isUndoRedo h = false →
     ∀ l, length l = 51%nat → distinctFrom (lastSaved h) l →
          past (pushSnapshots l h) = drop 1 l
          ∧ length (past (pushSnapshots l h)) = MAX_HISTORY).
Proof.
  split_and!.
  - apply undo_empty.
  - intros Hflag Hkey. split.
    + rewrite takeSnapshot_records by done. unfold undo. simpl.
      by rewrite last_snoc.
    + intros s. by apply undo_takeSnapshot.
  - intros Hp. by rewrite redo_undo.
  - intros Hflag l Hlen Hd.
    rewrite pushSnapshots_overflow by done.
    split; [done|]. rewrite length_drop, Hlen. reflexivity.
Qed.

Lemma history_laws_witness :
  undo initialHistory = initialHistory
  ∧ flow (undo (setFlow (flowAt 1) (takeSnapshot initialHistory))) = emptyFlow
  ∧ flow (redo (undo (takeSnapshot initialHistory))) = emptyFlow
  ∧ past (pushSnapshots (flowAt <$> seqZ 0 51) initialHistory)
    = flowAt <$> seqZ 1 50.
Proof.
  destruct (history_laws initialHistory) as (H1 & H2 & _ & H4).
  destruct (history_laws (takeSnapshot initialHistory)) as (_ & _ & H3 & _).
  split_and!.
  - apply H1. reflexivity.
  - apply H2; [reflexivity|discriminate].
  - apply H3. discriminate.
  - apply H4; [reflexivity|reflexivity|].
    apply (bool_decide_unpack _). vm_compute. exact I.
Defined.

Lemma reachable_step h h' : reachable h → step h h' → reachable h'.
Proof. intros Hr Hs. by eapply rtc_r. Qed.

Lemma reachable_afterUndo : reachable afterUndo.
Proof.
  unfold afterUndo.
  repeat (eapply reachable_step; [|constructor]).
  apply rtc_refl.
Qed.

Lemma length_sliceInit {A} (l : list A) : length (sliceInit l) = (length l - 1)%nat.
Proof. unfold sliceInit. rewrite length_take. lia. Qed.

Lemma step_bounded h h' :
  step h h' →
  (length (past h) + length (future h) ≤ MAX_HISTORY)%nat →
  (length (past h') + length (future h') ≤ MAX_HISTORY)%nat.
Proof.
  unfold MAX_HISTORY.
  destruct 1 as [h|h|h|s h|h]; intros Hb; simpl; try done.
  - unfold takeSnapshot. destruct (isUndoRedo h); [done|].
    case_bool_decide; [done|]. simpl.
    unfold sliceLast, MAX_HISTORY. rewrite length_app, length_drop. simpl.
    clear. lia.
  - unfold undo. destruct (last (past h)) as [prev|] eqn:Hl; [|done]. simpl.
    apply last_Some in Hl as [l' Hl]. rewrite Hl in Hb |- *.
    rewrite length_sliceInit, !length_app in *. simpl in *. lia.
  - unfold redo. destruct (last (future h)) as [next|] eqn:Hl; [|done]. simpl.
    apply last_Some in Hl as [l' Hl]. rewrite Hl in Hb |- *.
    rewrite length_sliceInit, !length_app in *. simpl in *. lia.
Qed.

(** The stacks stay within their capacity in every reachable state. *)
Lemma reachable_bounded h :
  reachable h → (length (past h) + length (future h) ≤ MAX_HISTORY)%nat.
Proof.
  unfold reachable. intros Hr.
  eapply (rtc_ind_r (λ h, length (past h) + length (future h) ≤ MAX_HISTORY)%nat);
    [|intros h1 h2 _ Hs IH; by eapply step_bounded|exact Hr].
  unfold MAX_HISTORY. simpl. lia.
Qed.

(** C9, as stated, fails in two reachable states.  In [afterUndo] the
    current fingerprint is the last recorded one, so [takeSnapshot] is
    skipped and the [undo] after it restores an older state.  In
    [allUndone] the stack [past] is empty, so [undo] does nothing and the
    [redo] after it moves to a state of [future]. *)
Lemma history_counterexample :
  reachable afterUndo
  ∧ flow (undo (takeSnapshot afterUndo)) ≠ flow afterUndo
  ∧ reachable allUndone
  ∧ flow (redo (undo allUndone)) ≠ flow allUndone.
Proof.
  split_and!.
  - apply reachable_afterUndo.
  - vm_compute. discriminate.
  - eapply reachable_step; [apply reachable_afterUndo|constructor].
  - vm_compute. discriminate.
Qed.

(** ** The subtree under a node *)

Lemma foldl_option_None {A B} (g : A → B → option A) l :
  foldl (λ acc x, a ← acc; g a x) None l = None.
Proof. induction l as [|x l IH]; simpl; [done|exact IH]. Qed.

Lemma subtree_S fuel db n L :
  subtree (S fuel) db n = Some L ↔
  ∃ ls, Forall2 (λ c l, subtree fuel db (node_id c) = Some l) (childrenOf db n) ls
        ∧ L = n :: concat ls.
Proof.
  simpl. split.
  - intros H. destruct (mapM _ _) as [ls|] eqn:Hm; simpl in H; [|done].
    simplify_eq. exists ls. split; [|done]. by apply mapM_Some_1.
  - intros (ls & Hf & ->). apply mapM_Some_2 in Hf. by rewrite Hf.
Qed.

Lemma getNode_Some db x r : getNode db x = Some r → r ∈ nodes db ∧ node_id r = x.
Proof.
  unfold getNode. intros H. apply head_Some_elem_of in H.
  apply list_elem_of_filter in H. tauto.
Qed.

Lemma head_filter_NoDup {A B} `{EqDecision B} (key : A → B) (l : list A) r :
  NoDup (key <$> l) → r ∈ l →
  head (filter (λ a, key a = key r) l) = Some r.
Proof.
  induction l as [|a l IH]; intros Hnd Hin; [by apply elem_of_nil in Hin|].
  rewrite fmap_cons in Hnd. apply NoDup_cons in Hnd as [Ha Hnd].
  rewrite filter_cons. apply elem_of_cons in Hin as [->|Hin].
  - by rewrite decide_True.
  - rewrite decide_False; [by apply IH|].
    intros Heq. apply Ha. rewrite Heq. by apply list_elem_of_fmap_2.
Qed.

Lemma getNode_row db r :
  NoDup (node_id <$> nodes db) → r ∈ nodes db → getNode db (node_id r) = Some r.
Proof. intros. by apply head_filter_NoDup. Qed.

Lemma parentOf_row db r :
  NoDup (node_id <$> nodes db) → r ∈ nodes db →
  parentOf db (node_id r) = Some (node_parentId r).
Proof. intros. unfold parentOf. by rewrite getNode_row. Qed.

Lemma parentOf_child db x p :
  parentOf db x = Some p → ∃ r, r ∈ childrenOf db p ∧ node_id r = x.
Proof.
  unfold parentOf. destruct (getNode db x) as [r|] eqn:Hr; simpl; [|done].
  intros [= <-]. apply getNode_Some in Hr as [Hin Hid].
  exists r. split; [|done]. by apply list_elem_of_filter.
Qed.

Lemma childrenOf_elem db n c :
  c ∈ childrenOf db n ↔ node_parentId c = n ∧ c ∈ nodes db.
Proof. unfold childrenOf. by rewrite list_elem_of_filter. Qed.

Lemma up_S_r db k x : up db (S k) x = up db k x ≫= parentOf db.
Proof.
  revert x. induction k as [|k IH]; intros x.
  - simpl. by destruct (parentOf db x).
  - change (up db (S (S k)) x) with (parentOf db x ≫= up db (S k)).
    change (up db (S k) x) with (parentOf db x ≫= up db k).
    destruct (parentOf db x) as [p|]; simpl; [apply IH|done].
Qed.

Lemma up_add db a b x : up db (a + b) x = up db a x ≫= up db b.
Proof.
  revert x. induction a as [|a IH]; intros x; [done|].
  simpl. destruct (parentOf db x) as [p|]; simpl; [apply IH|done].
Qed.

Lemma Forall2_elem_l {A B} (R : A → B → Prop) l k x :
  Forall2 R l k → x ∈ l → ∃ y, y ∈ k ∧ R x y.
Proof.
  induction 1 as [|a b l k Hab _ IH]; intros Hin; [by apply elem_of_nil in Hin|].
  apply elem_of_cons in Hin as [->|Hin].
  - exists b. split; [by left|done].
  - destruct (IH Hin) as (y & ? & ?). exists y. split; [by right|done].
Qed.

Lemma Forall2_elem_r {A B} (R : A → B → Prop) l k y :
  Forall2 R l k → y ∈ k → ∃ x, x ∈ l ∧ R x y.
Proof.
  induction 1 as [|a b l k Hab _ IH]; intros Hin; [by apply elem_of_nil in Hin|].
  apply elem_of_cons in Hin as [->|Hin].
  - exists a. split; [by left|done].
  - destruct (IH Hin) as (x & ? & ?). exists x. split; [by right|done].
Qed.

Lemma elem_of_concat {A} (x : A) (ls : list (list A)) :
  x ∈ concat ls ↔ ∃ l, l ∈ ls ∧ x ∈ l.
Proof.
  rewrite list_elem_of_In, in_concat. split.
  - intros (l & ? & ?). exists l. by rewrite !list_elem_of_In.
  - intros (l & ? & ?). exists l. by rewrite <- !list_elem_of_In.
Qed.

(** A node that is its own ancestor has no finite subtree. *)
Lemma subtree_cycle db fuel : ∀ n k, up db (S k) n = Some n → subtree fuel db n = None.
Proof.
  induction fuel as [|fuel IH]; intros n k Hup; [done|].
  destruct (subtree (S fuel) db n) as [L|] eqn:HL; [exfalso|done].
  apply subtree_S in HL as (ls & Hf & _).
  rewrite up_S_r in Hup.
  destruct (up db k n) as [m|] eqn:Hm; simpl in Hup; [|done].
  destruct (parentOf_child _ _ _ Hup) as (r & Hr & Hid).
  assert (Hcyc : up db (S k) m = Some m).
  { simpl. by rewrite Hup. }
  apply (IH m k) in Hcyc.
  destruct (Forall2_elem_l _ _ _ _ Hf Hr) as (l & _ & Hl).
  rewrite Hid in Hl. congruence.
Qed.

Lemma subtree_head fuel db n L : subtree fuel db n = Some L → ∃ t, L = n :: t.
Proof.
  destruct fuel; [done|]. intros (ls & _ & ->)%subtree_S. by eexists.
Qed.

Lemma subtree_root fuel db n L : subtree fuel db n = Some L → n ∈ L.
Proof. intros (t & ->)%subtree_head. by left. Qed.

Section subtree_facts.
Variable db : Db.
Hypothesis ids_unique : NoDup (node_id <$> nodes db).

Lemma child_parentOf n c : c ∈ childrenOf db n → parentOf db (node_id c) = Some n.
Proof.
  intros [Hp Hin]%childrenOf_elem. rewrite parentOf_row by done. by rewrite Hp.
Qed.

(** Every node of the subtree has the root among its ancestors. *)
Lemma subtree_up fuel : ∀ n L x,
  subtree fuel db n = Some L → x ∈ L → ∃ k, up db k x = Some n.
Proof.
  induction fuel as [|fuel IH]; intros n L x HL Hx; [done|].
  apply subtree_S in HL as (ls & Hf & ->).
  apply elem_of_cons in Hx as [->|Hx]; [by exists 0%nat|].
  apply elem_of_concat in Hx as (l & Hl & Hx).
  destruct (Forall2_elem_r _ _ _ _ Hf Hl) as (c & Hc & Hsub).
  destruct (IH _ _ _ Hsub Hx) as [k Hk].
  exists (S k). rewrite up_S_r, Hk. simpl. by apply child_parentOf.
Qed.

(** The subtrees of two children of a node with a finite subtree do not
    meet. *)
Lemma siblings_disjoint fuel' fuel n L c1 c2 l1 l2 x :
  subtree fuel' db n = Some L →
  c1 ∈ childrenOf db n → c2 ∈ childrenOf db n →
  subtree fuel db (node_id c1) = Some l1 →
  subtree fuel db (node_id c2) = Some l2 →
  x ∈ l1 → x ∈ l2 → node_id c1 = node_id c2.
Proof.
  intros HL Hc1 Hc2 H1 H2 Hx1 Hx2.
  destruct (subtree_up _ _ _ _ H1 Hx1) as [k1 Hk1].
  destruct (subtree_up _ _ _ _ H2 Hx2) as [k2 Hk2].
  assert (Hgen : ∀ a b ka kb,
    a ∈ childrenOf db n → b ∈ childrenOf db n →
    up db ka x = Some (node_id a) → up db kb x = Some (node_id b) →
    (ka < kb)%nat → False).
  { intros a b ka kb Ha Hb Hka Hkb Hlt.
    replace kb with (ka + S (kb - ka - 1))%nat in Hkb by lia.
    rewrite up_add, Hka in Hkb. simpl in Hkb.
    rewrite (child_parentOf _ _ Ha) in Hkb. simpl in Hkb.
    assert (Hcyc : up db (S (kb - ka - 1)) n = Some n).
    { rewrite up_S_r, Hkb. simpl. by apply child_parentOf. }
    apply (subtree_cycle db fuel') in Hcyc. congruence. }
  destruct (Nat.lt_trichotomy k1 k2) as [Hlt|[->|Hlt]].
  - destruct (Hgen c1 c2 k1 k2); done.
  - congruence.
  - destruct (Hgen c2 c1 k2 k1); done.
Qed.

Lemma children_ids_unique n : NoDup (node_id <$> childrenOf db n).
Proof.
  eapply sublist_NoDup; [exact ids_unique|].
  apply fmap_sublist, sublist_filter.
Qed.

Lemma concat_subtrees_NoDup fuel (cs : list MachineNode) ls :
  (∀ n L, subtree fuel db n = Some L → NoDup L) →
  NoDup (node_id <$> cs) →
  Forall2 (λ c l, subtree fuel db (node_id c) = Some l) cs ls →
  (∀ c1 c2 l1 l2 x, c1 ∈ cs → c2 ∈ cs →
     subtree fuel db (node_id c1) = Some l1 →
     subtree fuel db (node_id c2) = Some l2 →
     x ∈ l1 → x ∈ l2 → node_id c1 = node_id c2) →
  NoDup (concat ls).
Proof.
  intros IH Hnd Hf. induction Hf as [|c l cs ls Hc Hf IHf]; intros Hsib.
  { constructor. }
  simpl. rewrite fmap_cons in Hnd. apply NoDup_cons in Hnd as [Hc_new Hnd].
  apply NoDup_app. split_and!.
  - by eapply IH.
  - intros x Hx Hx'. apply elem_of_concat in Hx' as (l' & Hl' & Hx').
    destruct (Forall2_elem_r _ _ _ _ Hf Hl') as (c' & Hc' & Hsub').
    apply Hc_new. rewrite (Hsib c c' l l' x); try done.
    + by apply list_elem_of_fmap_2.
    + by left.
    + by right.
  - apply IHf; [done|].
    intros c1 c2 l1 l2 x ? ?. apply Hsib; by right.
Qed.

(** The recursion visits no node twice. *)
Lemma subtree_NoDup fuel : ∀ n L, subtree fuel db n = Some L → NoDup L.
Proof.
  induction fuel as [|fuel IH]; intros n L HL; [done|].
  assert (HL' := HL).
  apply subtree_S in HL as (ls & Hf & ->).
  apply NoDup_cons. split.
  - intros Hn. apply elem_of_concat in Hn as (l & Hl & Hn).
    destruct (Forall2_elem_r _ _ _ _ Hf Hl) as (c & Hc & Hsub).
    destruct (subtree_up _ _ _ _ Hsub Hn) as [k Hk].
    assert (Hcyc : up db (S k) n = Some n).
    { rewrite up_S_r, Hk. simpl. by apply child_parentOf. }
    apply (subtree_cycle db (S fuel)) in Hcyc. congruence.
  - eapply (concat_subtrees_NoDup fuel); [exact IH|apply children_ids_unique|exact Hf|].
    intros. by eapply (siblings_disjoint (S fuel) fuel n).
Qed.

(** The subtree is closed under children: a row whose parent is in the
    subtree is in it too, after the root. *)
Lemma subtree_closed fuel : ∀ n L r,
  subtree fuel db n = Some L → r ∈ nodes db → node_parentId r ∈ L →
  node_id r ∈ tail L.
Proof.
  induction fuel as [|fuel IH]; intros n L r HL Hr Hp; [done|].
  apply subtree_S in HL as (ls & Hf & ->). simpl.
  apply elem_of_cons in Hp as [Hp|Hp].
  - assert (Hc : r ∈ childrenOf db n) by by apply childrenOf_elem.
    destruct (Forall2_elem_l _ _ _ _ Hf Hc) as (l & Hl & Hsub).
    apply elem_of_concat. exists l. split; [done|]. by eapply subtree_root.
  - apply elem_of_concat in Hp as (l & Hl & Hp).
    destruct (Forall2_elem_r _ _ _ _ Hf Hl) as (c & Hc & Hsub).
    apply elem_of_concat. exists l. split; [done|].
    destruct (subtree_head _ _ _ _ Hsub) as [t ->].
    right. by apply (IH _ _ r Hsub).
Qed.

(** Conversely a row of the subtree other than the root has its parent
    in the subtree. *)
Lemma subtree_parent fuel : ∀ n L r,
  subtree fuel db n = Some L → r ∈ nodes db → node_id r ∈ L → node_id r ≠ n →
  node_parentId r ∈ L.
Proof.
  induction fuel as [|fuel IH]; intros n L r HL Hr Hid Hne; [done|].
  apply subtree_S in HL as (ls & Hf & ->).
  apply elem_of_cons in Hid as [?|Hid]; [done|].
  apply elem_of_concat in Hid as (l & Hl & Hid).
  destruct (Forall2_elem_r _ _ _ _ Hf Hl) as (c & Hc & Hsub).
  destruct (decide (node_id r = node_id c)) as [Heq|Hne'].
  - assert (r = c) as ->.
    { apply childrenOf_elem in Hc as [_ Hc].
      assert (H1 := getNode_row db r ids_unique Hr).
      assert (H2 := getNode_row db c ids_unique Hc).
      rewrite Heq in H1. congruence. }
    apply childrenOf_elem in Hc as [-> _]. by left.
  - right. apply elem_of_concat. exists l. split; [done|].
    by apply (IH _ _ r Hsub).
Qed.

(** The rows of the subtree are the root and the rows whose parent is
    in the subtree. *)
Lemma subtree_rows fuel n L r :
  subtree fuel db n = Some L → r ∈ nodes db →
  (node_id r ∈ L ↔ node_id r = n ∨ node_parentId r ∈ L)
  ∧ ¬ (node_id r = n ∧ node_parentId r ∈ L).
Proof.
  intros HL Hr. split; [split|].
  - intros Hid. destruct (decide (node_id r = n)); [by left|right].
    by eapply subtree_parent.
  - intros [->|Hp]; [by eapply subtree_root|].
    apply (subtree_closed _ _ _ r HL) in Hp; [|done].
    destruct (subtree_head _ _ _ _ HL) as [t ->]. by right.
  - intros [Hid Hp]. apply (subtree_closed _ _ _ r HL) in Hp; [|done].
    assert (Hnd := subtree_NoDup _ _ _ HL).
    destruct (subtree_head _ _ _ _ HL) as [t ->]. simpl in Hp.
    apply NoDup_cons in Hnd as [Hn _]. apply Hn. by rewrite <- Hid.
Qed.
End subtree_facts.

(** ** The dry run counts the subtree *)

Lemma getCategory_addTotals c a b :
  getCategory c (addTotals a b) = (getCategory c a + getCategory c b)%nat.
Proof. by destruct c. Qed.

Lemma getCategory_tally c ty t :
  getCategory c (tally ty t)
  = (getCategory c t + if decide (categoryOf ty = c) then 1 else 0)%nat.
Proof. destruct c, ty; simpl; lia. Qed.

Lemma length_filter_cons {A} (P : A → Prop) `{∀ x, Decision (P x)} x l :
  length (filter P (x :: l))
  = ((if decide (P x) then 1 else 0) + length (filter P l))%nat.
Proof. rewrite filter_cons. by destruct (decide (P x)). Qed.

Lemma no_child_category (c : Category) (l : list MachineNode) :
  c = cat_problems ∨ c = cat_edges →
  length (filter (λ r, categoryOf (node_type r) = c) l) = 0%nat.
Proof.
  intros Hc. induction l as [|r l IH]; [done|].
  rewrite length_filter_cons, IH.
  destruct (decide _) as [Heq|]; [|done].
  destruct Hc as [-> | ->]; by destruct (node_type r).
Qed.

Lemma countLoop fuel db :
  (∀ n t, countRecursive fuel db n = Some t →
     ∃ L, subtree fuel db n = Some L
          ∧ ∀ c, getCategory c t = sum_list_with (ownCount db c) L) →
  ∀ children acc t,
    foldl (λ acc child,
             totals ← acc;
             childTotals ← countRecursive fuel db (node_id child);
             Some (addTotals (tally (node_type child) totals) childTotals))
          (Some acc) children = Some t →
    ∃ ls, Forall2 (λ c l, subtree fuel db (node_id c) = Some l) children ls
          ∧ ∀ c, getCategory c t
                 = (getCategory c acc
                    + length (filter (λ r, categoryOf (node_type r) = c) children)
                    + sum_list_with (ownCount db c) (concat ls))%nat.
Proof.
  intros IH. induction children as [|child children IHc]; intros acc t Hfold.
  - simpl in Hfold. simplify_eq. exists []. split; [constructor|].
    intros c. simpl. lia.
  - simpl in Hfold.
    destruct (countRecursive fuel db (node_id child)) as [ct|] eqn:Hct; simpl in Hfold.
    2:{ by rewrite foldl_option_None in Hfold. }
    destruct (IH _ _ Hct) as (l & Hl & Hsum).
    destruct (IHc _ _ Hfold) as (ls & Hls & Hsums).
    exists (l :: ls). split; [by constructor|].
    intros c. rewrite Hsums, getCategory_addTotals, getCategory_tally, Hsum.
    rewrite length_filter_cons. simpl. rewrite sum_list_with_app. lia.
Qed.

Lemma countRecursive_subtree fuel db : ∀ n t,
  countRecursive fuel db n = Some t →
  ∃ L, subtree fuel db n = Some L
       ∧ ∀ c, getCategory c t = sum_list_with (ownCount db c) L.
Proof.
  induction fuel as [|fuel IH]; intros n t Ht; [done|].
  simpl in Ht. apply (countLoop fuel db IH) in Ht as (ls & Hls & Hsum).
  exists (n :: concat ls). split.
  - apply subtree_S. by exists ls.
  - intros c. rewrite Hsum. simpl.
    destruct c; simpl; try lia.
    + rewrite (no_child_category cat_problems); [lia|by left].
    + rewrite (no_child_category cat_edges); [lia|by right].
Qed.

(** Along a list without repetition, the rows with a key of the list are
    the rows with each key in turn. *)
Lemma length_filter_elem_of {A} (key : A → string) (rows : list A) (L : list string) :
  NoDup L →
  length (filter (λ a, key a ∈ L) rows)
  = sum_list_with (λ x, length (filter (λ a, key a = x) rows)) L.
Proof.
  intros Hnd. induction rows as [|a rows IH].
  - simpl. induction L as [|x L IHL]; [done|].
    simpl. apply NoDup_cons in Hnd as [_ Hnd]. by rewrite <- IHL.
  - rewrite length_filter_cons, IH. clear IH.
    induction Hnd as [|x L Hx Hnd IHL].
    + destruct (decide (key a ∈ [])) as [Hin|]; [by apply elem_of_nil in Hin|done].
    + cbn [sum_list_with]. rewrite length_filter_cons, <- IHL.
      destruct (decide (key a ∈ x :: L)) as [Hin|Hnin];
        destruct (decide (key a = x)) as [Heq|Hne];
        destruct (decide (key a ∈ L)) as [HinL|HninL]; try lia; exfalso;
        first [ by apply Hx; rewrite <- Heq
              | by apply Hnin; rewrite Heq; left
              | by apply Hnin; right
              | by apply elem_of_cons in Hin as [?|?] ].
Qed.

(** ** The recursive delete removes the subtree *)

Lemma deleteAll_ext A B db : (∀ x, x ∈ A ↔ x ∈ B) → deleteAll A db = deleteAll B db.
Proof.
  intros HAB. unfold deleteAll.
  f_equal; apply list_filter_iff; intros r; by rewrite HAB.
Qed.

Lemma filter_ne_not_elem {A} (key : A → string) x D (l : list A) :
  filter (λ a, key a ≠ x) (filter (λ a, key a ∉ D) l) = filter (λ a, key a ∉ x :: D) l.
Proof.
  rewrite list_filter_filter. apply list_filter_iff. intros a.
  rewrite not_elem_of_cons. tauto.
Qed.

Lemma deleteOwn_deleteAll x D db : deleteOwn x (deleteAll D db) = deleteAll (x :: D) db.
Proof.
  unfold deleteOwn, deleteAll. simpl.
  f_equal; apply filter_ne_not_elem.
Qed.

Lemma filter_filter_absorb {A} (P Q : A → Prop)
    `{∀ a, Decision (P a)} `{∀ a, Decision (Q a)} (l : list A) :
  (∀ a, a ∈ l → P a → Q a) → filter P (filter Q l) = filter P l.
Proof.
  induction l as [|a l IH]; intros HPQ; [done|].
  assert (IH' : filter P (filter Q l) = filter P l).
  { apply IH. intros b Hb. apply HPQ. by right. }
  rewrite (filter_cons Q), (filter_cons P).
  destruct (decide (Q a)) as [Hq|Hq].
  - rewrite filter_cons, IH'. done.
  - rewrite IH'. destruct (decide (P a)) as [Hp|Hp]; [|done].
    exfalso. apply Hq, HPQ; [by left|done].
Qed.

Lemma childrenOf_deleteAll D db n :
  (∀ c, c ∈ childrenOf db n → node_id c ∉ D) →
  childrenOf (deleteAll D db) n = childrenOf db n.
Proof.
  intros Hc. unfold childrenOf, deleteAll. simpl.
  apply filter_filter_absorb. intros a Ha Hp.
  apply Hc. by apply childrenOf_elem.
Qed.

Section delete_facts.
Variable db : Db.

Lemma deleteLoop fuel :
  (∀ n L D, subtree fuel db n = Some L → NoDup L → (∀ x, x ∈ L → x ∉ D) →
     deleteRecursive fuel (deleteAll D db) n = Some (deleteAll (L ++ D) db)) →
  ∀ cs ls, Forall2 (λ c l, subtree fuel db (node_id c) = Some l) cs ls →
  ∀ D, NoDup (concat ls) → (∀ x, x ∈ concat ls → x ∉ D) →
    foldl (λ acc child, d ← acc; deleteRecursive fuel d (node_id child))
          (Some (deleteAll D db)) cs
    = Some (deleteAll (concat ls ++ D) db).
Proof.
  intros IH cs ls Hf. induction Hf as [|c l cs ls Hc Hf IHf]; intros D Hnd Hdis.
  - done.
  - simpl in *. apply NoDup_app in Hnd as (Hl & Hll & Hls).
    rewrite (IH _ l D Hc Hl).
    2:{ intros x Hx. apply Hdis, elem_of_app. by left. }
    rewrite IHf; [|done|].
    + f_equal. apply deleteAll_ext. intros x. rewrite !elem_of_app. tauto.
    + intros x Hx [Hxl|HxD]%elem_of_app.
      * by apply (Hll x).
      * apply (Hdis x); [|done]. apply elem_of_app. by right.
Qed.

Lemma deleteRecursive_deleteAll fuel : ∀ n L D,
  subtree fuel db n = Some L → NoDup L → (∀ x, x ∈ L → x ∉ D) →
  deleteRecursive fuel (deleteAll D db) n = Some (deleteAll (L ++ D) db).
Proof.
  induction fuel as [|fuel IH]; intros n L D HL Hnd Hdis; [done|].
  apply subtree_S in HL as (ls & Hf & ->).
  apply NoDup_cons in Hnd as [Hn Hnd].
  simpl. rewrite childrenOf_deleteAll.
  - rewrite (deleteLoop fuel IH _ _ Hf D Hnd).
    + simpl. by rewrite deleteOwn_deleteAll.
    + intros x Hx. apply Hdis. by right.
  - intros c Hc.
    destruct (Forall2_elem_l _ _ _ _ Hf Hc) as (l & Hl & Hsub).
    apply Hdis. right. apply elem_of_concat. exists l. split; [done|].
    by eapply subtree_root.
Qed.
End delete_facts.

Lemma filter_all {A} (P : A → Prop) `{∀ a, Decision (P a)} (l : list A) :
  (∀ a, P a) → filter P l = l.
Proof.
  intros HP. induction l as [|a l IH]; [done|].
  by rewrite filter_cons_True, IH.
Qed.

Lemma deleteAll_nil db : deleteAll [] db = db.
Proof.
  destruct db. unfold deleteAll. simpl.
  f_equal; apply filter_all; intros a; apply not_elem_of_nil.
Qed.

(** On a store whose node ids are unique, whenever the dry run returns,
    the recursive delete returns too, and removes exactly the subtree:
    its nodes, and the edges, problems, victory conditions and status
    changes keyed to one of them. *)
Lemma deleteRecursive_subtree fuel db n L :
  NoDup (node_id <$> nodes db) → subtree fuel db n = Some L →
  deleteRecursive fuel db n = Some (deleteAll L db).
Proof.
  intros Hids HL.
  rewrite <- (deleteAll_nil db) at 1.
  rewrite (deleteRecursive_deleteAll db fuel n L []); try done.
  - by rewrite app_nil_r.
  - by eapply subtree_NoDup.
  - intros x _. apply not_elem_of_nil.
Qed.

(** ** The summary of the dry run against the rows removed *)

Lemma length_filter_complement {A} (P : A → Prop) `{∀ a, Decision (P a)} (l : list A) :
  length l = (length (filter P l) + length (filter (λ a, ¬ P a) l))%nat.
Proof.
  induction l as [|a l IH]; [done|].
  rewrite !length_filter_cons. simpl. rewrite IH.
  destruct (decide (P a)), (decide (¬ P a)); try lia; tauto.
Qed.

Lemma length_filter_iff_in {A} (P Q : A → Prop)
    `{∀ a, Decision (P a)} `{∀ a, Decision (Q a)} (l : list A) :
  (∀ a, a ∈ l → (P a ↔ Q a)) → length (filter P l) = length (filter Q l).
Proof.
  induction l as [|a l IH]; intros HPQ; [done|].
  rewrite !length_filter_cons, IH.
  - assert (P a ↔ Q a) by (apply HPQ; by left).
    destruct (decide (P a)), (decide (Q a)); try lia; tauto.
  - intros b Hb. apply HPQ. by right.
Qed.

Lemma length_filter_or {A} (P Q : A → Prop)
    `{∀ a, Decision (P a)} `{∀ a, Decision (Q a)} (l : list A) :
  (∀ a, a ∈ l → ¬ (P a ∧ Q a)) →
  length (filter (λ a, P a ∨ Q a) l)
  = (length (filter P l) + length (filter Q l))%nat.
Proof.
  induction l as [|a l IH]; intros Hdis; [done|].
  rewrite !length_filter_cons, IH.
  - assert (¬ (P a ∧ Q a)) by (apply Hdis; by left).
    destruct (decide (P a)), (decide (Q a)), (decide (P a ∨ Q a)); try lia; tauto.
  - intros b Hb. apply Hdis. by right.
Qed.

Lemma filter_comm {A} (P Q : A → Prop)
    `{∀ a, Decision (P a)} `{∀ a, Decision (Q a)} (l : list A) :
  filter P (filter Q l) = filter Q (filter P l).
Proof.
  rewrite !list_filter_filter. apply list_filter_iff. tauto.
Qed.

Lemma filter_key_NoDup {A} (key : A → string) (l : list A) r :
  NoDup (key <$> l) → r ∈ l → filter (λ a, key a = key r) l = [r].
Proof.
  induction l as [|a l IH]; intros Hnd Hin; [by apply elem_of_nil in Hin|].
  rewrite fmap_cons in Hnd. apply NoDup_cons in Hnd as [Ha Hnd].
  rewrite filter_cons. apply elem_of_cons in Hin as [->|Hin].
  - rewrite decide_True by done. f_equal.
    clear IH Hnd. induction l as [|b l IH]; [done|].
    rewrite fmap_cons, not_elem_of_cons in Ha. destruct Ha as [Hne Ha].
    rewrite filter_cons_False by congruence. by apply IH.
  - rewrite decide_False; [by apply IH|].
    intros Heq. apply Ha. rewrite Heq. by apply list_elem_of_fmap_2.
Qed.

Lemma length_by_type (l : list MachineNode) :
  length l = (countType machine l + countType sop l + countType tool l
              + countType skill l + countType note l)%nat.
Proof.
  unfold countType. induction l as [|r l IH]; [done|].
  rewrite !length_filter_cons. simpl. rewrite IH.
  destruct (node_type r); simpl; lia.
Qed.

Section mirror.
Variables (fuel : nat) (db : Db) (m : MachineNode) (L : list string).
Hypothesis ids_unique : NoDup (node_id <$> nodes db).
Hypothesis m_row : m ∈ nodes db.
Hypothesis HL : subtree fuel db (node_id m) = Some L.

Lemma removed_problems :
  length (problems db)
  = (length (problems (deleteAll L db))
     + sum_list_with (ownCount db cat_problems) L)%nat.
Proof.
  simpl.
  rewrite (length_filter_complement (λ p, problem_machineNodeId p ∈ L) (problems db)).
  rewrite (length_filter_elem_of problem_machineNodeId).
  - unfold ownCount. lia.
  - by eapply subtree_NoDup.
Qed.

Lemma removed_edges :
  length (edges db)
  = (length (edges (deleteAll L db)) + sum_list_with (ownCount db cat_edges) L)%nat.
Proof.
  simpl.
  rewrite (length_filter_complement (λ e, edge_parentId e ∈ L) (edges db)).
  rewrite (length_filter_elem_of edge_parentId).
  - unfold ownCount. lia.
  - by eapply subtree_NoDup.
Qed.

Lemma ownCount_type ty x :
  ownCount db (categoryOf ty) x
  = length (filter (λ r, node_parentId r = x) (filter (λ r, node_type r = ty) (nodes db))).
Proof.
  assert (Heq : ownCount db (categoryOf ty) x
    = length (filter (λ r, categoryOf (node_type r) = categoryOf ty) (childrenOf db x))).
  { by destruct ty. }
  rewrite Heq. unfold childrenOf. rewrite filter_comm. do 2 f_equal.
  apply (list_filter_iff (λ r, categoryOf (node_type r) = categoryOf ty)
           (λ r, node_type r = ty)).
  intros r.
  destruct (node_type r), ty; simpl; split; congruence.
Qed.

Lemma removed_of_type ty :
  countType ty (nodes db)
  = (countType ty (nodes (deleteAll L db))
     + sum_list_with (ownCount db (categoryOf ty)) L
     + if decide (node_type m = ty) then 1 else 0)%nat.
Proof.
  unfold countType. simpl.
  set (rows := filter (λ n, node_type n = ty) (nodes db)).
  assert (Hrows : ∀ r, r ∈ rows → r ∈ nodes db).
  { intros r Hr. apply list_elem_of_filter in Hr. tauto. }
  rewrite (filter_comm _ (λ n, node_id n ∉ L)). fold rows.
  rewrite (length_filter_complement (λ r, node_id r ∈ L) rows).
  rewrite (length_filter_iff_in (λ r, node_id r ∈ L)
             (λ r, node_id r = node_id m ∨ node_parentId r ∈ L)).
  2:{ intros r Hr.
      by destruct (subtree_rows db ids_unique fuel (node_id m) L r HL (Hrows r Hr)). }
  rewrite length_filter_or.
  2:{ intros r Hr.
      by destruct (subtree_rows db ids_unique fuel (node_id m) L r HL (Hrows r Hr)). }
  rewrite (length_filter_elem_of node_parentId) by by eapply subtree_NoDup.
  assert (Hroot : length (filter (λ r, node_id r = node_id m) rows)
                  = if decide (node_type m = ty) then 1%nat else 0%nat).
  { unfold rows. rewrite filter_comm, (filter_key_NoDup node_id) by done.
    rewrite filter_cons. by destruct (decide (node_type m = ty)). }
  rewrite Hroot.
  assert (Hsum : sum_list_with (λ x, length (filter (λ a, node_parentId a = x) rows)) L
                 = sum_list_with (ownCount db (categoryOf ty)) L).
  { clear. induction L as [|x l IH]; [done|].
    simpl. by rewrite IH, ownCount_type. }
  rewrite Hsum. lia.
Qed.
End mirror.

(** ** Enough fuel

    When the rows can be ranked so that every row ranks below its parent
    (the parent links have no cycle), one unit of fuel more than the
    rank of a node is enough for the recursions below it. *)

Lemma subtree_returns db (rank : string → nat) :
  (∀ r, r ∈ nodes db → (rank (node_id r) < rank (node_parentId r))%nat) →
  ∀ fuel n, (rank n < fuel)%nat → is_Some (subtree fuel db n).
Proof.
  intros Hrank. induction fuel as [|fuel IH]; intros n Hn; [lia|].
  simpl.
  destruct (mapM_is_Some_2 (λ child, subtree fuel db (node_id child))
              (childrenOf db n)) as [ls ->]; [|by eexists].
  apply Forall_forall. intros c [Hp Hc]%childrenOf_elem.
  apply IH. specialize (Hrank c Hc). rewrite Hp in Hrank. lia.
Qed.

Lemma countRecursive_returns fuel db : ∀ n L,
  subtree fuel db n = Some L → is_Some (countRecursive fuel db n).
Proof.
  induction fuel as [|fuel IH]; intros n L HL; [done|].
  apply subtree_S in HL as (ls & Hf & _). simpl.
  generalize ({| sum_nodes := 0; sum_sops := 0; sum_tools := 0; sum_skills := 0;
                 sum_notes := 0;
                 sum_problems :=
                   length (filter (λ p, problem_machineNodeId p = n) (problems db));
                 sum_edges :=
                   length (filter (λ e, edge_parentId e = n) (edges db)) |}).
  induction Hf as [|c l cs ls Hc Hf IHf]; intros acc; simpl; [by eexists|].
  destruct (IH _ _ Hc) as [ct ->]. simpl. apply IHf.
Qed.

Lemma prepareDelete_returns db (rank : string → nat) m :
  (∀ r, r ∈ nodes db → (rank (node_id r) < rank (node_parentId r))%nat) →
  is_Some (prepareDelete (S (rank (node_id m))) db m).
Proof.
  intros Hrank.
  destruct (subtree_returns db rank Hrank (S (rank (node_id m))) (node_id m))
    as [L HL]; [lia|].
  unfold prepareDelete.
  destruct (countRecursive_returns _ _ _ _ HL) as [t ->]. by eexists.
Qed.

(** C4, as the code has it.  On a store whose node ids are unique,
    whenever the dry run of a machine returns, the delete returns too
    with the same fuel, only removes rows, and the summary mirrors what
    it removed: the five node counters add up to the number of node rows
    removed; when the target is of type machine each of them is the
    number of removed rows of its type ([nodes] counts the machines, the
    target included, [sops] the procedures, and so on); [problems] and
    [edges] are the numbers of problem and edge rows removed.  For a root
    machine M with one child procedure P the summary has [nodes = 1] (M)
    and [sops = 1] (P). *)
Theorem prepareDelete_mirrors_confirmDelete
    (fuel : nat) (db : Db) (m : MachineNode) (summary : DeletionSummary) :
  NoDup (node_id <$> nodes db) → m ∈ nodes db →
  prepareDelete fuel db m = Some summary →
  (∃ db', confirmDelete fuel db (Some m) = Some db'
     ∧ nodes db' `sublist_of` nodes db
     ∧ problems db' `sublist_of` problems db
     ∧ edges db' `sublist_of` edges db
     ∧ length (nodes db)
       = (length (nodes db')
          + (sum_nodes summary + sum_sops summary + sum_tools summary
             + sum_skills summary + sum_notes summary))%nat
     ∧ (node_type m = machine →
        countType machine (nodes db)
        = (countType machine (nodes db') + sum_nodes summary)%nat
        ∧ countType sop (nodes db) = (countType sop (nodes db') + sum_sops summary)%nat
        ∧ countType tool (nodes db) = (countType tool (nodes db') + sum_tools summary)%nat
        ∧ countType skill (nodes db)
          = (countType skill (nodes db') + sum_skills summary)%nat
        ∧ countType note (nodes db) = (countType note (nodes db') + sum_notes summary)%nat)
     ∧ length (problems db) = (length (problems db') + sum_problems summary)%nat
     ∧ length (edges db) = (length (edges db') + sum_edges summary)%nat)
  ∧ prepareDelete 3 machineWithProcedure rootM
    = Some {| sum_nodes := 1; sum_sops := 1; sum_tools := 0; sum_skills := 0;
              sum_notes := 0; sum_problems := 0; sum_edges := 1 |}.
Proof.
  intros Hids Hm Hprep. split; [|reflexivity].
  unfold prepareDelete in Hprep.
  destruct (countRecursive fuel db (node_id m)) as [t|] eqn:Ht; simpl in Hprep; [|done].
  injection Hprep as <-.
  destruct (countRecursive_subtree _ _ _ _ Ht) as (L & HL & Hsum).
  exists (deleteAll L db). simpl confirmDelete.
  split; [by apply deleteRecursive_subtree|].
  assert (Hty := removed_of_type fuel db m L Hids Hm HL).
  assert (Hm1 := Hty machine). assert (Hm2 := Hty sop).
  assert (Hm3 := Hty tool). assert (Hm4 := Hty skill). assert (Hm5 := Hty note).
  cbn [categoryOf] in Hm1, Hm2, Hm3, Hm4, Hm5.
  rewrite <- (Hsum cat_nodes) in Hm1. rewrite <- (Hsum cat_sops) in Hm2.
  rewrite <- (Hsum cat_tools) in Hm3. rewrite <- (Hsum cat_skills) in Hm4.
  rewrite <- (Hsum cat_notes) in Hm5.
  cbn [categoryOf getCategory] in *.
  split_and!.
  - apply sublist_filter.
  - apply sublist_filter.
  - apply sublist_filter.
  - rewrite (length_by_type (nodes db)), (length_by_type (nodes (deleteAll L db))).
    cbn [sum_nodes sum_sops sum_tools sum_skills sum_notes].
    destruct (node_type m); repeat case_decide; simplify_eq; lia.
  - intros Hmach. rewrite Hmach in *.
    cbn [sum_nodes sum_sops sum_tools sum_skills sum_notes].
    repeat case_decide; simplify_eq; lia.
  - rewrite (removed_problems fuel db m L Hids HL), <- (Hsum cat_problems). done.
  - rewrite (removed_edges fuel db m L Hids HL), <- (Hsum cat_edges). done.
Qed.

Lemma prepareDelete_mirrors_confirmDelete_witness :
  ∃ db', confirmDelete 3 machineWithProcedure (Some rootM) = Some db'
         ∧ length (nodes machineWithProcedure) = (length (nodes db') + (1 + 1 + 0 + 0 + 0))%nat
         ∧ length (edges machineWithProcedure) = (length (edges db') + 1)%nat.
Proof.
  destruct (prepareDelete_mirrors_confirmDelete 3 machineWithProcedure rootM
              {| sum_nodes := 1; sum_sops := 1; sum_tools := 0; sum_skills := 0;
                 sum_notes := 0; sum_problems := 0; sum_edges := 1 |})
    as [(db' & Hdel & _ & _ & _ & Hn & _ & _ & He) _].
  - apply (bool_decide_unpack _). vm_compute. exact I.
  - by left.
  - reflexivity.
  - exists db'. split_and!; [exact Hdel|exact Hn|exact He].
Defined.

(** C4, as stated, fails on the scenario of the specification: the
    summary of root machine M with its child procedure P has [nodes = 1],
    not 2, although the delete removes the two node rows. *)
Lemma prepareDelete_nodes_counterexample :
  (sum_nodes <$> prepareDelete 3 machineWithProcedure rootM) = Some 1%nat
  ∧ (sum_nodes <$> prepareDelete 3 machineWithProcedure rootM) ≠ Some 2%nat
  ∧ (nodes <$> confirmDelete 3 machineWithProcedure (Some rootM)) = Some [].
Proof. split_and!; [reflexivity|discriminate|reflexivity]. Qed.

(** ** Cascading delete *)

(** What the recursive delete of the dashboard does guarantee: no node,
    problem, victory condition or status change keyed to a node of the
    subtree is left, and no edge owned by one. *)
Lemma deleteRecursive_removes_subtree fuel db n L db' :
  NoDup (node_id <$> nodes db) → subtree fuel db n = Some L →
  deleteRecursive fuel db n = Some db' →
  (∀ r, r ∈ nodes db' → (node_id r ∉ L) ∧ (node_parentId r ∉ L))
  ∧ (∀ e, e ∈ edges db' → edge_parentId e ∉ L)
  ∧ (∀ p, p ∈ problems db' → problem_machineNodeId p ∉ L)
  ∧ (∀ v, v ∈ victoryConditions db' → vc_machineNodeId v ∉ L)
  ∧ (∀ c, c ∈ statusChanges db' → sc_machineNodeId c ∉ L).
Proof.
  intros Hids HL Hdel.
  rewrite (deleteRecursive_subtree fuel db n L Hids HL) in Hdel.
  injection Hdel as <-. simpl. split_and!.
  - intros r [Hid Hr]%list_elem_of_filter. split; [done|].
    intros Hp. apply Hid.
    apply (subtree_closed db fuel n L r HL Hr) in Hp.
    destruct (subtree_head _ _ _ _ HL) as [t ->]. by right.
  - by intros e [? _]%list_elem_of_filter.
  - by intros p [? _]%list_elem_of_filter.
  - by intros v [? _]%list_elem_of_filter.
  - by intros c [? _]%list_elem_of_filter.
Qed.

(** C1 on the code.  Deleting node [a] on the whiteboard removes [a] and
    its children [b] and [b2] only: the grandchild [c] stays, with the id
    of [b] as its parent, and so do the edge of the canvas of [a] between
    [b] and [b2], the problem and the victory condition of [b] and the
    status change of [a].  Deleting root machine [m1] on the dashboard
    leaves the top-level edge whose source is [m1]. *)
Theorem cascade_delete_leaves_references (uuid : nat → string) (now : Z) :
  let db' := wb_db (handleDeleteNode uuid now "a" deepWhiteboard) in
  ((node_id <$> nodes db') = ["m"; "c"]
   ∧ (node_parentId <$> nodes db') = [""; "b"]
   ∧ edges db' = edges deepDb
   ∧ problems db' = problems deepDb
   ∧ victoryConditions db' = victoryConditions deepDb
   ∧ statusChanges db' = statusChanges deepDb)
  ∧ ((edges <$> deleteRecursive 3 twoRootsDb "m1") = Some (edges twoRootsDb)
     ∧ ((λ d, node_id <$> nodes d) <$> deleteRecursive 3 twoRootsDb "m1")
       = Some ["m2"]).
Proof. split; split_and!; reflexivity. Qed.

(** ** Root resolution *)

Lemma findRootLoop_mono nodeMap fuel : ∀ fuel' n r,
  findRootLoop fuel nodeMap n = Some r → (fuel ≤ fuel')%nat →
  findRootLoop fuel' nodeMap n = Some r.
Proof.
  induction fuel as [|fuel IH]; intros fuel' n r Hr Hle; [done|].
  destruct fuel' as [|fuel']; [lia|].
  simpl in *. destruct (truthy _); [|done].
  destruct (nodeMap !! _); [|done]. apply IH; [done|lia].
Qed.

(** Where the loop ends: at a node without parent id, or at one whose
    parent does not resolve. *)
Lemma findRootLoop_ends nodeMap fuel : ∀ n r,
  findRootLoop fuel nodeMap n = Some r →
  node_parentId r = "" ∨ nodeMap !! node_parentId r = None.
Proof.
  induction fuel as [|fuel IH]; intros n r Hr; [done|].
  simpl in Hr. unfold truthy in Hr. case_bool_decide as Hp.
  - destruct (nodeMap !! node_parentId n) as [parent|] eqn:Hpar.
    + by eapply IH.
    + simplify_eq. by right.
  - simplify_eq. left. by destruct (decide (node_parentId r = "")).
Qed.

(** Without a cycle the loop ends within depth + 1 iterations. *)
Lemma findRootLoop_terminates nodeMap n d :
  depth nodeMap n d → is_Some (findRootLoop (S d) nodeMap n).
Proof.
  induction 1 as [n Hp|n Hp|n parent d Hne Hp _ IH]; simpl.
  - rewrite Hp. by eexists.
  - rewrite Hp. destruct (truthy _); by eexists.
  - unfold truthy. rewrite bool_decide_eq_true_2 by done.
    rewrite Hp. exact IH.
Qed.

Lemma findRootLoop_cycle fuel :
  findRootLoop fuel (nodeMapOf (nodes cycleDb)) cycleA = None
  ∧ findRootLoop fuel (nodeMapOf (nodes cycleDb)) cycleB = None.
Proof.
  induction fuel as [|fuel [IHa IHb]]; [done|].
  split.
  - change (findRootLoop (S fuel) (nodeMapOf (nodes cycleDb)) cycleA)
      with (findRootLoop fuel (nodeMapOf (nodes cycleDb)) cycleB).
    exact IHb.
  - change (findRootLoop (S fuel) (nodeMapOf (nodes cycleDb)) cycleB)
      with (findRootLoop fuel (nodeMapOf (nodes cycleDb)) cycleA).
    exact IHa.
Qed.

(** The breadcrumb walk, which keeps a visited set, returns on every
    store: one iteration per distinct node id is enough. *)
Lemma breadcrumbLoop_returns db : ∀ fuel cid visited trail,
  (size (list_to_set (node_id <$> nodes db) ∖ visited : gset string) < fuel)%nat →
  is_Some (breadcrumbLoop fuel db cid visited trail).
Proof.
  induction fuel as [|fuel IH]; intros cid visited trail Hsize; [lia|].
  simpl. destruct cid as [c|]; [|by eexists].
  destruct (negb (truthy c) || bool_decide (c ∈ visited)) eqn:Hguard; [by eexists|].
  destruct (getNode db c) as [node|] eqn:Hget; [|by eexists].
  apply IH.
  apply orb_false_elim in Hguard as [_ Hv]. apply bool_decide_eq_false in Hv.
  apply getNode_Some in Hget as [Hin Hid].
  assert (Hc : c ∈ (list_to_set (node_id <$> nodes db) : gset string)).
  { apply elem_of_list_to_set, list_elem_of_fmap. by exists node. }
  assert (Hsub : (list_to_set (node_id <$> nodes db) ∖ ({[c]} ∪ visited) : gset string)
                 ⊂ list_to_set (node_id <$> nodes db) ∖ visited).
  { split.
    - intros x. rewrite !elem_of_difference, elem_of_union. tauto.
    - intros Hrev. specialize (Hrev c).
      rewrite !elem_of_difference, elem_of_union, elem_of_singleton in Hrev. tauto. }
  apply subset_size in Hsub. lia.
Qed.

Lemma buildBreadcrumbs_returns db parentId :
  is_Some (buildBreadcrumbs
             (S (size (list_to_set (node_id <$> nodes db) : gset string))) db parentId).
Proof.
  unfold buildBreadcrumbs.
  destruct (breadcrumbLoop_returns db
              (S (size (list_to_set (node_id <$> nodes db) : gset string)))
              (Some parentId) ∅ []) as [trail ->]; [|by eexists].
  rewrite difference_empty_L. lia.
Qed.

(** C3 on the code.  On a store where two nodes name each other as
    parent, [findRootMachine] never returns, whatever the number of
    iterations allowed: it has no visited set.  The breadcrumb walk, which
    has one and returns on every store, returns after two steps on this
    one. *)
Theorem findRootMachine_cycle_diverges :
  (∀ fuel, findRootMachine fuel (nodeMapOf (nodes cycleDb)) "a" = None)
  ∧ buildBreadcrumbs 3 cycleDb "a"
    = Some [{| seg_id := None; seg_label := "Machines" |};
            {| seg_id := Some "b"; seg_label := "B" |};
            {| seg_id := Some "a"; seg_label := "A" |}].
Proof.
  split; [|reflexivity].
  intros fuel.
  change (findRootMachine fuel (nodeMapOf (nodes cycleDb)) "a")
    with (r ← findRootLoop fuel (nodeMapOf (nodes cycleDb)) cycleA;
          Some (or_else (node_id r) "a")).
  by rewrite (proj1 (findRootLoop_cycle fuel)).
Qed.

(** ** Status transitions *)

(** When the node is on the canvas on screen and the update carries a
    status that is not empty and differs from the node's, exactly one
    status change and one status-change event are appended. *)
Lemma handleUpdateNode_tracks uuid now id updates w currentNode newStatus :
  u_statusId updates = Some newStatus → newStatus ≠ "" →
  head (filter (λ n, node_id n = id) (dbNodes w)) = Some currentNode →
  node_statusId currentNode ≠ newStatus →
  let db' := wb_db (handleUpdateNode uuid now id updates w) in
  statusChanges db'
  = statusChanges (wb_db w)
    ++ [{| sc_id := uuid (wb_next w); sc_machineNodeId := id;
           sc_fromStatusId := node_statusId currentNode;
           sc_toStatusId := newStatus; sc_changedAt := now |}]
  ∧ filter (λ e, event_eventType e = ev_status_change) (events db')
    = filter (λ e, event_eventType e = ev_status_change) (events (wb_db w))
      ++ [mkEvent (uuid (S (wb_next w))) id ev_status_change now
            (Some (node_statusId currentNode)) (Some newStatus)].
Proof.
  intros Hs Hne Hcur Hdiff. simpl.
  unfold trackStatusChange, trackNoteUpdate. rewrite Hs.
  unfold truthy. rewrite bool_decide_eq_true_2 by done.
  rewrite Hcur, bool_decide_eq_true_2 by done.
  destruct (u_notes updates); simpl.
  - split; [done|]. rewrite !filter_app.
    rewrite (filter_cons_True _ (mkEvent _ _ ev_status_change _ _ _)) by done.
    rewrite (filter_cons_False _ (mkEvent _ _ ev_note_updated _ _ _)) by done.
    by rewrite !filter_nil, app_nil_r.
  - split; [done|]. rewrite !filter_app.
    by rewrite (filter_cons_True _ (mkEvent _ _ ev_status_change _ _ _)) by done.
Qed.

(** C8 on the code.  With the canvas of [a] on screen and [a] still
    selected, setting the status of [a] from running to blocked updates
    the node row and writes neither a status change nor an event. *)
Theorem handleUpdateNode_untracked_status (uuid : nat → string) (now : Z) :
  let w' := handleUpdateNode uuid now "a" (statusUpdate "blocked") insideA in
  (node_statusId <$> getNode (wb_db insideA) "a") = Some "running"
  ∧ (node_statusId <$> getNode (wb_db w') "a") = Some "blocked"
  ∧ statusChanges (wb_db w') = statusChanges (wb_db insideA)
  ∧ events (wb_db w') = events (wb_db insideA).
Proof. split_and!; reflexivity. Qed.

(** ** The scan returns on a store without cycle *)

Lemma findRootMachine_returns d nodeMap nodeId :
  acyclicWithin d nodeMap → is_Some (findRootMachine (S d) nodeMap nodeId).
Proof.
  intros Hacyc. unfold findRootMachine.
  destruct (nodeMap !! nodeId) as [n|] eqn:Hn; [|by eexists].
  destruct (Hacyc _ _ Hn) as (d' & Hle & Hd).
  destruct (findRootLoop_terminates _ _ _ Hd) as [r Hr].
  rewrite (findRootLoop_mono _ _ (S d) _ _ Hr) by lia. by eexists.
Qed.

Lemma forEach_is_Some {A B} (body : A → option (list B)) l :
  (∀ x, is_Some (body x)) → is_Some (forEach body l).
Proof.
  intros Hbody. induction l as [|x l [rs IH]]; simpl; [by eexists|].
  destruct (Hbody x) as [r Hr]. rewrite Hr, IH. by eexists.
Qed.

Lemma runScan_returns d now db :
  acyclicWithin d (nodeMapOf (nodes db)) → is_Some (runScan (S d) now db).
Proof.
  intros Hacyc.
  assert (Hroot : ∀ x, is_Some (findRootMachine (S d) (nodeMapOf (nodes db)) x)).
  { intros x. by apply findRootMachine_returns. }
  unfold runScan, detected.
  destruct (forEach_is_Some (staleProblemItem (S d) now db)
              (filter (λ p, problem_status p ≠ resolved) (problems db))) as [r1 H1].
  { intros p. unfold staleProblemItem. case_bool_decide; [by eexists|].
    destruct (Hroot (problem_machineNodeId p)) as [y ->]. by eexists. }
  destruct (forEach_is_Some (blockedMachineItem (S d) now db)
              (filter (λ n, node_statusId n = "blocked") (nodes db))) as [r2 H2].
  { intros n. unfold blockedMachineItem. case_bool_decide; [by eexists|].
    destruct (Hroot (node_id n)) as [y ->]. by eexists. }
  destruct (forEach_is_Some (unmetVCItem (S d) now db)
              (filter (λ vc, vc_met vc = false) (victoryConditions db))) as [r3 H3].
  { intros v. unfold unmetVCItem. destruct (_ !! _); [|by eexists].
    case_bool_decide; [by eexists|].
    destruct (Hroot (vc_machineNodeId v)) as [y ->]. by eexists. }
  unfold staleProblems, blockedMachines, unmetVCs.
  rewrite H1, H2, H3. by eexists.
Qed.

(** ** Duplication *)

Lemma remap_None (m : gmap string string) x : m !! x = None → remap m x = x.
Proof. intros Hx. unfold remap. by rewrite Hx. Qed.

Lemma remap_Some (m : gmap string string) x y :
  m !! x = Some y → y ≠ "" → remap m x = y.
Proof.
  intros Hx Hy. unfold remap, or_else, truthy. rewrite Hx. simpl.
  by rewrite bool_decide_eq_true_2.
Qed.

Section duplicate_facts.
Variable uuid : nat → string.
Variable now : Z.

Lemma generated_mono a b a' b' x :
  (a' ≤ a)%nat → (b ≤ b')%nat → generated uuid a b x → generated uuid a' b' x.
Proof. intros ? ? (j & ? & ->). exists j. split; [lia|done]. Qed.

Lemma grows_refl st : grows uuid st st.
Proof.
  unfold grows. split_and!; try done.
  - exists [], [], []. rewrite !app_nil_r. split_and!; done.
  - auto.
Qed.

Lemma grows_trans st1 st2 st3 :
  grows uuid st1 st2 → grows uuid st2 st3 → grows uuid st1 st3.
Proof.
  intros (Hn1 & (ns1 & es1 & vs1 & Hns1 & Hes1 & Hvs1 & Fn1 & Fe1 & Fv1)
          & Hp1 & Hs1 & Hc1 & He1 & Hd1 & Hm1)
         (Hn2 & (ns2 & es2 & vs2 & Hns2 & Hes2 & Hvs2 & Fn2 & Fe2 & Fv2)
          & Hp2 & Hs2 & Hc2 & He2 & Hd2 & Hm2).
  unfold grows. split_and!; try congruence.
  - lia.
  - exists (ns1 ++ ns2), (es1 ++ es2), (vs1 ++ vs2).
    rewrite Hns2, Hns1, Hes2, Hes1, Hvs2, Hvs1, !app_assoc.
    split_and!; try done; apply Forall_app; split.
    + eapply Forall_impl; [exact Fn1|]. intros n [Hid Hst]. split.
      * eapply generated_mono; [| |exact Hid]; lia.
      * eapply Forall_impl; [exact Hst|]. intros s Hs.
        eapply generated_mono; [| |exact Hs]; lia.
    + eapply Forall_impl; [exact Fn2|]. intros n [Hid Hst]. split.
      * eapply generated_mono; [| |exact Hid]; lia.
      * eapply Forall_impl; [exact Hst|]. intros s Hs.
        eapply generated_mono; [| |exact Hs]; lia.
    + eapply Forall_impl; [exact Fe1|]. intros e He.
      eapply generated_mono; [| |exact He]; lia.
    + eapply Forall_impl; [exact Fe2|]. intros e He.
      eapply generated_mono; [| |exact He]; lia.
    + eapply Forall_impl; [exact Fv1|]. intros v Hv.
      eapply generated_mono; [| |exact Hv]; lia.
    + eapply Forall_impl; [exact Fv2|]. intros v Hv.
      eapply generated_mono; [| |exact Hv]; lia.
  - set_solver.
  - intros x y Hxy. destruct (Hm2 x y Hxy) as [H|H].
    + destruct (Hm1 x y H) as [H'|H']; [by left|right].
      eapply generated_mono; [| |exact H']; lia.
    + right. eapply generated_mono; [| |exact H]; lia.
Qed.

Lemma grows_cloneEdge newId st e : grows uuid st (cloneEdge uuid newId st e).
Proof.
  unfold grows. simpl. split_and!; try done; [lia| |auto].
  eexists [], [_], []. rewrite !app_nil_r. split_and!; try done.
  repeat constructor. exists (c_next st). split; [lia|done].
Qed.

Lemma grows_cloneVC newId st v : grows uuid st (cloneVC uuid newId st v).
Proof.
  unfold grows. simpl. split_and!; try done; [lia| |auto].
  eexists [], [], [_]. rewrite !app_nil_r. split_and!; try done.
  repeat constructor. exists (c_next st). split; [lia|done].
Qed.

Lemma grows_foldl {A} (f : CloneState → A → CloneState) (l : list A) :
  (∀ s x, grows uuid s (f s x)) → ∀ st, grows uuid st (foldl f st l).
Proof.
  intros Hf. induction l as [|x l IH]; intros st; simpl.
  - apply grows_refl.
  - eapply grows_trans; [apply Hf|apply IH].
Qed.

Lemma grows_foldl_option {A} (g : A → CloneState → option CloneState) (l : list A) :
  (∀ x s s', g x s = Some s' → grows uuid s s') →
  ∀ st st', foldl (λ acc x, s ← acc; g x s) (Some st) l = Some st' →
            grows uuid st st'.
Proof.
  intros Hg. induction l as [|x l IH]; intros st st' Hfold; simpl in Hfold.
  - simplify_eq. apply grows_refl.
  - destruct (g x st) as [s1|] eqn:Hs1; simpl in Hfold.
    + eapply grows_trans; [by eapply Hg|by apply IH].
    + by rewrite foldl_option_None in Hfold.
Qed.

Lemma cloneSteps_generated k steps :
  Forall (λ s, generated uuid k (k + length steps) (step_id s)) (cloneSteps uuid k steps).
Proof.
  revert k. induction steps as [|s steps IH]; intros k; simpl; constructor.
  - exists k. split; [lia|done].
  - eapply Forall_impl; [apply (IH (S k))|]. intros s' Hs'.
    eapply generated_mono; [| |exact Hs']; lia.
Qed.

End duplicate_facts.

Section clone_facts.
Variable uuid : nat → string.
Variable now : Z.

Lemma cloneRecursive_S fuel nodeId newParentId st :
  cloneRecursive uuid now (S fuel) nodeId newParentId st =
  match getNode (c_db st) nodeId with
  | None => Some st
  | Some node =>
      let st1 := afterClone uuid now node nodeId newParentId st in
      st2 ← foldl (λ acc child,
                     s ← acc;
                     cloneRecursive uuid now fuel (node_id child) (uuid (c_next st)) s)
                  (Some st1) (childrenOf (c_db st1) nodeId);
      Some (foldl (cloneVC uuid (uuid (c_next st)))
              (foldl (cloneEdge uuid (uuid (c_next st))) st2
                 (filter (λ e, edge_parentId e = nodeId) (edges (c_db st2))))
              (filter (λ v, vc_machineNodeId v = nodeId)
                 (victoryConditions
                    (c_db (foldl (cloneEdge uuid (uuid (c_next st))) st2
                             (filter (λ e, edge_parentId e = nodeId)
                                (edges (c_db st2))))))))
  end.
Proof. reflexivity. Qed.

Lemma grows_afterClone node nodeId newParentId st :
  grows uuid st (afterClone uuid now node nodeId newParentId st).
Proof.
  unfold grows. simpl. split_and!; try done.
  - lia.
  - eexists [_], [], []. rewrite !app_nil_r. split_and!; try done.
    repeat constructor; simpl.
    + exists (c_next st). split; [lia|done].
    + eapply Forall_impl; [apply cloneSteps_generated|]. intros s Hs.
      eapply generated_mono; [| |exact Hs]; lia.
  - rewrite dom_insert_L. set_solver.
  - intros x y. rewrite lookup_insert. case_decide as Hx.
    + intros [= <-]. right. exists (c_next st). split; [lia|done].
    + by left.
Qed.

Lemma grows_cloneRecursive fuel : ∀ nodeId newParentId st st',
  cloneRecursive uuid now fuel nodeId newParentId st = Some st' →
  grows uuid st st'.
Proof.
  induction fuel as [|fuel IH]; intros nodeId newParentId st st' Hrun; [done|].
  rewrite cloneRecursive_S in Hrun.
  destruct (getNode (c_db st) nodeId) as [node|].
  2:{ simplify_eq. apply grows_refl. }
  cbn zeta in Hrun.
  destruct (foldl _ _ _) as [st2|] eqn:Hloop; simpl in Hrun; [|done].
  injection Hrun as <-.
  eapply grows_trans; [apply grows_afterClone|].
  eapply grows_trans.
  { eapply (grows_foldl_option uuid (λ child s,
      cloneRecursive uuid now fuel (node_id child) (uuid (c_next st)) s));
      [|exact Hloop]. intros x s s'. apply IH. }
  eapply grows_trans; apply grows_foldl.
  - apply grows_cloneEdge.
  - apply grows_cloneVC.
Qed.
End clone_facts.

(** C10.  When the identifiers that [uuid()] returns are not ids of the
    store, a duplication that returns leaves every row of every table in
    place: the node, edge and victory-condition tables only get new rows
    at their end, the other tables are unchanged, and the id of every
    new node, step, edge and victory condition is an id that no row of
    the original store carries. *)
Theorem duplicate_only_inserts
    (uuid : nat → string) (now : Z) (fuel k : nat) (db : Db)
    (machine : MachineNode) (st' : CloneState) :
  (∀ j, (k ≤ j)%nat → uuid j ∉ storeIds db) →
  duplicateMachine uuid now fuel k db machine = Some st' →
  ∃ newNodes newEdges newVCs,
    nodes (c_db st') = nodes db ++ newNodes
    ∧ edges (c_db st') = edges db ++ newEdges
    ∧ victoryConditions (c_db st') = victoryConditions db ++ newVCs
    ∧ problems (c_db st') = problems db
    ∧ statusChanges (c_db st') = statusChanges db
    ∧ captures (c_db st') = captures db
    ∧ events (c_db st') = events db
    ∧ Forall (λ n, (node_id n ∉ storeIds db)
                   ∧ Forall (λ s, step_id s ∉ storeIds db) (node_steps n)) newNodes
    ∧ Forall (λ e, edge_id e ∉ storeIds db) newEdges
    ∧ Forall (λ v, vc_id v ∉ storeIds db) newVCs.
Proof.
  intros Hfresh Hrun. unfold duplicateMachine in Hrun.
  apply grows_cloneRecursive in Hrun
    as (_ & (ns & es & vs & Hns & Hes & Hvs & Fn & Fe & Fv) & Hp & Hs & Hc & He & _).
  simpl in *.
  assert (Hgen : ∀ x, generated uuid k (c_next st') x → x ∉ storeIds db).
  { intros x (j & Hj & ->). apply Hfresh. lia. }
  exists ns, es, vs. split_and!; try done.
  - eapply Forall_impl; [exact Fn|]. intros n [Hid Hst]. split; [by apply Hgen|].
    eapply Forall_impl; [exact Hst|]. intros s. apply Hgen.
  - eapply Forall_impl; [exact Fe|]. intros e. apply Hgen.
  - eapply Forall_impl; [exact Fv|]. intros v. apply Hgen.
Qed.

Lemma sampleUuid_fresh_machineWithProcedure j :
  sampleUuid j ∉ storeIds machineWithProcedure.
Proof.
  unfold sampleUuid. intros Hin. cbn in Hin.
  repeat (apply elem_of_cons in Hin as [Hin|Hin]; [discriminate Hin|]).
  by apply elem_of_nil in Hin.
Qed.

Lemma duplicate_only_inserts_witness :
  ∃ st', duplicateMachine sampleUuid 0 3 0 machineWithProcedure rootM = Some st'
         ∧ (node_id <$> nodes (c_db st')) = ["m"; "p"; "u0"; "u1"]
         ∧ ∃ newNodes, nodes (c_db st') = nodes machineWithProcedure ++ newNodes.
Proof.
  eexists. split; [vm_compute; reflexivity|]. split; [reflexivity|].
  destruct (duplicate_only_inserts sampleUuid 0 3 0 machineWithProcedure rootM _
              (λ j _, sampleUuid_fresh_machineWithProcedure j) eq_refl)
    as (ns & _ & _ & Hn & _).
  exists ns. exact Hn.
Defined.

Section clone_edges.
Variable uuid : nat → string.
Variable now : Z.

Lemma grows_nodes st st' n :
  grows uuid st st' → n ∈ nodes (c_db st) → n ∈ nodes (c_db st').
Proof.
  intros (_ & (ns & es & vs & -> & _) & _) Hn. apply elem_of_app. by left.
Qed.

Lemma grows_edges st st' e :
  grows uuid st st' → e ∈ edges (c_db st) → e ∈ edges (c_db st').
Proof.
  intros (_ & (ns & es & vs & _ & -> & _) & _) He. apply elem_of_app. by left.
Qed.

Lemma grows_children st st' k c :
  grows uuid st st' → c ∈ childrenOf (c_db st) k → c ∈ childrenOf (c_db st') k.
Proof.
  intros Hg [Hp Hc]%childrenOf_elem. apply childrenOf_elem.
  split; [done|]. by eapply grows_nodes.
Qed.

Lemma grows_dom st st' x :
  grows uuid st st' → is_Some (c_idMap st !! x) → is_Some (c_idMap st' !! x).
Proof.
  intros (_ & _ & _ & _ & _ & _ & Hdom & _) Hx.
  apply elem_of_dom. apply Hdom. by apply elem_of_dom.
Qed.

Lemma idMap_foldl_cloneEdge newId l : ∀ s,
  c_idMap (foldl (cloneEdge uuid newId) s l) = c_idMap s.
Proof. induction l as [|e l IH]; intros s; simpl; [done|]. by rewrite IH. Qed.

Lemma idMap_foldl_cloneVC newId l : ∀ s,
  c_idMap (foldl (cloneVC uuid newId) s l) = c_idMap s.
Proof. induction l as [|e l IH]; intros s; simpl; [done|]. by rewrite IH. Qed.

(** The loop over the edges of a level clones each of them, with the
    [idMap] as it is when the loop starts. *)
Lemma foldl_cloneEdge_elem newId l : ∀ s e,
  e ∈ l →
  ∃ j, edgeClone (uuid j) newId (c_idMap s) e
       ∈ edges (c_db (foldl (cloneEdge uuid newId) s l)).
Proof.
  induction l as [|e0 l IH]; intros s e He; [by apply elem_of_nil in He|].
  simpl. apply elem_of_cons in He as [->|He].
  - exists (c_next s).
    eapply grows_edges; [apply grows_foldl, grows_cloneEdge|].
    simpl. apply elem_of_app. right. by left.
  - destruct (IH (cloneEdge uuid newId s e0) e He) as [j Hj].
    by exists j.
Qed.

Lemma getNode_is_Some db r : r ∈ nodes db → is_Some (getNode db (node_id r)).
Proof.
  intros Hr. unfold getNode.
  destruct (filter _ _) as [|a l] eqn:Hf; [|by eexists].
  assert (Hin : r ∈ filter (λ n, node_id n = node_id r) (nodes db)).
  { by apply list_elem_of_filter. }
  rewrite Hf in Hin. by apply elem_of_nil in Hin.
Qed.

Lemma cloneRecursive_inv fuel nodeId newParentId st st' node :
  cloneRecursive uuid now fuel nodeId newParentId st = Some st' →
  getNode (c_db st) nodeId = Some node →
  ∃ fuel' st2,
    fuel = S fuel'
    ∧ foldl (λ acc child,
               s ← acc;
               cloneRecursive uuid now fuel' (node_id child) (uuid (c_next st)) s)
            (Some (afterClone uuid now node nodeId newParentId st))
            (childrenOf (c_db (afterClone uuid now node nodeId newParentId st)) nodeId)
      = Some st2
    ∧ grows uuid (afterClone uuid now node nodeId newParentId st) st2
    ∧ grows uuid (foldl (cloneEdge uuid (uuid (c_next st))) st2
                    (filter (λ e, edge_parentId e = nodeId) (edges (c_db st2)))) st'
    ∧ c_idMap st' = c_idMap st2.
Proof.
  intros Hrun Hget. destruct fuel as [|fuel]; [done|].
  rewrite cloneRecursive_S, Hget in Hrun. cbn zeta in Hrun.
  destruct (foldl _ _ _) as [st2|] eqn:Hloop; simpl in Hrun; [|done].
  injection Hrun as <-.
  exists fuel, st2. split_and!; try done.
  - eapply (grows_foldl_option uuid (λ child s,
      cloneRecursive uuid now fuel (node_id child) (uuid (c_next st)) s));
      [|exact Hloop]. intros x s s'. apply grows_cloneRecursive.
  - apply grows_foldl, grows_cloneVC.
  - by rewrite idMap_foldl_cloneVC, idMap_foldl_cloneEdge.
Qed.

End clone_edges.

(** C2, as stated, fails on [externalEdgeDb].  The edge of the canvas of
    [m] has its target [o] outside the duplicated subtree ([o] is not in
    the translation map); it is cloned nevertheless, with the target kept
    and the source rewritten. *)
Lemma duplicate_external_edge_counterexample :
  ((λ st', (c_idMap st' !! "m", c_idMap st' !! "x", c_idMap st' !! "o",
            edges (c_db st')))
     <$> duplicateMachine sampleUuid 0 3 0 externalEdgeDb
           (newNode "m" "" machine "Sales" "running" 0))
  = Some (Some "u0", Some "u1", None,
          edges externalEdgeDb
          ++ [{| edge_id := "u2"; edge_parentId := "u0"; edge_source := "u1";
                 edge_target := "o"; edge_label := None;
                 edge_relationship := feeds |}]).
Proof. vm_compute. reflexivity. Qed.

(** * Further properties of the attention scan *)

(** X1. A longer wait never lowers the tier: for every threshold profile,
    ordered or not, [getSeverity] is monotone in the number of days. *)
Theorem getSeverity_monotone (d1 d2 : Z) (th : Thresholds) :
  d1 <= d2 → (tier (getSeverity d1 th) ≤ tier (getSeverity d2 th))%nat.
Proof.
  intros Hle. unfold getSeverity.
  repeat case_bool_decide; simpl; lia.
Qed.

Lemma getSeverity_monotone_witness :
  (tier (getSeverity 4 ATTENTION_THRESHOLDS.blocked)
   ≤ tier (getSeverity 9 ATTENTION_THRESHOLDS.blocked))%nat.
Proof. apply (getSeverity_monotone 4 9). lia. Defined.

(** The map of the scan against the node table. *)
Lemma nodeMapOf_snoc l n : nodeMapOf (l ++ [n]) = <[node_id n := n]> (nodeMapOf l).
Proof. unfold nodeMapOf. by rewrite foldl_app. Qed.

Lemma nodeMapOf_lookup_Some l x n :
  nodeMapOf l !! x = Some n → n ∈ l ∧ node_id n = x.
Proof.
  induction l as [|r l IH] using rev_ind; [done|].
  rewrite nodeMapOf_snoc. intros H.
  destruct (decide (node_id r = x)) as [<-|Hne].
  - rewrite lookup_insert_eq in H. simplify_eq.
    split; [|done]. apply elem_of_app. right. by apply list_elem_of_singleton.
  - rewrite lookup_insert_ne in H by done.
    destruct (IH H) as [? ?]. split; [|done]. apply elem_of_app. by left.
Qed.

Lemma nodeMapOf_lookup_None l x :
  nodeMapOf l !! x = None ↔ ∀ n, n ∈ l → node_id n ≠ x.
Proof.
  induction l as [|r l IH] using rev_ind.
  - split; [|done]. intros _ n Hn. by apply elem_of_nil in Hn.
  - rewrite nodeMapOf_snoc. split.
    + intros H n Hn.
      destruct (decide (node_id r = x)) as [<-|Hne].
      { by rewrite lookup_insert_eq in H. }
      rewrite lookup_insert_ne in H by done.
      apply elem_of_app in Hn as [Hn|Hn].
      * by apply IH.
      * apply list_elem_of_singleton in Hn. by subst.
    + intros H. rewrite lookup_insert_ne.
      * apply IH. intros n Hn. apply H, elem_of_app. by left.
      * apply H, elem_of_app. right. by apply list_elem_of_singleton.
Qed.

Lemma nodeMapOf_lookup_NoDup l r :
  NoDup (node_id <$> l) → r ∈ l → nodeMapOf l !! node_id r = Some r.
Proof.
  induction l as [|n l IH] using rev_ind.
  - intros _ Hr. by apply elem_of_nil in Hr.
  - rewrite fmap_app, nodeMapOf_snoc. intros Hnd Hr.
    apply NoDup_app in Hnd as (Hl & Hdis & _).
    apply elem_of_app in Hr as [Hr|Hr].
    + rewrite lookup_insert_ne; [by apply IH|].
      intros Heq. apply (Hdis (node_id r)).
      * by apply list_elem_of_fmap_2.
      * rewrite <- Heq. simpl. by apply list_elem_of_singleton.
    + apply list_elem_of_singleton in Hr. subst. by rewrite lookup_insert_eq.
Qed.

(** X2. The scan returns on every store whose parent links go down a
    rank: with ranks at most [d], [d + 1] rounds of root resolution are
    enough for every item. *)
Theorem runScan_returns_ranked (rank : string → nat) (d : nat) (now : Z) (db : Db) :
  (∀ r, r ∈ nodes db → (rank (node_parentId r) < rank (node_id r) ≤ d)%nat) →
  is_Some (runScan (S d) now db).
Proof.
  intros Hrank. apply runScan_returns.
  assert (Hdepth : ∀ k n, n ∈ nodes db → (rank (node_id n) ≤ k)%nat →
            ∃ d', (d' ≤ k)%nat ∧ depth (nodeMapOf (nodes db)) n d').
  { induction k as [|k IH]; intros n Hn Hk.
    - destruct (Hrank n Hn). lia.
    - destruct (decide (node_parentId n = "")) as [He|Hne].
      { exists 0%nat. split; [lia|]. by apply depth_root. }
      destruct (nodeMapOf (nodes db) !! node_parentId n) as [p|] eqn:Hp.
      + apply nodeMapOf_lookup_Some in Hp as Hp'. destruct Hp' as [Hpin Hpid].
        destruct (IH p Hpin) as (d' & Hd' & Hdep).
        { rewrite Hpid. destruct (Hrank n Hn). lia. }
        exists (S d'). split; [lia|]. by eapply depth_child.
      + exists 0%nat. split; [lia|]. by apply depth_orphan. }
  intros x n Hx. apply nodeMapOf_lookup_Some in Hx as [Hn _].
  apply Hdepth; [done|]. by destruct (Hrank n Hn).
Qed.

Lemma runScan_returns_ranked_witness : is_Some (runScan 3 (30 * day) scanDb).
Proof.
  apply (runScan_returns_ranked
           (λ x, if bool_decide (x = "m1") then 1%nat
                 else if bool_decide (x = "m2") then 2%nat else 0%nat) 2).
  intros r Hr. simpl in Hr.
  repeat (apply elem_of_cons in Hr as [->|Hr]); [vm_compute; lia..|].
  by apply elem_of_nil in Hr.
Defined.

Lemma findRootLoop_in nodeMap fuel : ∀ n top,
  findRootLoop fuel nodeMap n = Some top →
  top = n ∨ ∃ x, nodeMap !! x = Some top.
Proof.
  induction fuel as [|fuel IH]; intros n top H; simpl in H; [done|].
  destruct (truthy (node_parentId n)); [|left; congruence].
  destruct (nodeMap !! node_parentId n) as [parent|] eqn:Hp; [|left; congruence].
  right. destruct (IH parent top H) as [->|?]; eauto.
Qed.

(** X3. What [findRootMachine] returns.  When no node of the table has
    the id it was given, it returns that id.  When some node has it, it
    returns the id of a node [top] of the table that has no parent or
    whose parent is no node of the table, and that is the node of the
    given id or an ancestor of it in the map of the nodes (or again the id
    it was given, when [top] has an empty id). *)
Theorem findRootMachine_result (fuel : nat) (allNodes : list MachineNode)
    (nodeId r : string) :
  findRootMachine fuel (nodeMapOf allNodes) nodeId = Some r →
  ((∀ n, n ∈ allNodes → node_id n ≠ nodeId) → r = nodeId)
  ∧ ((∃ n, n ∈ allNodes ∧ node_id n = nodeId) →
     ∃ start top,
       nodeMapOf allNodes !! nodeId = Some start
       ∧ findRootLoop fuel (nodeMapOf allNodes) start = Some top
       ∧ top ∈ allNodes
       ∧ (node_parentId top = ""
          ∨ ∀ n, n ∈ allNodes → node_id n ≠ node_parentId top)
       ∧ r = or_else (node_id top) nodeId).
Proof.
  unfold findRootMachine. intros H.
  destruct (nodeMapOf allNodes !! nodeId) as [n|] eqn:Hn.
  - split.
    { intros Hnone. apply nodeMapOf_lookup_Some in Hn as [Hin Hid].
      by destruct (Hnone n Hin). }
    intros _.
    destruct (findRootLoop fuel (nodeMapOf allNodes) n) as [top|] eqn:Htop;
      simpl in H; [|done]. simplify_eq.
    exists n, top. split_and!; try done.
    + apply findRootLoop_in in Htop as [->|[x Hx]].
      * by apply nodeMapOf_lookup_Some in Hn as [? _].
      * by apply nodeMapOf_lookup_Some in Hx as [? _].
    + apply findRootLoop_ends in Htop as [?|Hnone]; [by left|].
      right. by apply nodeMapOf_lookup_None.
  - injection H as <-. split; [done|].
    intros (n & Hin & Hid). exfalso.
    apply (proj1 (nodeMapOf_lookup_None allNodes nodeId) Hn n Hin Hid).
Qed.

Lemma findRootMachine_result_witness :
  ∃ top, top ∈ nodes scanDb
         ∧ (node_parentId top = "" ∨ ∀ n, n ∈ nodes scanDb → node_id n ≠ node_parentId top)
         ∧ "m1" = or_else (node_id top) "m2".
Proof.
  destruct (findRootMachine_result 3 (nodes scanDb) "m2" "m1") as [_ H].
  - vm_compute. reflexivity.
  - destruct H as (start & top & _ & _ & Hin & Hend & Hr).
    + exists (newNode "m2" "m1" machine "Leads" "running" (29 * day)). split; [|done].
      apply elem_of_cons. right. apply elem_of_cons. by left.
    + by exists top.
Defined.

(** Where the items of the feed come from: every detector pushes at most
    one item for a row, and the type of an item names its detector. *)
Lemma forEach_elem_of_2 {A B} (body : A → option (list B)) l out x r y :
  forEach body l = Some out → x ∈ l → body x = Some r → y ∈ r → y ∈ out.
Proof.
  revert out. induction l as [|a l IH]; intros out H Hx Hr Hy.
  { by apply elem_of_nil in Hx. }
  simpl in H. destruct (body a) as [ra|] eqn:Hb; simpl in H; [|done].
  destruct (forEach body l) as [rs|] eqn:Hl; simpl in H; [|done]. simplify_eq.
  apply elem_of_app. apply elem_of_cons in Hx as [->|Hx].
  - left. congruence.
  - right. by apply IH.
Qed.

Lemma staleProblemItem_elem fuel now db p r it :
  staleProblemItem fuel now db p = Some r → it ∈ r →
  r = [it] ∧ item_type it = stale_problem ∧ item_nodeId it = problem_machineNodeId p.
Proof.
  unfold staleProblemItem. intros H Hit.
  case_bool_decide; [simplify_eq; by apply elem_of_nil in Hit|].
  destruct (findRootMachine _ _ _); simpl in H; [|done]. simplify_eq.
  apply list_elem_of_singleton in Hit. by subst.
Qed.

Lemma blockedMachineItem_elem fuel now db n r it :
  blockedMachineItem fuel now db n = Some r → it ∈ r →
  r = [it] ∧ item_type it = blocked_machine ∧ item_nodeId it = node_id n.
Proof.
  unfold blockedMachineItem. intros H Hit.
  case_bool_decide; [simplify_eq; by apply elem_of_nil in Hit|].
  destruct (findRootMachine _ _ _); simpl in H; [|done]. simplify_eq.
  apply list_elem_of_singleton in Hit. by subst.
Qed.

Lemma unmetVCItem_elem fuel now db v r it :
  unmetVCItem fuel now db v = Some r → it ∈ r →
  r = [it] ∧ item_type it = unmet_vc ∧ item_nodeId it = vc_machineNodeId v
  ∧ is_Some (nodeMapOf (nodes db) !! vc_machineNodeId v).
Proof.
  unfold unmetVCItem. intros H Hit.
  destruct (nodeMapOf (nodes db) !! vc_machineNodeId v) as [node|] eqn:Hn;
    [|simplify_eq; by apply elem_of_nil in Hit].
  case_bool_decide; [simplify_eq; by apply elem_of_nil in Hit|].
  destruct (findRootMachine _ _ _); simpl in H; [|done]. simplify_eq.
  apply list_elem_of_singleton in Hit. by subst.
Qed.

Lemma agingCaptures_type now db it :
  it ∈ agingCaptures now db → item_type it = aging_capture.
Proof.
  unfold agingCaptures. intros Hit.
  destruct (map _ _); [by apply elem_of_nil in Hit|].
  case_bool_decide; [|by apply elem_of_nil in Hit].
  apply list_elem_of_singleton in Hit. by subst.
Qed.

Lemma staleNodes_type now db it : it ∈ staleNodes now db → item_type it = stale_node.
Proof.
  intros Hit. apply staleNodes_elem in Hit as (n & _ & _ & _ & _ & _ & Hn).
  apply (staleNodeItem_type now n). rewrite Hn. by apply list_elem_of_singleton.
Qed.

Lemma detected_origin fuel now db results it :
  detected fuel now db = Some results → it ∈ results →
  match item_type it with
  | stale_problem =>
      ∃ p, p ∈ problems db ∧ problem_status p ≠ resolved
           ∧ staleProblemItem fuel now db p = Some [it]
  | blocked_machine =>
      ∃ n, n ∈ nodes db ∧ node_statusId n = "blocked"
           ∧ blockedMachineItem fuel now db n = Some [it]
           ∧ item_nodeId it = node_id n
  | unmet_vc =>
      ∃ v, v ∈ victoryConditions db ∧ vc_met v = false
           ∧ unmetVCItem fuel now db v = Some [it]
           ∧ is_Some (nodeMapOf (nodes db) !! item_nodeId it)
  | stale_node => it ∈ staleNodes now db
  | aging_capture => it ∈ agingCaptures now db
  end.
Proof.
  unfold detected. intros H Hit.
  destruct (staleProblems fuel now db) as [r1|] eqn:H1; simpl in H; [|done].
  destruct (blockedMachines fuel now db) as [r2|] eqn:H2; simpl in H; [|done].
  destruct (unmetVCs fuel now db) as [r3|] eqn:H3; simpl in H; [|done].
  simplify_eq.
  apply elem_of_app in Hit as [Hit|Hit]; [|apply elem_of_app in Hit as [Hit|Hit];
    [|apply elem_of_app in Hit as [Hit|Hit]; [|apply elem_of_app in Hit as [Hit|Hit]]]].
  - destruct (forEach_elem_of _ _ _ _ H1 Hit) as (p & r & Hp & Hr & Hin).
    apply list_elem_of_filter in Hp as [Hst Hp].
    destruct (staleProblemItem_elem _ _ _ _ _ _ Hr Hin) as (-> & -> & _). eauto.
  - destruct (forEach_elem_of _ _ _ _ H2 Hit) as (n & r & Hn & Hr & Hin).
    apply list_elem_of_filter in Hn as [Hst Hn].
    destruct (blockedMachineItem_elem _ _ _ _ _ _ Hr Hin) as (-> & -> & ?). eauto.
  - destruct (forEach_elem_of _ _ _ _ H3 Hit) as (v & r & Hv & Hr & Hin).
    apply list_elem_of_filter in Hv as [Hst Hv].
    destruct (unmetVCItem_elem _ _ _ _ _ _ Hr Hin) as (-> & -> & Hid & Hsome).
    rewrite Hid. eauto.
  - by rewrite (staleNodes_type now db it Hit).
  - by rewrite (agingCaptures_type now db it Hit).
Qed.

Lemma runScan_perm fuel now db out :
  runScan fuel now db = Some out →
  ∃ results, detected fuel now db = Some results ∧ ∀ it, it ∈ out ↔ it ∈ results.
Proof.
  unfold runScan. intros H.
  destruct (detected fuel now db) as [results|]; simpl in H; [|done]. simplify_eq.
  exists results. split; [done|]. intros it. by rewrite (sortBy_perm compareItems results).
Qed.

(** X4. With unique node ids no node is counted twice as stuck: the feed
    never holds both a blocked-machine item and a stale-node item for the
    same node. *)
Theorem runScan_blocked_or_stale (fuel : nat) (now : Z) (db : Db)
    (out : list AttentionItem) (a b : AttentionItem) :
  NoDup (node_id <$> nodes db) →
  runScan fuel now db = Some out →
  a ∈ out → item_type a = blocked_machine →
  b ∈ out → item_type b = stale_node →
  item_nodeId a ≠ item_nodeId b.
Proof.
  intros Hnd Hrun Ha Hta Hb Htb Heq.
  destruct (runScan_perm _ _ _ _ Hrun) as (results & Hdet & Hperm).
  apply Hperm in Ha, Hb.
  pose proof (detected_origin _ _ _ _ _ Hdet Ha) as Oa. rewrite Hta in Oa.
  pose proof (detected_origin _ _ _ _ _ Hdet Hb) as Ob. rewrite Htb in Ob.
  destruct Oa as (n & Hn & Hblocked & _ & Hida).
  apply staleNodes_elem in Ob as (n' & Hn' & _ & _ & _ & Hnot & Hitem).
  assert (Hidb : item_nodeId b = node_id n').
  { unfold staleNodeItem in Hitem. repeat case_bool_decide; simplify_eq. done. }
  assert (n = n'); [|by subst].
  assert (Hg : getNode db (node_id n) = Some n) by by apply getNode_row.
  assert (Hg' : getNode db (node_id n') = Some n') by by apply getNode_row.
  congruence.
Qed.

Lemma runScan_blocked_or_stale_witness :
  ∃ out a b, runScan 3 (30 * day) stuckDb = Some out
             ∧ out !! 0%nat = Some a ∧ item_type a = blocked_machine
             ∧ out !! 1%nat = Some b ∧ item_type b = stale_node
             ∧ item_nodeId a ≠ item_nodeId b.
Proof.
  eexists _, _, _.
  split; [vm_compute; reflexivity|].
  split; [reflexivity|]. split; [reflexivity|].
  split; [reflexivity|]. split; [reflexivity|].
  eapply (runScan_blocked_or_stale 3 (30 * day) stuckDb).
  - apply (bool_decide_unpack _). vm_compute. exact I.
  - vm_compute. reflexivity.
  - apply elem_of_cons. left. reflexivity.
  - reflexivity.
  - apply elem_of_cons. right. apply elem_of_cons. left. reflexivity.
  - reflexivity.
Defined.
Lemma foldl_max_spec (l : list Z) : ∀ a,
  (∀ x, x ∈ a :: l → x <= foldl Z.max a l) ∧ foldl Z.max a l ∈ a :: l.
Proof.
  induction l as [|b l IH]; intros a; simpl.
  - split; [|by apply elem_of_cons; left].
    intros x Hx. apply list_elem_of_singleton in Hx. lia.
  - destruct (IH (Z.max a b)) as [Hle Hin]. split.
    + intros x Hx. apply elem_of_cons in Hx as [->|Hx].
      * transitivity (Z.max a b); [lia|]. apply Hle. by apply elem_of_cons; left.
      * apply elem_of_cons in Hx as [->|Hx].
        -- transitivity (Z.max a b); [lia|]. apply Hle. by apply elem_of_cons; left.
        -- apply Hle. by apply elem_of_cons; right.
    + apply elem_of_cons in Hin as [Heq|Hin].
      * rewrite Heq. destruct (Z.max_spec a b) as [[_ ->]|[_ ->]].
        -- apply elem_of_cons; right. by apply elem_of_cons; left.
        -- by apply elem_of_cons; left.
      * apply elem_of_cons; right. by apply elem_of_cons; right.
Qed.

Lemma elem_of_map {A B} (f : A → B) (l : list A) (y : B) :
  y ∈ map f l ↔ ∃ x, x ∈ l ∧ f x = y.
Proof.
  rewrite list_elem_of_In, in_map_iff. split.
  - intros (x & ? & ?). exists x. by rewrite list_elem_of_In.
  - intros (x & ? & ?). exists x. by rewrite <- list_elem_of_In.
Qed.

(** X5. The captures of the inbox give at most one item.  There is none
    exactly when every unprocessed capture is less than a day old; the
    item carries the age of the oldest unprocessed capture, the tier of
    that age, and the number of unprocessed captures in its title. *)
Theorem agingCaptures_oldest (now : Z) (db : Db) :
  let pending := filter (λ c, capture_processed c = false) (captures db) in
  (agingCaptures now db = []
   ↔ ∀ c, c ∈ pending → daysSince now (capture_createdAt c) < 1)
  ∧ ∀ it, it ∈ agingCaptures now db →
      agingCaptures now db = [it]
      ∧ (∀ c, c ∈ pending → daysSince now (capture_createdAt c) <= item_ageDays it)
      ∧ (∃ c, c ∈ pending ∧ daysSince now (capture_createdAt c) = item_ageDays it)
      ∧ item_severity it = getSeverity (item_ageDays it) ATTENTION_THRESHOLDS.capture
      ∧ item_title it
        = pretty (length pending) +:+ " unprocessed capture"
          +:+ (if bool_decide (1 < length pending)%nat then "s" else "").
Proof.
  intros pending. unfold agingCaptures.
  rewrite (filter_filter_absorb _ _ (captures db)) by done.
  fold pending.
  destruct (map (λ c, daysSince now (capture_createdAt c)) pending) as [|a ages] eqn:Hages.
  { assert (pending = []) as -> by (by destruct pending).
    split.
    - split; [|done]. intros _ c Hc. by apply elem_of_nil in Hc.
    - intros it Hit. by apply elem_of_nil in Hit. }
  destruct (foldl_max_spec ages a) as [Hmax Hin].
  set (oldest := foldl Z.max a ages) in *.
  assert (Hall : ∀ c, c ∈ pending → daysSince now (capture_createdAt c) <= oldest).
  { intros c Hc. apply Hmax. rewrite <- Hages. apply elem_of_map. eauto. }
  assert (Hex : ∃ c, c ∈ pending ∧ daysSince now (capture_createdAt c) = oldest).
  { rewrite <- Hages in Hin. by apply elem_of_map in Hin. }
  split.
  - case_bool_decide as Hsev.
    + split; [done|]. intros Hlt. exfalso. apply Hsev.
      destruct Hex as (c & Hc & <-). specialize (Hlt c Hc).
      unfold getSeverity. simpl. repeat case_bool_decide; try done; lia.
    + split; [|done]. intros _ c Hc. specialize (Hall c Hc).
      revert Hsev. unfold getSeverity. simpl.
      repeat case_bool_decide; try done. lia.
  - intros it Hit. case_bool_decide; [|by apply elem_of_nil in Hit].
    apply list_elem_of_singleton in Hit. subst it. simpl. done.
Qed.

Lemma agingCaptures_oldest_witness :
  ∃ it, agingCaptures (30 * day) scanDb = [it]
        ∧ item_severity it = getSeverity (item_ageDays it) ATTENTION_THRESHOLDS.capture.
Proof.
  destruct (agingCaptures (30 * day) scanDb) as [|it l] eqn:E;
    [vm_compute in E; discriminate|].
  exists it.
  destruct (proj2 (agingCaptures_oldest (30 * day) scanDb) it) as (H1 & _ & _ & H4 & _).
  - rewrite E. apply elem_of_cons. by left.
  - rewrite E in H1. split; [exact H1|exact H4].
Defined.
Lemma daysSince_antitone now d d' : d' <= d → daysSince now d <= daysSince now d'.
Proof. intros H. unfold daysSince. apply Z.div_le_mono; lia. Qed.

(** X6. The age of a blocked machine counts from its most recent change
    to blocked: [lastBlocked] finds a change of the node to blocked
    exactly when the table has one, the one it finds is the latest, and
    so [blockedAge] is at most the age of any such change. *)
Theorem lastBlocked_most_recent (db : Db) (node : MachineNode) :
  let toBlocked := λ sc, sc_machineNodeId sc = node_id node ∧ sc_toStatusId sc = "blocked" in
  (lastBlocked db node = None ↔ ∀ sc, sc ∈ statusChanges db → ¬ toBlocked sc)
  ∧ (∀ sc, lastBlocked db node = Some sc →
       sc ∈ statusChanges db ∧ toBlocked sc
       ∧ ∀ sc', sc' ∈ statusChanges db → toBlocked sc' →
                sc_changedAt sc' <= sc_changedAt sc)
  ∧ (∀ now sc', sc' ∈ statusChanges db → toBlocked sc' →
       blockedAge now db node <= daysSince now (sc_changedAt sc')).
Proof.
  intros toBlocked.
  set (cmp := λ a b : StatusChange, sc_changedAt b - sc_changedAt a).
  set (L := filter toBlocked (statusChanges db)).
  assert (Hperm : sortBy cmp L ≡ₚ L) by apply sortBy_perm.
  assert (Hsorted : StronglySorted (λ a b, cmp a b <= 0) (sortBy cmp L)).
  { apply sortBy_sorted; unfold cmp; intros; lia. }
  assert (Hlast : lastBlocked db node = head (sortBy cmp L)) by done.
  assert (Hsome : ∀ sc, lastBlocked db node = Some sc →
            sc ∈ statusChanges db ∧ toBlocked sc
            ∧ ∀ sc', sc' ∈ statusChanges db → toBlocked sc' →
                     sc_changedAt sc' <= sc_changedAt sc).
  { intros sc Hsc. rewrite Hlast in Hsc.
    destruct (sortBy cmp L) as [|s S'] eqn:HS; simpl in Hsc; [done|]. simplify_eq.
    assert (Hin : sc ∈ L). { rewrite <- Hperm. by apply elem_of_cons; left. }
    apply list_elem_of_filter in Hin as [HP Hin]. split; [done|]. split; [done|].
    intros sc' Hin' HP'.
    assert (Hsc' : sc' ∈ sc :: S').
    { rewrite Hperm. by apply list_elem_of_filter. }
    apply StronglySorted_inv in Hsorted as [_ Hall].
    apply elem_of_cons in Hsc' as [->|Hsc']; [lia|].
    rewrite Forall_forall in Hall. specialize (Hall sc' Hsc'). unfold cmp in Hall. lia. }
  assert (Hnone : lastBlocked db node = None ↔ ∀ sc, sc ∈ statusChanges db → ¬ toBlocked sc).
  { rewrite Hlast. split.
    - intros Hh sc Hin HP.
      assert (Hsc : sc ∈ sortBy cmp L). { rewrite Hperm. by apply list_elem_of_filter. }
      destruct (sortBy cmp L); [by apply elem_of_nil in Hsc|done].
    - intros Hall. destruct (sortBy cmp L) as [|s S'] eqn:HS; [done|].
      exfalso. assert (Hin : s ∈ L). { rewrite <- Hperm. by apply elem_of_cons; left. }
      apply list_elem_of_filter in Hin as [HP Hin]. by apply (Hall s). }
  split; [done|]. split; [done|].
  intros now sc' Hin' HP'. unfold blockedAge.
  destruct (lastBlocked db node) as [sc|] eqn:Hsc.
  - destruct (Hsome sc eq_refl) as (_ & _ & Hmax).
    apply daysSince_antitone. by apply Hmax.
  - exfalso. by apply (proj1 Hnone eq_refl sc').
Qed.

Lemma lastBlocked_most_recent_witness :
  blockedAge (30 * day) stuckDb (newNode "m2" "m1" machine "Leads" "blocked" (29 * day))
  <= daysSince (30 * day) (20 * day).
Proof.
  apply (proj2 (proj2 (lastBlocked_most_recent stuckDb
           (newNode "m2" "m1" machine "Leads" "blocked" (29 * day)))) (30 * day)
           {| sc_id := "s1"; sc_machineNodeId := "m2"; sc_fromStatusId := "running";
              sc_toStatusId := "blocked"; sc_changedAt := 20 * day |}).
  - apply elem_of_cons. by left.
  - split; reflexivity.
Defined.

(** X7. Rows that point at a node that is gone.  An unresolved problem of
    three days or more still gets its item when no node has its
    [machineNodeId]: the item names that id as its machine and says
    [Unknown] for the node.  An unmet victory condition gets an item only
    if its node is in the table. *)
Theorem runScan_dangling_rows (fuel : nat) (now : Z) (db : Db) (out : list AttentionItem) :
  runScan fuel now db = Some out →
  (∀ p, p ∈ problems db → problem_status p ≠ resolved →
        (∀ n, n ∈ nodes db → node_id n ≠ problem_machineNodeId p) →
        3 <= daysSince now (problem_createdAt p) →
        ∃ it, it ∈ out ∧ item_id it = "prob-" +:+ problem_id p
              ∧ item_type it = stale_problem
              ∧ item_nodeId it = problem_machineNodeId p
              ∧ item_machineId it = problem_machineNodeId p
              ∧ item_subtitle it
                = "Open " +:+ pretty (daysSince now (problem_createdAt p))
                  +:+ "d on Unknown")
  ∧ (∀ it, it ∈ out → item_type it = unmet_vc →
           ∃ n, n ∈ nodes db ∧ node_id n = item_nodeId it).
Proof.
  intros Hrun.
  destruct (runScan_perm _ _ _ _ Hrun) as (results & Hdet & Hperm).
  split.
  - intros p Hp Hst Hno Hage.
    apply nodeMapOf_lookup_None in Hno.
    assert (Hitem : ∃ it, staleProblemItem fuel now db p = Some [it]
              ∧ item_id it = "prob-" +:+ problem_id p
              ∧ item_type it = stale_problem
              ∧ item_nodeId it = problem_machineNodeId p
              ∧ item_machineId it = problem_machineNodeId p
              ∧ item_subtitle it
                = "Open " +:+ pretty (daysSince now (problem_createdAt p))
                  +:+ "d on Unknown").
    { unfold staleProblemItem, findRootMachine. rewrite Hno. simpl.
      case_bool_decide as Hsev.
      - exfalso. revert Hsev. unfold getSeverity. simpl.
        repeat case_bool_decide; try done. lia.
      - eexists. split; [reflexivity|]. simpl. done. }
    destruct Hitem as (it & Hit & Hrest). exists it. split; [|done].
    apply Hperm. unfold detected in Hdet.
    destruct (staleProblems fuel now db) as [r1|] eqn:H1; simpl in Hdet; [|done].
    destruct (blockedMachines fuel now db) as [r2|]; simpl in Hdet; [|done].
    destruct (unmetVCs fuel now db) as [r3|]; simpl in Hdet; [|done].
    simplify_eq. apply elem_of_app. left.
    eapply (forEach_elem_of_2 _ _ _ p [it]); [exact H1| |exact Hit|by apply elem_of_cons; left].
    by apply list_elem_of_filter.
  - intros it Hit Hty. apply Hperm in Hit.
    pose proof (detected_origin _ _ _ _ _ Hdet Hit) as O. rewrite Hty in O.
    destruct O as (v & _ & _ & _ & [n Hn]).
    apply nodeMapOf_lookup_Some in Hn as [? ?]. eauto.
Qed.

Lemma runScan_dangling_rows_witness :
  ∃ out, runScan 1 (10 * day) danglingDb = Some out
         ∧ ∃ it, it ∈ out ∧ item_machineId it = "gone"
                 ∧ item_subtitle it = "Open 10d on Unknown".
Proof.
  destruct (runScan 1 (10 * day) danglingDb) as [out|] eqn:E;
    [|vm_compute in E; discriminate].
  exists out. split; [done|].
  destruct (proj1 (runScan_dangling_rows 1 (10 * day) danglingDb out E) danglingProblem)
    as (it & Hin & _ & _ & _ & Hm & Hs).
  - apply elem_of_cons. by left.
  - done.
  - intros n Hn. by apply elem_of_nil in Hn.
  - assert (daysSince (10 * day) (problem_createdAt danglingProblem) = 10) as ->
      by (vm_compute; reflexivity).
    lia.
  - exists it. split; [done|]. split; [exact Hm|exact Hs].
Defined.

(** * Further properties of the history tracker *)

(** X8. The two stacks together never hold more than [MAX_HISTORY] states,
    in any state the hook can reach: [redo] pushes on [past] without
    slicing, but what it pushes it has taken from [future]. *)
Theorem history_stacks_bounded (h : History) :
  reachable h →
  (length (past h) + length (future h) ≤ MAX_HISTORY)%nat
  ∧ (length (past (redo h)) ≤ MAX_HISTORY)%nat
  ∧ (length (future (undo h)) ≤ MAX_HISTORY)%nat.
Proof.
  intros Hr.
  pose proof (reachable_bounded h Hr) as Hh.
  pose proof (reachable_bounded (redo h) (reachable_step _ _ Hr (step_redo h))) as Hredo.
  pose proof (reachable_bounded (undo h) (reachable_step _ _ Hr (step_undo h))) as Hundo.
  lia.
Qed.

Lemma history_stacks_bounded_witness :
  (length (past afterUndo) + length (future afterUndo) ≤ MAX_HISTORY)%nat.
Proof. exact (proj1 (history_stacks_bounded afterUndo reachable_afterUndo)). Defined.

Lemma takeSnapshot_flow h : flow (takeSnapshot h) = flow h.
Proof. unfold takeSnapshot. destruct (isUndoRedo h); [done|]. by case_bool_decide. Qed.

Lemma setFlow_same h : setFlow (flow h) h = h.
Proof. by destruct h. Qed.

(** X9. A snapshot of a canvas that did not change is recorded once:
    [takeSnapshot] is idempotent, and taking a snapshot of the same state
    any number of times in a row leaves the history as after the first. *)
Theorem takeSnapshot_once (h : History) (s : FlowState) (n : nat) :
  takeSnapshot (takeSnapshot h) = takeSnapshot h
  ∧ pushSnapshots (replicate (S n) s) h = takeSnapshot (setFlow s h).
Proof.
  assert (Hidem : ∀ h, takeSnapshot (takeSnapshot h) = takeSnapshot h).
  { clear. intros h. unfold takeSnapshot at 2 3.
    destruct (isUndoRedo h) eqn:Hflag.
    - unfold takeSnapshot. by rewrite Hflag.
    - case_bool_decide as Hkey.
      + unfold takeSnapshot. rewrite Hflag. by rewrite bool_decide_eq_true_2.
      + unfold takeSnapshot. simpl. by rewrite bool_decide_eq_true_2. }
  split; [apply Hidem|].
  revert h. induction n as [|n IH]; intros h; [done|].
  change (replicate (S (S n)) s) with (s :: replicate (S n) s).
  rewrite pushSnapshots_cons, IH.
  assert (Hs : flow (takeSnapshot (setFlow s h)) = s) by by rewrite takeSnapshot_flow.
  rewrite <- Hs at 1. by rewrite setFlow_same, Hidem.
Qed.

(** X10. Redo followed by undo gives back the state and both stacks:
    with a state to redo, [undo (redo h)] is [h] with the replay flag
    set. *)
Theorem undo_redo (h : History) :
  future h ≠ [] →
  undo (redo h)
  = {| flow := flow h; past := past h; future := future h;
       isUndoRedo := true; lastSaved := lastSaved h |}.
Proof.
  intros Hf. unfold redo.
  destruct (last (future h)) as [next|] eqn:Hl.
  - unfold undo. simpl. rewrite last_snoc. simpl.
    by rewrite sliceInit_snoc, (sliceInit_last _ _ Hl).
  - apply last_None in Hl. done.
Qed.

Lemma undo_redo_witness :
  undo (redo afterUndo)
  = {| flow := flow afterUndo; past := past afterUndo; future := future afterUndo;
       isUndoRedo := true; lastSaved := lastSaved afterUndo |}.
Proof. apply (undo_redo afterUndo). vm_compute. discriminate. Defined.

(** X11. A recorded snapshot ends the redo history: when [takeSnapshot]
    records, [redo] does nothing afterwards; when it skips (replay in
    progress, or same fingerprint as the last record), the redo stack is
    left as it was. *)
Theorem takeSnapshot_redo (h : History) :
  (isUndoRedo h = false → lastSaved h ≠ Some (fingerprint (flow h)) →
   redo (takeSnapshot h) = takeSnapshot h)
  ∧ (isUndoRedo h = true ∨ lastSaved h = Some (fingerprint (flow h)) →
     takeSnapshot h = h).
Proof.
  split.
  - intros Hflag Hkey. by rewrite (takeSnapshot_records h Hflag Hkey).
  - intros [Hflag|Hkey]; unfold takeSnapshot.
    + by rewrite Hflag.
    + destruct (isUndoRedo h); [done|]. by rewrite bool_decide_eq_true_2.
Qed.

Lemma takeSnapshot_redo_witness :
  redo (takeSnapshot (setFlow (flowAt 2) afterUndo))
  = takeSnapshot (setFlow (flowAt 2) afterUndo).
Proof.
  apply (proj1 (takeSnapshot_redo (setFlow (flowAt 2) afterUndo))).
  - reflexivity.
  - vm_compute. discriminate.
Defined.

(** * Further properties of the two delete paths *)

(** X12. What the recursive delete of the dashboard removes, on a store
    with unique node ids: it returns whenever the walk over the subtree
    does, and then it has removed exactly the nodes of the subtree, the
    edges they own and the problems, victory conditions and status
    changes keyed to them.  Every other row of these tables is kept, no
    kept node has a removed parent, and captures and events are not
    touched (also those of the removed nodes). *)
Theorem deleteRecursive_removes_exactly (fuel : nat) (db : Db) (n : string) (L : list string) :
  NoDup (node_id <$> nodes db) → subtree fuel db n = Some L →
  ∃ db', deleteRecursive fuel db n = Some db'
    ∧ (∀ r, r ∈ nodes db' ↔ r ∈ nodes db ∧ node_id r ∉ L)
    ∧ (∀ r, r ∈ nodes db' → node_parentId r ∉ L)
    ∧ (∀ e, e ∈ edges db' ↔ e ∈ edges db ∧ edge_parentId e ∉ L)
    ∧ (∀ p, p ∈ problems db' ↔ p ∈ problems db ∧ problem_machineNodeId p ∉ L)
    ∧ (∀ v, v ∈ victoryConditions db'
            ↔ v ∈ victoryConditions db ∧ vc_machineNodeId v ∉ L)
    ∧ (∀ c, c ∈ statusChanges db' ↔ c ∈ statusChanges db ∧ sc_machineNodeId c ∉ L)
    ∧ captures db' = captures db
    ∧ events db' = events db.
Proof.
  intros Hnd HL.
  pose proof (deleteRecursive_subtree fuel db n L Hnd HL) as Hdel.
  exists (deleteAll L db). split; [done|].
  destruct (deleteRecursive_removes_subtree fuel db n L _ Hnd HL Hdel) as (Hnodes & _).
  split_and!; try done;
    try (intros ?; unfold deleteAll; simpl; rewrite list_elem_of_filter; tauto).
  intros r Hr. by destruct (Hnodes r Hr).
Qed.

Lemma deleteRecursive_removes_exactly_witness :
  ∃ db', deleteRecursive 4 deepDb "a" = Some db'
         ∧ (∀ r, r ∈ nodes db' ↔ r ∈ nodes deepDb ∧ node_id r ∉ ["a"; "b"; "c"; "b2"])
         ∧ events db' = events deepDb.
Proof.
  destruct (deleteRecursive_removes_exactly 4 deepDb "a" ["a"; "b"; "c"; "b2"])
    as (db' & Hdel & Hnodes & _ & _ & _ & _ & _ & _ & Hev).
  - apply (bool_decide_unpack _). vm_compute. exact I.
  - vm_compute. reflexivity.
  - exists db'. split; [exact Hdel|]. split; [exact Hnodes|exact Hev].
Defined.

(** X13. The dry run and the delete both return on a store with unique
    node ids whose parent links go up a rank: as many rounds as the rank
    of the target, plus one, are enough. *)
Theorem delete_returns_ranked (db : Db) (rank : string → nat) (m : MachineNode) :
  NoDup (node_id <$> nodes db) →
  (∀ r, r ∈ nodes db → (rank (node_id r) < rank (node_parentId r))%nat) →
  is_Some (prepareDelete (S (rank (node_id m))) db m)
  ∧ is_Some (confirmDelete (S (rank (node_id m))) db (Some m)).
Proof.
  intros Hnd Hrank. split; [by apply prepareDelete_returns|].
  destruct (subtree_returns db rank Hrank (S (rank (node_id m))) (node_id m)) as [L HL];
    [lia|].
  unfold confirmDelete. rewrite (deleteRecursive_subtree _ _ _ _ Hnd HL). by eexists.
Qed.

Lemma delete_returns_ranked_witness :
  is_Some (prepareDelete 3 deepDb (newNode "a" "m" machine "Leads" "running" 0))
  ∧ is_Some (confirmDelete 3 deepDb (Some (newNode "a" "m" machine "Leads" "running" 0))).
Proof.
  set (rank := λ x : string,
         if bool_decide (x = "c") then 0%nat
         else if bool_decide (x = "b") then 1%nat
         else if bool_decide (x = "b2") then 1%nat
         else if bool_decide (x = "a") then 2%nat
         else if bool_decide (x = "m") then 3%nat else 4%nat).
  assert (Hnd : NoDup (node_id <$> nodes deepDb)).
  { apply (bool_decide_unpack _). vm_compute. exact I. }
  assert (Hrank : ∀ r, r ∈ nodes deepDb → (rank (node_id r) < rank (node_parentId r))%nat).
  { intros r Hr. simpl in Hr.
    repeat (apply elem_of_cons in Hr as [->|Hr]); [vm_compute; lia..|].
    by apply elem_of_nil in Hr. }
  exact (delete_returns_ranked deepDb rank
           (newNode "a" "m" machine "Leads" "running" 0) Hnd Hrank).
Defined.

Lemma foldl_filter_key {A B} (key : A → string) (g : B → string) (cs : list B) :
  ∀ rows : list A,
    foldl (λ rs c, filter (λ a, key a ≠ g c) rs) rows cs
    = filter (λ a, key a ∉ g <$> cs) rows.
Proof.
  induction cs as [|c cs IH]; intros rows; simpl.
  - symmetry. apply filter_all. intros a Ha. by apply elem_of_nil in Ha.
  - rewrite IH, filter_comm.
    by rewrite (filter_ne_not_elem key (g c) (g <$> cs) rows).
Qed.

(** X14. What the delete of the canvas removes: the node, every node that
    has it as parent, every edge that shares its id with an edge from or
    to the node, and the problems and victory conditions keyed to the
    node.  So afterwards no node has the id or names it as parent and no
    edge starts or ends at it; one [node-deleted] event is appended;
    status changes and captures are left as they were. *)
Theorem handleDeleteNode_removes (uuid : nat → string) (now : Z) (nodeId : string)
    (w : Whiteboard) :
  let db := wb_db w in
  let db' := wb_db (handleDeleteNode uuid now nodeId w) in
  (∀ r, r ∈ nodes db'
        ↔ r ∈ nodes db ∧ node_id r ≠ nodeId
          ∧ ∀ c, c ∈ nodes db → node_parentId c = nodeId → node_id r ≠ node_id c)
  ∧ (∀ r, r ∈ nodes db' → node_id r ≠ nodeId ∧ node_parentId r ≠ nodeId)
  ∧ (∀ e, e ∈ edges db'
          ↔ e ∈ edges db
            ∧ ∀ e0, e0 ∈ edges db → edge_source e0 = nodeId ∨ edge_target e0 = nodeId →
                    edge_id e ≠ edge_id e0)
  ∧ (∀ e, e ∈ edges db' → edge_source e ≠ nodeId ∧ edge_target e ≠ nodeId)
  ∧ problems db' = filter (λ p, problem_machineNodeId p ≠ nodeId) (problems db)
  ∧ victoryConditions db'
    = filter (λ v, vc_machineNodeId v ≠ nodeId) (victoryConditions db)
  ∧ statusChanges db' = statusChanges db
  ∧ captures db' = captures db
  ∧ events db'
    = events db ++ [mkEvent (uuid (wb_next w)) nodeId ev_node_deleted now None None].
Proof.
  intros db db'.
  assert (Hnodes : ∀ r, r ∈ nodes db'
            ↔ r ∈ nodes db ∧ node_id r ≠ nodeId
              ∧ ∀ c, c ∈ nodes db → node_parentId c = nodeId → node_id r ≠ node_id c).
  { intros r. unfold db', handleDeleteNode. simpl. fold db.
    rewrite (foldl_filter_key node_id node_id), !list_elem_of_filter. split.
    - intros (Hne & Hnot & Hr). split; [done|]. split; [done|].
      intros c Hc Hp Heq. apply Hnot. rewrite Heq. apply list_elem_of_fmap_2.
      by apply childrenOf_elem.
    - intros (Hr & Hne & Hch). split; [done|]. split; [|done].
      intros Hin. apply list_elem_of_fmap in Hin as (c & Heq & Hc).
      apply childrenOf_elem in Hc as [Hp Hc]. by apply (Hch c). }
  assert (Hedges : ∀ e, e ∈ edges db'
            ↔ e ∈ edges db
              ∧ ∀ e0, e0 ∈ edges db → edge_source e0 = nodeId ∨ edge_target e0 = nodeId →
                      edge_id e ≠ edge_id e0).
  { intros e. unfold db', handleDeleteNode, deleteEdgesWhere. simpl. fold db.
    rewrite (foldl_filter_key edge_id edge_id), !list_elem_of_filter. split.
    - intros (Hnot & He). split; [done|].
      intros e0 He0 Hends Heq. apply Hnot. rewrite Heq. apply list_elem_of_fmap_2.
      by apply list_elem_of_filter.
    - intros (He & Hall). split; [|done].
      intros Hin. apply list_elem_of_fmap in Hin as (e0 & Heq & He0).
      apply list_elem_of_filter in He0 as [Hends He0]. by apply (Hall e0). }
  split_and!; try done.
  - intros r Hr. apply Hnodes in Hr as (Hr & Hne & Hch). split; [done|].
    intros Hp. by apply (Hch r).
  - intros e He. apply Hedges in He as (He & Hall).
    split; intros Hs; by apply (Hall e); auto.
Qed.

(** * Duplication: the clones mirror the subtree *)

Lemma setAll_app ps qs m : setAll (ps ++ qs) m = setAll qs (setAll ps m).
Proof. unfold setAll. by rewrite foldl_app. Qed.

Lemma setAll_dom ps : ∀ m, dom (setAll ps m) = list_to_set ps.*1 ∪ dom m.
Proof.
  induction ps as [|[x n] ps IH]; intros m.
  - simpl. by rewrite (left_id_L ∅ (∪)).
  - change (setAll ((x, n) :: ps) m) with (setAll ps (<[x := node_id n]> m)).
    rewrite IH, dom_insert_L. simpl.
    rewrite !(assoc_L (∪)). by rewrite (comm_L (∪) (list_to_set ps.*1) {[x]}).
Qed.

Lemma setAll_lookup_notin ps : ∀ m x, x ∉ ps.*1 → setAll ps m !! x = m !! x.
Proof.
  induction ps as [|[y n] ps IH]; intros m x Hx; [done|].
  unfold setAll in *. simpl in *.
  apply not_elem_of_cons in Hx as [Hne Hx].
  rewrite IH by done. by rewrite lookup_insert_ne.
Qed.

Lemma setAll_lookup ps : ∀ m x n,
  NoDup ps.*1 → (x, n) ∈ ps → setAll ps m !! x = Some (node_id n).
Proof.
  induction ps as [|[y n'] ps IH]; intros m x n Hnd Hin.
  { by apply elem_of_nil in Hin. }
  simpl in Hnd. apply NoDup_cons in Hnd as [Hy Hnd].
  apply elem_of_cons in Hin as [Heq|Hin].
  - simplify_eq. change (setAll ((y, n') :: ps) m) with (setAll ps (<[y := node_id n']> m)).
    rewrite setAll_lookup_notin by done. by rewrite lookup_insert_eq.
  - change (setAll ((y, n') :: ps) m) with (setAll ps (<[y := node_id n']> m)).
    by apply IH.
Qed.

Lemma nodes_foldl_cloneEdge uuid newId l : ∀ s,
  nodes (c_db (foldl (cloneEdge uuid newId) s l)) = nodes (c_db s)
  ∧ (c_next s ≤ c_next (foldl (cloneEdge uuid newId) s l))%nat.
Proof.
  induction l as [|e l IH]; intros s; simpl; [done|].
  destruct (IH (cloneEdge uuid newId s e)) as [-> Hle]. simpl in *. split; [done|lia].
Qed.

Lemma nodes_foldl_cloneVC uuid newId l : ∀ s,
  nodes (c_db (foldl (cloneVC uuid newId) s l)) = nodes (c_db s)
  ∧ (c_next s ≤ c_next (foldl (cloneVC uuid newId) s l))%nat.
Proof.
  induction l as [|e l IH]; intros s; simpl; [done|].
  destruct (IH (cloneVC uuid newId s e)) as [-> Hle]. simpl in *. split; [done|lia].
Qed.

Lemma filter_none {A} (P : A → Prop) `{∀ a, Decision (P a)} (l : list A) :
  (∀ a, a ∈ l → ¬ P a) → filter P l = [].
Proof.
  induction l as [|a l IH]; intros Hall; [done|].
  rewrite filter_cons_False.
  - apply IH. intros b Hb. apply Hall. by apply elem_of_cons; right.
  - apply Hall. by apply elem_of_cons; left.
Qed.

Section clone_exact.
Variable uuid : nat → string.
Variable now : Z.
Variable db : Db.
Variable ids : list string.
Hypothesis ids_unique : NoDup (node_id <$> nodes db).

Lemma getNode_extends st x :
  extends db ids st → x ∈ ids → getNode (c_db st) x = getNode db x.
Proof.
  intros (ns & Hns & Hall) Hx. unfold getNode. rewrite Hns, filter_app.
  rewrite (filter_none _ ns); [by rewrite app_nil_r|].
  intros n Hn Heq. rewrite Forall_forall in Hall.
  destruct (Hall n Hn) as [Hid _]. apply Hid. by rewrite Heq.
Qed.

Lemma childrenOf_extends st x :
  extends db ids st → x ∈ ids → childrenOf (c_db st) x = childrenOf db x.
Proof.
  intros (ns & Hns & Hall) Hx. unfold childrenOf. rewrite Hns, filter_app.
  rewrite (filter_none _ ns); [by rewrite app_nil_r|].
  intros n Hn Heq. rewrite Forall_forall in Hall.
  destruct (Hall n Hn) as [_ Hp]. apply Hp. by rewrite Heq.
Qed.

Lemma extends_app st st' ns :
  extends db ids st → nodes (c_db st') = nodes (c_db st) ++ ns →
  Forall (λ n, (node_id n ∉ ids) ∧ (node_parentId n ∉ ids)) ns →
  extends db ids st'.
Proof.
  intros (ns0 & Hns0 & Hall0) Hns Hall. exists (ns0 ++ ns). split.
  - by rewrite Hns, Hns0, (assoc_L (++)).
  - by apply Forall_app.
Qed.

(** The clones of a run are new rows: their ids and parent ids are not in
    [ids]. *)
Lemma clonesOf_fresh k p pairs :
  clonesOf uuid now db k p pairs → p ∉ ids → (∀ j, (k ≤ j)%nat → uuid j ∉ ids) →
  Forall (λ n, (node_id n ∉ ids) ∧ (node_parentId n ∉ ids)) pairs.*2.
Proof.
  intros (Hhead & Hall & Htail) Hp Hfresh.
  assert (Hid : ∀ x n', (x, n') ∈ pairs → node_id n' ∉ ids).
  { intros x n' Hin. destruct (Hall x n' Hin) as (node & _ & j & Hj & ->). simpl.
    by apply Hfresh. }
  apply Forall_forall. intros n' Hn'.
  apply list_elem_of_fmap in Hn' as ([x n''] & -> & Hin). simpl.
  split; [by apply (Hid x)|].
  destruct Hhead as (x0 & n0 & rest & -> & Hp0).
  apply elem_of_cons in Hin as [Heq|Hin].
  - by simplify_eq.
  - destruct (Htail x n'' Hin) as (node & n_par & _ & Hpar & ->). by apply (Hid _ _ Hpar).
Qed.

Lemma clonesOf_weaken k k' p pairs :
  (k' ≤ k)%nat → clonesOf uuid now db k p pairs → clonesOf uuid now db k' p pairs.
Proof.
  intros Hk (Hhead & Hall & Htail). split; [done|]. split; [|done].
  intros x n' Hin. destruct (Hall x n' Hin) as (node & Hg & j & Hj & Hn).
  exists node. split; [done|]. exists j. split; [lia|done].
Qed.

Lemma Forall2_fst_concat (ls : list (list string)) (pss : list (list (string * MachineNode)))
    (Q : list (string * MachineNode) → Prop) :
  Forall2 (λ l ps, ps.*1 = l ∧ Q ps) ls pss → (concat pss).*1 = concat ls.
Proof.
  induction 1 as [|l ps ls pss [Hl _] _ IH]; [done|].
  simpl. by rewrite fmap_app, Hl, IH.
Qed.

Lemma cloneLoop_exact fuel newId k0 :
  (∀ y p st L,
     subtree fuel db y = Some L → (∀ z, z ∈ L → z ∈ ids) → is_Some (getNode db y) →
     p ∉ ids → extends db ids st → (∀ j, (c_next st ≤ j)%nat → uuid j ∉ ids) →
     ∃ st' pairs,
       cloneRecursive uuid now fuel y p st = Some st'
       ∧ nodes (c_db st') = nodes (c_db st) ++ pairs.*2
       ∧ pairs.*1 = L
       ∧ c_idMap st' = setAll pairs (c_idMap st)
       ∧ (c_next st ≤ c_next st')%nat
       ∧ clonesOf uuid now db (c_next st) p pairs) →
  newId ∉ ids → (∀ j, (k0 ≤ j)%nat → uuid j ∉ ids) →
  ∀ cs ls, Forall2 (λ c l, subtree fuel db (node_id c) = Some l) cs ls →
  (∀ c, c ∈ cs → c ∈ nodes db) →
  (∀ z, z ∈ concat ls → z ∈ ids) →
  ∀ st, extends db ids st → (k0 ≤ c_next st)%nat →
  ∃ st' pss,
    foldl (λ acc child, s ← acc; cloneRecursive uuid now fuel (node_id child) newId s)
          (Some st) cs = Some st'
    ∧ nodes (c_db st') = nodes (c_db st) ++ (concat pss).*2
    ∧ Forall2 (λ l ps, ps.*1 = l ∧ clonesOf uuid now db k0 newId ps) ls pss
    ∧ c_idMap st' = setAll (concat pss) (c_idMap st)
    ∧ (c_next st ≤ c_next st')%nat.
Proof.
  intros IH HnewId Hfresh cs ls Hf.
  induction Hf as [|c l cs ls Hc Hf IHf]; intros Hrows Hsub st Hext Hk.
  { exists st, []. simpl. by rewrite app_nil_r. }
  destruct (IH (node_id c) newId st l Hc) as (st1 & ps & Hrun & Hn1 & Hl & Hm1 & Hk1 & Hps).
  { intros z Hz. apply Hsub. simpl. apply elem_of_app. by left. }
  { apply getNode_is_Some. apply Hrows. by apply elem_of_cons; left. }
  { done. }
  { done. }
  { intros j Hj. apply Hfresh. lia. }
  assert (Hext1 : extends db ids st1).
  { apply (extends_app st st1 ps.*2 Hext Hn1).
    apply (clonesOf_fresh (c_next st) newId ps Hps HnewId).
    intros j Hj. apply Hfresh. lia. }
  destruct (IHf) with (st := st1) as (st' & pss & Hfold & Hn' & Hall & Hm' & Hk').
  { intros c' Hc'. apply Hrows. by apply elem_of_cons; right. }
  { intros z Hz. apply Hsub. simpl. apply elem_of_app. by right. }
  { done. }
  { lia. }
  exists st', (ps :: pss). split_and!.
  - simpl. rewrite Hrun. simpl. exact Hfold.
  - simpl. by rewrite Hn', Hn1, fmap_app, (assoc_L (++)).
  - constructor; [|done]. split; [done|].
    by apply (clonesOf_weaken (c_next st)).
  - simpl. by rewrite setAll_app, Hm', Hm1.
  - lia.
Qed.

Lemma cloneRecursive_exact fuel : ∀ y p st L,
  subtree fuel db y = Some L → (∀ z, z ∈ L → z ∈ ids) → is_Some (getNode db y) →
  p ∉ ids → extends db ids st → (∀ j, (c_next st ≤ j)%nat → uuid j ∉ ids) →
  ∃ st' pairs,
    cloneRecursive uuid now fuel y p st = Some st'
    ∧ nodes (c_db st') = nodes (c_db st) ++ pairs.*2
    ∧ pairs.*1 = L
    ∧ c_idMap st' = setAll pairs (c_idMap st)
    ∧ (c_next st ≤ c_next st')%nat
    ∧ clonesOf uuid now db (c_next st) p pairs.
Proof.
  induction fuel as [|fuel IH]; intros x p st L HL Hsub [node Hnode] Hp Hext Hfresh;
    [done|].
  apply subtree_S in HL as (ls & Hf & ->).
  assert (Hx : x ∈ ids). { apply Hsub. by apply elem_of_cons; left. }
  rewrite cloneRecursive_S, (getNode_extends st x Hext Hx), Hnode.
  cbv beta iota zeta.
  set (newId := uuid (c_next st)).
  set (clone := cloneNode uuid now node newId p (S (c_next st))).
  set (st1 := afterClone uuid now node x p st).
  assert (HnewId : newId ∉ ids). { apply Hfresh. lia. }
  assert (Hext1 : extends db ids st1).
  { apply (extends_app st st1 [clone] Hext); [done|].
    apply Forall_singleton. by split. }
  rewrite (childrenOf_extends st1 x Hext1 Hx).
  destruct (cloneLoop_exact fuel newId (c_next st) IH HnewId Hfresh
              (childrenOf db x) ls Hf) with (st := st1)
    as (st2 & pss & Hfold & Hn2 & Hall & Hm2 & Hk2).
  { intros c Hc. by apply childrenOf_elem in Hc as [_ ?]. }
  { intros z Hz. apply Hsub. by apply elem_of_cons; right. }
  { done. }
  { simpl. lia. }
  rewrite Hfold. simpl.
  set (st3 := foldl (cloneEdge uuid newId) st2 _).
  set (st4 := foldl (cloneVC uuid newId) st3 _).
  destruct (nodes_foldl_cloneEdge uuid newId
              (filter (λ e, edge_parentId e = x) (edges (c_db st2))) st2) as [Hn3 Hk3].
  destruct (nodes_foldl_cloneVC uuid newId
              (filter (λ v, vc_machineNodeId v = x) (victoryConditions (c_db st3))) st3)
    as [Hn4 Hk4].
  fold st3 in Hn3, Hk3. fold st4 in Hn4, Hk4.
  exists st4, ((x, clone) :: concat pss). split_and!.
  - done.
  - rewrite Hn4, Hn3, Hn2. simpl. by rewrite <- (assoc_L (++)).
  - by rewrite fmap_cons, (Forall2_fst_concat _ _ _ Hall).
  - unfold st4. rewrite idMap_foldl_cloneVC. unfold st3. rewrite idMap_foldl_cloneEdge.
    by rewrite Hm2.
  - simpl in Hk2. lia.
  - split_and!.
    + by exists x, clone, (concat pss).
    + intros y n' Hin. apply elem_of_cons in Hin as [Heq|Hin].
      * simplify_eq. exists node. split; [done|]. exists (c_next st). split; [lia|done].
      * apply elem_of_concat in Hin as (ps & Hps & Hin).
        destruct (Forall2_elem_r _ _ _ _ Hall Hps) as (l & _ & _ & (_ & Hclones & _)).
        by apply Hclones.
    + simpl. intros y n' Hin.
      apply elem_of_concat in Hin as (ps & Hps & Hin).
      destruct (Forall2_elem_r _ _ _ _ Hall Hps) as (l & Hl & Hfst & (Hhead & _ & Htail)).
      destruct (Forall2_elem_r _ _ _ _ Hf Hl) as (c & Hc & Hsubc).
      destruct Hhead as (y0 & n0 & rest & -> & Hp0).
      apply elem_of_cons in Hin as [Heq|Hin].
      * simplify_eq. apply subtree_head in Hsubc as [t Ht]. simpl in Ht. simplify_eq.
        apply childrenOf_elem in Hc as [Hpar Hrow].
        exists c, clone. split; [by apply getNode_row|]. split; [|done].
        rewrite Hpar. by apply elem_of_cons; left.
      * destruct (Htail y n' Hin) as (nd & n_par & Hg & Hpar & Hpid).
        exists nd, n_par. split; [done|]. split; [|done].
        apply elem_of_cons; right. apply elem_of_concat. eauto.
Qed.
End clone_exact.

Lemma NoDup_fst_eq {A B} (ps : list (A * B)) x a b :
  NoDup ps.*1 → (x, a) ∈ ps → (x, b) ∈ ps → a = b.
Proof.
  induction ps as [|[y c] ps IH]; intros Hnd Ha Hb.
  { by apply elem_of_nil in Ha. }
  simpl in Hnd. apply NoDup_cons in Hnd as [Hy Hnd].
  apply elem_of_cons in Ha as [Ha|Ha]; apply elem_of_cons in Hb as [Hb|Hb].
  - congruence.
  - exfalso. simplify_eq. apply Hy. by apply (list_elem_of_fmap_2 fst _ (y, b)).
  - exfalso. simplify_eq. apply Hy. by apply (list_elem_of_fmap_2 fst _ (y, a)).
  - by apply IH.
Qed.

(** The pairs of a duplication: each node of the subtree with its clone
    and the entry of the [idMap]. *)
Lemma duplicateMachine_pairs
    (uuid : nat → string) (now : Z) (fuel k : nat) (db : Db)
    (machine : MachineNode) (L : list string) :
  NoDup (node_id <$> nodes db) → machine ∈ nodes db →
  subtree fuel db (node_id machine) = Some L →
  "" ∉ L → (∀ j, (k ≤ j)%nat → uuid j ∉ L) →
  ∃ st' pairs,
    duplicateMachine uuid now fuel k db machine = Some st'
    ∧ nodes (c_db st') = nodes db ++ pairs.*2
    ∧ pairs.*1 = L
    ∧ c_idMap st' = setAll pairs ∅
    ∧ ∀ x n', (x, n') ∈ pairs →
        c_idMap st' !! x = Some (node_id n')
        ∧ ∃ node j,
            getNode db x = Some node ∧ (k ≤ j)%nat
            ∧ n' = cloneNode uuid now node (uuid j) (node_parentId n') (S j)
            ∧ (x = node_id machine → node_parentId n' = "")
            ∧ (x ≠ node_id machine →
               c_idMap st' !! node_parentId node = Some (node_parentId n')).
Proof.
  intros Hnd Hm HL Hempty Hfresh.
  destruct (cloneRecursive_exact uuid now db L Hnd fuel (node_id machine) ""
              {| c_db := db; c_idMap := ∅; c_next := k |} L HL)
    as (st' & pairs & Hrun & Hnodes & Hfst & Hmap & _ & Hhead & Hall & Htail);
    [done|by apply getNode_is_Some|done| |done|].
  { exists []. split; [by rewrite app_nil_r|done]. }
  simpl in *.
  assert (HndL : NoDup pairs.*1).
  { rewrite Hfst. by apply (subtree_NoDup db Hnd fuel (node_id machine)). }
  exists st', pairs. split_and!; try done.
  intros x n' Hin. split; [rewrite Hmap; by apply setAll_lookup|].
  destruct (Hall x n' Hin) as (node & Hg & j & Hj & Hn').
  exists node, j. split_and!; try done.
  - intros ->. destruct Hhead as (x0 & n0 & rest & -> & Hp0).
    apply subtree_head in HL as [t Ht]. rewrite <- Hfst in Ht. simpl in Ht.
    simplify_eq.
    assert (n' = n0) as ->; [|done].
    apply (NoDup_fst_eq _ _ _ _ HndL Hin). by apply elem_of_cons; left.
  - intros Hne. destruct Hhead as (x0 & n0 & rest & -> & Hp0).
    apply subtree_head in HL as [t Ht]. rewrite <- Hfst in Ht. simpl in Ht.
    apply elem_of_cons in Hin as [Heq|Hin]; [simplify_eq|].
    destruct (Htail x n' Hin) as (nd & n_par & Hg' & Hpar & Hpid).
    assert (nd = node) as -> by congruence.
    rewrite Hmap, Hpid. by apply setAll_lookup.
Qed.

(** X15. The duplicate mirrors the subtree.  On a store with unique node
    ids, when the subtree of the machine has no empty id and none of the
    identifiers still to come, [duplicateMachine] returns whenever the
    walk over the subtree does, and it has cloned each node of the
    subtree exactly once, in the order of the walk: the new rows are the
    clones ([cloneNode]: the fields copied, the steps with new ids and not
    done, the two dates set to now), the [idMap] holds exactly the ids of
    the subtree, each with the id of its clone, the clone of the machine
    has no parent and every other clone hangs under the clone of its
    original's parent. *)
Theorem duplicateMachine_mirrors_subtree
    (uuid : nat → string) (now : Z) (fuel k : nat) (db : Db)
    (machine : MachineNode) (L : list string) :
  NoDup (node_id <$> nodes db) → machine ∈ nodes db →
  subtree fuel db (node_id machine) = Some L →
  "" ∉ L → (∀ j, (k ≤ j)%nat → uuid j ∉ L) →
  ∃ st' pairs,
    duplicateMachine uuid now fuel k db machine = Some st'
    ∧ nodes (c_db st') = nodes db ++ pairs.*2
    ∧ pairs.*1 = L
    ∧ length pairs.*2 = length L
    ∧ dom (c_idMap st') = list_to_set L
    ∧ ∀ x n', (x, n') ∈ pairs →
        c_idMap st' !! x = Some (node_id n')
        ∧ ∃ node j,
            getNode db x = Some node ∧ (k ≤ j)%nat
            ∧ n' = cloneNode uuid now node (uuid j) (node_parentId n') (S j)
            ∧ (x = node_id machine → node_parentId n' = "")
            ∧ (x ≠ node_id machine →
               c_idMap st' !! node_parentId node = Some (node_parentId n')).
Proof.
  intros Hnd Hm HL Hempty Hfresh.
  destruct (duplicateMachine_pairs uuid now fuel k db machine L Hnd Hm HL Hempty Hfresh)
    as (st' & pairs & Hrun & Hnodes & Hfst & Hmap & Hpairs).
  exists st', pairs. split_and!; try done.
  - by rewrite <- Hfst, !length_fmap.
  - by rewrite Hmap, setAll_dom, dom_empty_L, (right_id_L ∅ (∪)), Hfst.
Qed.

Lemma duplicateMachine_mirrors_subtree_witness :
  ∃ st' pairs,
    duplicateMachine sampleUuid 0 3 0 machineWithProcedure rootM = Some st'
    ∧ nodes (c_db st') = nodes machineWithProcedure ++ pairs.*2
    ∧ pairs.*1 = ["m"; "p"]
    ∧ dom (c_idMap st') = list_to_set ["m"; "p"].
Proof.
  destruct (duplicateMachine_mirrors_subtree sampleUuid 0 3 0 machineWithProcedure rootM
              ["m"; "p"])
    as (st' & pairs & Hrun & Hnodes & Hfst & _ & Hdom & _).
  - apply (bool_decide_unpack _). vm_compute. exact I.
  - apply elem_of_cons. by left.
  - vm_compute. reflexivity.
  - apply (bool_decide_unpack _). vm_compute. exact I.
  - intros j _ Hin. unfold sampleUuid in Hin. cbn in Hin.
    repeat (apply elem_of_cons in Hin as [Hin|Hin]; [discriminate Hin|]).
    by apply elem_of_nil in Hin.
  - exists st', pairs. split; [exact Hrun|]. split; [exact Hnodes|].
    split; [exact Hfst|exact Hdom].
Defined.

(** * Further properties of the whiteboard handlers *)

Lemma trackNoteUpdate_statusChanges uuid now id updates w :
  statusChanges (wb_db (trackNoteUpdate uuid now id updates w)) = statusChanges (wb_db w)
  ∧ filter (λ e, event_eventType e = ev_status_change)
           (events (wb_db (trackNoteUpdate uuid now id updates w)))
    = filter (λ e, event_eventType e = ev_status_change) (events (wb_db w)).
Proof.
  unfold trackNoteUpdate. destruct (u_notes updates); [|done]. simpl.
  split; [done|]. rewrite filter_app, filter_cons_False by done.
  by rewrite filter_nil, app_nil_r.
Qed.

Lemma track_nodes uuid now id updates w :
  nodes (wb_db (trackNoteUpdate uuid now id updates
                  (trackStatusChange uuid now id updates w)))
  = nodes (wb_db w).
Proof.
  unfold trackNoteUpdate, trackStatusChange.
  destruct (u_notes updates); simpl;
    (destruct (u_statusId updates) as [st|]; [|done]);
    (destruct (truthy st); [|done]);
    (destruct (head _); [|done]); by case_bool_decide.
Qed.

(** X16. The log of a status update, for a node that is on the canvas on
    screen and an update that carries a status: when the status differs
    from the node's, one status change and one status-change event are
    appended; when it is the same, neither table gets a row.  In both
    cases every row of the node gets the status and [updatedAt = now],
    and the rows of the other nodes are kept as they are. *)
Theorem handleUpdateNode_status_log (uuid : nat → string) (now : Z) (id : string)
    (updates : NodeUpdates) (w : Whiteboard) (cur : MachineNode) (s : string) :
  head (filter (λ n, node_id n = id) (dbNodes w)) = Some cur →
  u_statusId updates = Some s → s ≠ "" →
  let db := wb_db w in
  let db' := wb_db (handleUpdateNode uuid now id updates w) in
  let statusEvents := filter (λ e, event_eventType e = ev_status_change) in
  (node_statusId cur ≠ s →
     statusChanges db'
     = statusChanges db
       ++ [{| sc_id := uuid (wb_next w); sc_machineNodeId := id;
              sc_fromStatusId := node_statusId cur; sc_toStatusId := s;
              sc_changedAt := now |}]
     ∧ statusEvents (events db')
       = statusEvents (events db)
         ++ [mkEvent (uuid (S (wb_next w))) id ev_status_change now
               (Some (node_statusId cur)) (Some s)])
  ∧ (node_statusId cur = s →
       statusChanges db' = statusChanges db
       ∧ statusEvents (events db') = statusEvents (events db))
  ∧ (∀ n, n ∈ nodes db → node_id n = id →
       ∃ n', n' ∈ nodes db' ∧ n' = applyUpdates n (withUpdatedAt updates now)
             ∧ node_statusId n' = s ∧ node_updatedAt n' = now)
  ∧ (∀ n, n ∈ nodes db → node_id n ≠ id → n ∈ nodes db')
  ∧ length (nodes db') = length (nodes db).
Proof.
  intros Hcur Hs Hne db db' statusEvents. split_and!.
  - intros Hdiff.
    by apply (handleUpdateNode_tracks uuid now id updates w cur s).
  - intros Hsame. unfold db', handleUpdateNode. simpl.
    destruct (trackNoteUpdate_statusChanges uuid now id updates
                (trackStatusChange uuid now id updates w)) as [-> Hev].
    unfold statusEvents. rewrite Hev.
    unfold trackStatusChange. rewrite Hs, Hcur.
    assert (truthy s = true) as -> by (by apply bool_decide_eq_true_2).
    rewrite bool_decide_eq_false_2; [by split|]. intros H. by apply H.
  - intros n Hn Hid. eexists. split; [|split; [reflexivity|]].
    + unfold db', handleUpdateNode. simpl. rewrite track_nodes. apply elem_of_map.
      exists n. split; [done|]. by rewrite bool_decide_eq_true_2.
    + simpl. by rewrite Hs.
  - intros n Hn Hid. unfold db', handleUpdateNode. simpl. rewrite track_nodes.
    apply elem_of_map. exists n. split; [done|]. by rewrite bool_decide_eq_false_2.
  - unfold db', handleUpdateNode. simpl. by rewrite track_nodes, length_map.
Qed.

Lemma handleUpdateNode_status_log_witness :
  statusChanges (wb_db (handleUpdateNode sampleUuid 5 "a" (statusUpdate "blocked")
                          deepWhiteboard))
  = statusChanges deepDb
    ++ [{| sc_id := "u0"; sc_machineNodeId := "a"; sc_fromStatusId := "running";
           sc_toStatusId := "blocked"; sc_changedAt := 5 |}].
Proof.
  destruct (handleUpdateNode_status_log sampleUuid 5 "a" (statusUpdate "blocked")
              deepWhiteboard (newNode "a" "m" machine "Leads" "running" 0) "blocked")
    as [H _].
  - reflexivity.
  - reflexivity.
  - discriminate.
  - apply H. discriminate.
Defined.

(** * The steps of a procedure *)

Lemma toggled_involutive stepId steps : toggled stepId (toggled stepId steps) = steps.
Proof.
  unfold toggled. rewrite map_map. rewrite <- (map_id steps) at 2.
  apply map_ext. intros [i t d o l]. simpl.
  destruct (decide (i = stepId)) as [Hid|Hid].
  - rewrite (bool_decide_eq_true_2 (i = stepId)) by done. simpl.
    rewrite bool_decide_eq_true_2 by done. by rewrite negb_involutive.
  - rewrite (bool_decide_eq_false_2 (i = stepId)) by done. simpl.
    by rewrite bool_decide_eq_false_2.
Qed.

Lemma toggled_missing stepId steps :
  (∀ s, s ∈ steps → step_id s ≠ stepId) → toggled stepId steps = steps.
Proof.
  intros Hall. unfold toggled. rewrite <- (map_id steps) at 2.
  apply map_ext_in. intros s Hs. apply list_elem_of_In in Hs.
  rewrite bool_decide_eq_false_2; [done|]. by apply Hall.
Qed.

(** X17. Ticking a step.  Ticking the same step twice gives back the list
    of steps.  One call appends exactly one event, for the node and with
    the step id as metadata; it is [step-completed] exactly when the
    first step with that id was not done, and [step-uncompleted]
    otherwise, also when no step has the id and the list is left as it
    was.  Every row of the node gets the new list, and no status change
    is written. *)
Theorem toggleStep_log (uuid : nat → string) (now : Z) (node : MachineNode)
    (stepId : string) (w : Whiteboard) :
  let steps := node_steps node in
  let w' := toggleStep uuid now node stepId w in
  let found := head (filter (λ s, step_id s = stepId) steps) in
  toggled stepId (toggled stepId steps) = steps
  ∧ (∃ e, events (wb_db w') = events (wb_db w) ++ [e]
          ∧ event_id e = uuid (wb_next w)
          ∧ event_nodeId e = node_id node
          ∧ event_metadata e = Some stepId
          ∧ (event_eventType e = ev_step_completed
             ↔ ∃ s, found = Some s ∧ step_done s = false)
          ∧ (event_eventType e = ev_step_uncompleted
             ↔ found = None ∨ ∃ s, found = Some s ∧ step_done s = true))
  ∧ ((∀ s, s ∈ steps → step_id s ≠ stepId) →
     found = None ∧ toggled stepId steps = steps)
  ∧ (∀ n, n ∈ nodes (wb_db w) → node_id n = node_id node →
       ∃ n', n' ∈ nodes (wb_db w') ∧ node_steps n' = toggled stepId steps)
  ∧ statusChanges (wb_db w') = statusChanges (wb_db w).
Proof.
  intros steps w' found. split_and!.
  - apply toggled_involutive.
  - eexists. split; [reflexivity|]. simpl. split_and!; try done.
    + fold steps. fold found. destruct found as [s|]; [|split; [done|by intros (? & ? & ?)]].
      destruct (step_done s) eqn:Hd; simpl.
      * split; [done|]. intros (s' & Hs' & Hd'). congruence.
      * split; [|done]. intros _. by exists s.
    + fold steps. fold found. destruct found as [s|]; [|split; [by left|done]].
      destruct (step_done s) eqn:Hd; simpl.
      * split; [|done]. intros _. right. by exists s.
      * split; [done|]. intros [?|(s' & Hs' & Hd')]; congruence.
  - intros Hall. split; [|by apply toggled_missing].
    unfold found. rewrite filter_none; [done|].
    intros s Hs Heq. by apply (Hall s).
  - intros n Hn Hid. eexists. split.
    + unfold w', toggleStep, handleUpdateNode. simpl. apply elem_of_map.
      exists n. split; [done|]. by rewrite bool_decide_eq_true_2.
    + done.
  - done.
Qed.

Lemma spliceIn_delete {A} (l : list A) i x : l !! i = Some x → spliceIn i x (delete i l) = l.
Proof.
  intros Hi. unfold spliceIn. rewrite delete_take_drop.
  assert (Hlen : length (take i l) = i).
  { apply length_take_le. apply lookup_lt_Some in Hi. lia. }
  rewrite take_app_length', drop_app_length' by done.
  by apply take_drop_middle.
Qed.

Lemma delete_spliceIn {A} (l : list A) i x :
  (i ≤ length l)%nat → delete i (spliceIn i x l) = l ∧ spliceIn i x l !! i = Some x.
Proof.
  intros Hi. unfold spliceIn.
  assert (Hlen : length (take i l) = i) by by apply length_take_le.
  split.
  - rewrite <- Hlen at 1. by rewrite delete_middle, take_drop.
  - by apply list_lookup_middle.
Qed.

Lemma spliceIn_perm {A} (l : list A) i x : spliceIn i x l ≡ₚ x :: l.
Proof.
  unfold spliceIn. rewrite <- Permutation_middle. by rewrite take_drop.
Qed.

Lemma length_spliceIn {A} (l : list A) i x : length (spliceIn i x l) = S (length l).
Proof. by rewrite (spliceIn_perm l i x). Qed.

Lemma Forall2_spliceIn {A B} (R : A → B → Prop) l k i x y :
  R x y → Forall2 R l k → Forall2 R (spliceIn i x l) (spliceIn i y k).
Proof.
  intros Hxy Hlk. unfold spliceIn. apply Forall2_app; [by apply Forall2_take|].
  constructor; [done|]. by apply Forall2_drop.
Qed.

Lemma reordered_sameStep l : Forall2 sameStep (reordered l) l.
Proof.
  apply Forall2_same_length_lookup. split; [apply length_imap|].
  intros i a b Ha Hb. unfold reordered in Ha. rewrite list_lookup_imap, Hb in Ha.
  simpl in Ha. simplify_eq. done.
Qed.

Lemma reordered_ext l1 l2 : Forall2 sameStep l1 l2 → reordered l1 = reordered l2.
Proof.
  intros H. apply list_eq. intros i. unfold reordered. rewrite !list_lookup_imap.
  apply Forall2_lookup with (i := i) in H.
  destruct H as [a b (Hid & Ht & Hd & Hl)|]; [|done]. simpl.
  by rewrite Hid, Ht, Hd, Hl.
Qed.

Lemma reordered_ids l : (step_id <$> reordered l) = (step_id <$> l).
Proof.
  apply list_eq. intros i. unfold reordered.
  rewrite !list_lookup_fmap, list_lookup_imap. by destruct (l !! i).
Qed.

(** X18. Moving a step.  With both indices inside the list and different,
    [moveStep] hands over a list with the same steps (it is a permutation
    as to the ids, of the same length), the moved step at the target
    index, and every step numbered with its index; moving the step back
    gives the list it started from, renumbered.  With equal indices
    nothing is handed over. *)
Theorem moveStep_round_trip (fromIdx toIdx : nat) (steps : list SopStep) :
  (fromIdx < length steps)%nat → (toIdx < length steps)%nat → fromIdx ≠ toIdx →
  ∃ updated,
    moveStep fromIdx toIdx steps = Updated updated
    ∧ (step_id <$> updated) ≡ₚ (step_id <$> steps)
    ∧ length updated = length steps
    ∧ (step_id <$> updated !! toIdx) = (step_id <$> steps !! fromIdx)
    ∧ (∀ i s, updated !! i = Some s → step_order s = Z.of_nat i)
    ∧ moveStep toIdx fromIdx updated = Updated (reordered steps)
    ∧ moveStep fromIdx fromIdx steps = NoUpdate.
Proof.
  intros Hfrom Hto Hne.
  destruct (lookup_lt_is_Some_2 steps fromIdx Hfrom) as [moved Hmoved].
  set (rest := delete fromIdx steps).
  assert (Hrest : length rest = (length steps - 1)%nat).
  { unfold rest. rewrite length_delete by by eexists. lia. }
  set (X := spliceIn toIdx moved rest).
  assert (HtoX : (toIdx ≤ length rest)%nat) by lia.
  destruct (delete_spliceIn rest toIdx moved HtoX) as [HdelX HlookX]. fold X in HdelX, HlookX.
  exists (reordered X). split_and!.
  - unfold moveStep. rewrite bool_decide_eq_false_2 by done. by rewrite Hmoved.
  - rewrite reordered_ids. unfold X. rewrite (spliceIn_perm rest toIdx moved). unfold rest.
    by rewrite (delete_Permutation steps fromIdx moved Hmoved) at 2.
  - unfold reordered. rewrite length_imap. unfold X. rewrite length_spliceIn. lia.
  - unfold reordered. rewrite list_lookup_imap, HlookX, Hmoved. done.
  - intros i s Hs. unfold reordered in Hs. rewrite list_lookup_imap in Hs.
    destruct (X !! i); simpl in Hs; [|done]. by simplify_eq.
  - unfold moveStep. rewrite bool_decide_eq_false_2 by done.
    unfold reordered at 1. rewrite list_lookup_imap, HlookX. simpl.
    f_equal. apply reordered_ext.
    pose proof (Forall2_spliceIn sameStep _ _ fromIdx _ moved
                  (ltac:(done) : sameStep
                     {| step_id := step_id moved; step_text := step_text moved;
                        step_done := step_done moved; step_order := Z.of_nat toIdx;
                        step_linkedNodeId := step_linkedNodeId moved |} moved)
                  (Forall2_delete sameStep _ _ toIdx (reordered_sameStep X))) as HF.
    rewrite HdelX in HF. unfold rest in HF. rewrite spliceIn_delete in HF by done.
    exact HF.
  - unfold moveStep. by rewrite bool_decide_eq_true_2.
Qed.

Lemma moveStep_round_trip_witness :
  ∃ updated,
    moveStep 0 2 threeSteps = Updated updated
    ∧ (step_id <$> updated) = ["s2"; "s3"; "s1"]
    ∧ moveStep 2 0 updated = Updated (reordered threeSteps).
Proof.
  destruct (moveStep_round_trip 0 2 threeSteps) as (updated & Hmove & _ & _ & _ & _ & Hback & _).
  - simpl. lia.
  - simpl. lia.
  - done.
  - exists updated. split; [exact Hmove|]. split; [|exact Hback].
    vm_compute in Hmove. by injection Hmove as <-.
Defined.

(** * Column names *)

Lemma isUpper_lower c :
  isUpper c = true → isLower (toLowerChar c) = true ∧ toUpperChar (toLowerChar c) = c.
Proof. destruct c as [[] [] [] [] [] [] [] []]; vm_compute; intros; done. Qed.

Lemma isLower_upper c :
  isLower c = true → isUpper (toUpperChar c) = true ∧ toLowerChar (toUpperChar c) = c.
Proof. destruct c as [[] [] [] [] [] [] [] []]; vm_compute; intros; done. Qed.

Lemma toLowerChar_other c : isUpper c = false → toLowerChar c = c.
Proof. unfold toLowerChar. by intros ->. Qed.

Lemma snakeKey_cons_upper c rest :
  isUpper c = true →
  snakeKey (String c rest) = String "_" (String (toLowerChar c) (snakeKey rest)).
Proof. unfold snakeKey. simpl. by intros ->. Qed.

Lemma snakeKey_cons_other c rest :
  isUpper c = false → snakeKey (String c rest) = String c (snakeKey rest).
Proof.
  unfold snakeKey. simpl. intros Hc. rewrite Hc. simpl. unfold toLowerChar.
  by rewrite Hc.
Qed.

Lemma camelKey_cons_match d rest :
  isLower d = true →
  camelKey (String "_" (String d rest)) = String (toUpperChar d) (camelKey rest).
Proof. simpl. by intros ->. Qed.

Lemma camelKey_cons_other c rest :
  match rest with
  | String d _ => Ascii.eqb c "_" && isLower d
  | EmptyString => false
  end = false →
  camelKey (String c rest) = String c (camelKey rest).
Proof. destruct rest as [|d rest]; [done|]. simpl. by intros ->. Qed.

Lemma camelKey_snakeKey key :
  noUnderscoreLower key = true → camelKey (snakeKey key) = key.
Proof.
  induction key as [|c rest IH]; [done|]. intros Hok.
  simpl in Hok. apply andb_prop in Hok as [Hc Hrest].
  destruct (isUpper c) eqn:Hu.
  - rewrite snakeKey_cons_upper by done.
    destruct (isUpper_lower c Hu) as [Hl Hback].
    rewrite camelKey_cons_match by done. by rewrite Hback, IH.
  - rewrite snakeKey_cons_other by done.
    rewrite camelKey_cons_other; [by rewrite IH|].
    destruct rest as [|d rest']; [done|].
    destruct (isUpper d) eqn:Hd.
    + rewrite snakeKey_cons_upper by done. by rewrite andb_false_r.
    + rewrite snakeKey_cons_other by done. by apply negb_true_iff in Hc.
Qed.

Lemma snakeKey_camelKey_bounded n : ∀ key,
  (String.length key ≤ n)%nat → noCapital key = true → snakeKey (camelKey key) = key.
Proof.
  induction n as [|n IH]; intros key Hlen Hok.
  { destruct key; [done|simpl in Hlen; lia]. }
  destruct key as [|c rest]; [done|].
  simpl in Hok. apply andb_prop in Hok as [Hc Hrest]. apply negb_true_iff in Hc.
  destruct rest as [|d rest'].
  { simpl. by rewrite snakeKey_cons_other. }
  destruct (Ascii.eqb c "_" && isLower d) eqn:Hm.
  - apply andb_prop in Hm as [Hus Hd]. apply Ascii.eqb_eq in Hus. subst c.
    rewrite camelKey_cons_match by done.
    destruct (isLower_upper d Hd) as [Hu Hback].
    rewrite snakeKey_cons_upper by done. rewrite Hback.
    rewrite IH; [done|simpl in *; lia|].
    simpl in Hrest. by apply andb_prop in Hrest as [_ ?].
  - rewrite camelKey_cons_other by done.
    rewrite snakeKey_cons_other by done.
    rewrite IH; [done|simpl in *; lia|done].
Qed.

(** X19. The two conversions of a key undo each other.  For a key of
    ASCII characters: from camelCase to snake_case and back gives the key
    when none of its underscores stands before a small letter, and from
    snake_case to camelCase and back gives the key when it has no capital
    letter; a key such as [a_b] does not come back.  Every entry of the
    field maps of [db] is what the conversion gives by itself, in both
    directions.  So for a field that is not the name of a property
    inherited from [Object.prototype], the column that [where] and
    [orderBy] use is the snake_case key, with and without the field map;
    for the name of an inherited property ([constructor], [toString],
    ...) a table with a field map uses the inherited member, which is no
    column name, and a table without one the snake_case key. *)
Theorem key_round_trip (key : string) :
  asciiOnly key = true →
  (noUnderscoreLower key = true → camelKey (snakeKey key) = key)
  ∧ (noCapital key = true → snakeKey (camelKey key) = key)
  ∧ camelKey (snakeKey "a_b") = "aB"
  ∧ Forall (λ e, snakeKey e.1 = e.2 ∧ camelKey e.2 = e.1) (concat fieldMaps)
  ∧ mappedField None key = ColumnName (snakeKey key)
  ∧ (∀ fieldMap, fieldMap ∈ fieldMaps →
       (key ∉ OBJECT_PROTOTYPE_KEYS →
        mappedField (Some fieldMap) key = ColumnName (snakeKey key))
       ∧ (key ∈ OBJECT_PROTOTYPE_KEYS →
          mappedField (Some fieldMap) key = InheritedMember key)).
Proof.
  intros _. split_and!.
  - apply camelKey_snakeKey.
  - apply (snakeKey_camelKey_bounded (String.length key)). lia.
  - reflexivity.
  - apply (bool_decide_unpack _). vm_compute. exact I.
  - reflexivity.
  - intros fm Hfm.
    assert (Hown : match head (filter (λ e, e.1 = key) fm) with
                   | Some e => e.2 = snakeKey key ∧ e.2 ≠ ""
                               ∧ key ∉ OBJECT_PROTOTYPE_KEYS
                   | None => True
                   end).
    { unfold fieldMaps in Hfm.
      repeat (apply elem_of_cons in Hfm as [->|Hfm]);
        [..|by apply elem_of_nil in Hfm];
        unfold NODE_FIELDS, EDGE_FIELDS, PROBLEM_FIELDS,
          LEVER_FIELDS, PRINCIPLE_FIELDS, VC_FIELDS, VCS_FIELDS, SC_FIELDS,
          CAPTURE_FIELDS, EVENT_FIELDS; simpl;
        rewrite ?filter_cons, ?filter_nil; simpl;
        repeat case_decide; subst; simpl; try done;
        (split_and!; [reflexivity|discriminate|];
         apply (bool_decide_unpack _); vm_compute; exact I). }
    unfold mappedField, fieldMapGet. simpl.
    destruct (head (filter (λ e, e.1 = key) fm)) as [e|].
    + destruct Hown as (Hcol & Hne & Hnot). split; [|done].
      intros _. unfold or_else, truthy. rewrite bool_decide_eq_true_2 by done.
      by rewrite Hcol.
    + split; intros Hk.
      * by rewrite bool_decide_eq_false_2.
      * by rewrite bool_decide_eq_true_2.
Qed.

Lemma key_round_trip_witness :
  camelKey (snakeKey "machineNodeId") = "machineNodeId"
  ∧ snakeKey (camelKey "machine_node_id") = "machine_node_id"
  ∧ mappedField (Some NODE_FIELDS) "constructor" = InheritedMember "constructor"
  ∧ mappedField None "constructor" = ColumnName "constructor".
Proof.
  destruct (key_round_trip "machineNodeId" eq_refl) as (H1 & _).
  destruct (key_round_trip "machine_node_id" eq_refl) as (_ & H2 & _).
  destruct (key_round_trip "constructor" eq_refl) as (_ & _ & _ & _ & H3 & H4).
  destruct (H4 NODE_FIELDS) as [_ Hi]; [apply elem_of_cons; by left|].
  split_and!; [apply H1; reflexivity|apply H2; reflexivity| |exact H3].
  apply Hi. apply (bool_decide_unpack _). vm_compute. exact I.
Defined.

(** * The dashboard search against the scan *)

Lemma findNode_nodeMapOf allNodes x :
  NoDup (node_id <$> allNodes) → findNode allNodes x = nodeMapOf allNodes !! x.
Proof.
  intros Hnd. destruct (nodeMapOf allNodes !! x) as [n|] eqn:Hn.
  - apply nodeMapOf_lookup_Some in Hn as [Hin <-].
    by apply (head_filter_NoDup node_id).
  - unfold findNode. rewrite filter_none; [done|].
    intros n Hin Heq. by apply (proj1 (nodeMapOf_lookup_None allNodes x) Hn n).
Qed.

Lemma searchRootLoop_mono allNodes fuel : ∀ fuel' rootId walk r,
  searchRootLoop fuel allNodes rootId walk = Some r → (fuel ≤ fuel')%nat →
  searchRootLoop fuel' allNodes rootId walk = Some r.
Proof.
  induction fuel as [|fuel IH]; intros fuel' rootId walk r H Hle; [done|].
  destruct fuel' as [|fuel']; [lia|]. simpl in *.
  destruct walk as [w|]; [|done].
  case_bool_decide; [|done]. apply IH; [done|lia].
Qed.

Lemma searchRootLoop_findRootLoop allNodes fuel :
  NoDup (node_id <$> allNodes) →
  ∀ n top,
    findRootLoop fuel (nodeMapOf allNodes) n = Some top →
    searchRootLoop (S fuel) allNodes (node_id n) (Some n)
    = Some (if bool_decide (node_parentId top = "") then node_id top
            else node_parentId top).
Proof.
  intros Hnd. induction fuel as [|fuel IH]; intros n top H; [done|].
  simpl in H. unfold truthy in H.
  change (searchRootLoop (S (S fuel)) allNodes (node_id n) (Some n))
    with (if bool_decide (node_parentId n ≠ "")
          then searchRootLoop (S fuel) allNodes (node_parentId n)
                 (findNode allNodes (node_parentId n))
          else Some (node_id n)).
  case_bool_decide as Hp.
  - rewrite (findNode_nodeMapOf _ _ Hnd).
    destruct (nodeMapOf allNodes !! node_parentId n) as [parent|] eqn:Hparent.
    + apply nodeMapOf_lookup_Some in Hparent as Hid. destruct Hid as [_ <-].
      by apply IH.
    + simplify_eq. simpl. by rewrite bool_decide_eq_false_2.
  - simplify_eq. by rewrite bool_decide_eq_true_2.
Qed.

Lemma searchPathLoop_suffix allNodes fuel : ∀ current path r,
  searchPathLoop fuel allNodes current path = Some r → ∃ pre, r = pre ++ path.
Proof.
  induction fuel as [|fuel IH]; intros current path r H; [done|]. simpl in H.
  destruct current as [c|]; [|exists []; by simplify_eq].
  destruct (IH _ _ _ H) as [pre ->]. exists (pre ++ [node_label c]).
  by rewrite <- (assoc_L (++)).
Qed.

(** X20. The root of a search result against the root that the scan
    resolves, on a table with unique and non-empty node ids.  When the
    chain of parents of the node ends at a node without parent, the two
    are the same id.  When it ends at a node whose parent is in no row,
    they differ: the scan names that last node and the search names the
    missing parent.  The path of the result always ends with the label
    of the node itself. *)
Theorem searchResult_root (fuel fuel' : nat) (allNodes : list MachineNode)
    (node : MachineNode) (r : SearchResult) (rootId : string) :
  NoDup (node_id <$> allNodes) → (∀ n, n ∈ allNodes → node_id n ≠ "") →
  node ∈ allNodes →
  searchResult fuel allNodes node = Some r →
  findRootMachine fuel' (nodeMapOf allNodes) (node_id node) = Some rootId →
  last (sr_path r) = Some (node_label node)
  ∧ ∃ top, top ∈ allNodes ∧ node_id top = rootId
      ∧ ((node_parentId top = "" ∧ sr_rootMachineId r = rootId)
         ∨ (node_parentId top ≠ "" ∧ findNode allNodes (node_parentId top) = None
            ∧ sr_rootMachineId r = node_parentId top)).
Proof.
  intros Hnd Hids Hnode Hres Hroot.
  unfold searchResult in Hres.
  destruct (searchPathLoop fuel allNodes (Some node) []) as [path|] eqn:Hpath;
    simpl in Hres; [|done].
  destruct (searchRootLoop fuel allNodes (node_id node) (Some node)) as [sroot|] eqn:Hsroot;
    simpl in Hres; [|done].
  simplify_eq. simpl. split.
  - destruct fuel as [|fuel]; [done|]. simpl in Hpath.
    apply searchPathLoop_suffix in Hpath as [pre ->]. by rewrite last_snoc.
  - unfold findRootMachine in Hroot.
    rewrite (nodeMapOf_lookup_NoDup _ _ Hnd Hnode) in Hroot.
    destruct (findRootLoop fuel' (nodeMapOf allNodes) node) as [top|] eqn:Htop;
      simpl in Hroot; [|done].
    assert (Hin : top ∈ allNodes).
    { apply findRootLoop_in in Htop as [->|[x Hx]]; [done|].
      by apply nodeMapOf_lookup_Some in Hx as [? _]. }
    assert (Hid : or_else (node_id top) (node_id node) = node_id top).
    { unfold or_else, truthy. rewrite bool_decide_eq_true_2; [done|]. by apply Hids. }
    rewrite Hid in Hroot. simplify_eq.
    exists top. split; [done|]. split; [done|].
    pose proof (searchRootLoop_findRootLoop allNodes fuel' Hnd node top Htop) as Hs.
    assert (Hsame : sroot = if bool_decide (node_parentId top = "") then node_id top
                            else node_parentId top).
    { apply (searchRootLoop_mono _ _ (fuel `max` S fuel')) in Hsroot; [|lia].
      apply (searchRootLoop_mono _ _ (fuel `max` S fuel')) in Hs; [|lia].
      congruence. }
    case_bool_decide as Hp; [by left|]. right. split; [done|]. split; [|done].
    rewrite (findNode_nodeMapOf _ _ Hnd).
    by destruct (findRootLoop_ends _ _ _ _ Htop).
Qed.

Lemma searchResult_root_witness :
  ∃ r, searchResult 3 (nodes scanDb) (newNode "m2" "m1" machine "Leads" "running" (29 * day))
       = Some r
       ∧ last (sr_path r) = Some "Leads"
       ∧ ∃ top, top ∈ nodes scanDb ∧ node_id top = "m1"
           ∧ ((node_parentId top = "" ∧ sr_rootMachineId r = "m1")
              ∨ (node_parentId top ≠ ""
                 ∧ findNode (nodes scanDb) (node_parentId top) = None
                 ∧ sr_rootMachineId r = node_parentId top)).
Proof.
  destruct (searchResult 3 (nodes scanDb)
              (newNode "m2" "m1" machine "Leads" "running" (29 * day))) as [r|] eqn:E;
    [|vm_compute in E; discriminate].
  exists r. split; [done|].
  apply (searchResult_root 3 3 (nodes scanDb)
           (newNode "m2" "m1" machine "Leads" "running" (29 * day)) r "m1").
  - apply (bool_decide_unpack _). vm_compute. exact I.
  - intros n Hn. simpl in Hn.
    repeat (apply elem_of_cons in Hn as [->|Hn]); [discriminate..|].
    by apply elem_of_nil in Hn.
  - apply elem_of_cons. right. apply elem_of_cons. by left.
  - exact E.
  - vm_compute. reflexivity.
Defined.

(** * The breadcrumb trail *)

Lemma breadcrumbLoop_chain db fuel : ∀ cid visited ns r,
  breadcrumbLoop fuel db cid visited (crumbOf <$> ns) = Some r →
  ancestorChain db ns →
  (∀ n, n ∈ ns → node_id n ∈ visited) →
  NoDup (node_id <$> ns) →
  (∀ h, head ns = Some h →
        cid = if truthy (node_parentId h) then Some (node_parentId h) else None) →
  ∃ ns', r = crumbOf <$> ns' ∧ ancestorChain db ns' ∧ NoDup (node_id <$> ns')
         ∧ ns `suffix_of` ns'.
Proof.
  induction fuel as [|fuel IH]; intros cid visited ns r H Hchain Hvis Hnd Hcid; [done|].
  simpl in H.
  destruct cid as [c|]; [|simplify_eq; by exists ns].
  destruct (negb (truthy c) || bool_decide (c ∈ visited)) eqn:Hstop;
    [simplify_eq; by exists ns|].
  apply orb_false_iff in Hstop as [Htruthy Hnew].
  apply negb_false_iff in Htruthy. apply bool_decide_eq_false in Hnew.
  destruct (getNode db c) as [node|] eqn:Hnode; [|simplify_eq; by exists ns].
  pose proof (getNode_Some _ _ _ Hnode) as [_ Hid].
  destruct (IH _ _ (node :: ns) r H) as (ns' & -> & Hchain' & Hnd' & Hsuf).
  - intros i p n Hp Hn. destruct i as [|i]; simpl in Hp, Hn.
    + simplify_eq. specialize (Hcid n). rewrite (head_lookup ns) in Hcid.
      specialize (Hcid Hn). destruct (truthy (node_parentId n)) eqn:Ht; [|done].
      simplify_eq. split; [by apply bool_decide_eq_true in Ht|]. by rewrite <- Hcid.
    + by apply (Hchain i).
  - intros n Hn. apply elem_of_union. apply elem_of_cons in Hn as [->|Hn].
    + left. by apply elem_of_singleton.
    + right. by apply Hvis.
  - simpl. apply NoDup_cons. split; [|done].
    intros Hin. apply list_elem_of_fmap in Hin as (n & Heq & Hn).
    apply Hnew. rewrite <- Hid, Heq. by apply Hvis.
  - intros h Hh. simpl in Hh. by simplify_eq.
  - exists ns'. split_and!; try done.
    destruct Hsuf as [pre ->]. exists (pre ++ [node]). by rewrite <- (assoc_L (++)).
Qed.

(** X21. The breadcrumb trail.  The walk returns on every store, cycles
    included, within as many rounds as the table has node ids plus one.
    The trail is empty exactly when the canvas has no parent id or no
    node has it; otherwise it is [Machines] followed by the crumbs of a
    chain of nodes, each the parent of the next, that ends with the node
    of the canvas, and no node is in it twice. *)
Theorem buildBreadcrumbs_trail (db : Db) (parentId : string) :
  ∃ ns,
    buildBreadcrumbs (S (size (list_to_set (node_id <$> nodes db) : gset string)))
      db parentId
    = Some (match ns with
            | [] => []
            | _ => {| seg_id := None; seg_label := "Machines" |} :: (crumbOf <$> ns)
            end)
    ∧ (ns = [] ↔ parentId = "" ∨ getNode db parentId = None)
    ∧ (parentId ≠ "" → last ns = getNode db parentId)
    ∧ ancestorChain db ns
    ∧ NoDup (node_id <$> ns).
Proof.
  destruct (buildBreadcrumbs_returns db parentId) as [segs Hsegs].
  unfold buildBreadcrumbs in *.
  destruct (breadcrumbLoop _ db (Some parentId) ∅ []) as [trail|] eqn:Hloop;
    simpl in Hsegs; [|done]. simpl.
  assert (Hempty : ancestorChain db []) by (intros i p n Hp; by rewrite lookup_nil in Hp).
  destruct (decide (parentId = "")) as [->|Hne].
  { simpl in Hloop. simplify_eq. exists []. split_and!; try done.
    - split; [by left|done].
    - constructor. }
  simpl in Hloop. unfold truthy in Hloop. rewrite bool_decide_eq_true_2 in Hloop by done.
  rewrite bool_decide_eq_false_2 in Hloop by apply not_elem_of_empty. simpl in Hloop.
  destruct (getNode db parentId) as [node|] eqn:Hnode.
  - destruct (breadcrumbLoop_chain db _ _ _ [node] trail Hloop)
      as (ns & -> & Hchain & Hnd & [pre ->]).
    + intros i p n Hp Hn. by destruct i.
    + intros n Hn. apply list_elem_of_singleton in Hn as ->.
      apply getNode_Some in Hnode as [_ ->].
      apply elem_of_union. left. by apply elem_of_singleton.
    + apply NoDup_singleton.
    + intros h Hh. simpl in Hh. by simplify_eq.
    + exists (pre ++ [node]). split_and!; try done.
      * by destruct pre.
      * split; [by destruct pre|]. by intros [?|?].
      * intros _. by rewrite last_snoc.
  - simplify_eq. exists []. split_and!; try done.
    + split; [by right|done].
    + constructor.
Qed.

(** * The inbox *)

Lemma agingCaptures_none now db :
  (∀ c, c ∈ captures db → capture_processed c = true) → agingCaptures now db = [].
Proof.
  intros Hall. unfold agingCaptures.
  rewrite (filter_none _ (captures db)); [done|].
  intros c Hc Hfalse. specialize (Hall c Hc). congruence.
Qed.

Section inbox_facts.
Variable uuid : nat → string.
Variable now : Z.
Variable stringify : list (string * string) → string.

Lemma dismissLoop cs : ∀ st,
  let st' := foldl (λ s c, dismissCapture uuid now stringify (capture_id c) s) st cs in
  (∀ c', c' ∈ captures (in_db st') →
     capture_processed c' = true
     ∨ (c' ∈ captures (in_db st) ∧ capture_id c' ∉ capture_id <$> cs))
  ∧ in_captures st' = filter (λ c, capture_id c ∉ capture_id <$> cs) (in_captures st)
  ∧ (∃ evs, events (in_db st') = events (in_db st) ++ evs
            ∧ length evs = length cs
            ∧ Forall (λ e, event_eventType e = ev_capture_processed) evs)
  ∧ nodes (in_db st') = nodes (in_db st)
  ∧ problems (in_db st') = problems (in_db st)
  ∧ length (captures (in_db st')) = length (captures (in_db st))
  ∧ in_next st' = (in_next st + length cs)%nat.
Proof.
  induction cs as [|c cs IH]; intros st; simpl.
  { split_and!; try done; try lia.
    - intros c' Hc'. right. split; [done|]. apply not_elem_of_nil.
    - symmetry. apply filter_all. intros a. apply not_elem_of_nil.
    - exists []. by rewrite app_nil_r. }
  destruct (IH (dismissCapture uuid now stringify (capture_id c) st))
    as (Hcap & Hlocal & (evs & Hev & Hlen & Htypes) & Hnodes & Hprob & Hclen & Hnext).
  split_and!.
  - intros c' Hc'. destruct (Hcap c' Hc') as [?|[Hin Hnot]]; [by left|].
    simpl in Hin. apply elem_of_map in Hin as (c0 & Hc0 & Heq).
    case_bool_decide as Hid; [left; by subst|]. subst c'.
    right. split; [done|]. apply not_elem_of_cons. by split.
  - rewrite Hlocal. simpl. rewrite filter_comm.
    by rewrite (filter_ne_not_elem capture_id (capture_id c) (capture_id <$> cs)).
  - eexists (_ :: evs). split; [|split].
    + rewrite Hev. simpl. by rewrite <- (assoc_L (++)).
    + simpl. by rewrite Hlen.
    + by constructor.
  - by rewrite Hnodes.
  - by rewrite Hprob.
  - rewrite Hclen. simpl. by rewrite length_map.
  - rewrite Hnext. simpl. lia.
Qed.
End inbox_facts.

(** X22. Dismiss All empties the inbox.  When the list of the page holds
    every unprocessed capture of the store, then after the loop every
    capture of the store is processed, so the scan has no capture item
    at any later time; the list of the page is empty; one
    [capture-processed] event was appended for each capture of the list;
    nodes and problems are as before and no capture row was added or
    removed. *)
Theorem dismissAll_empties (uuid : nat → string) (now : Z)
    (stringify : list (string * string) → string) (st : Inbox) (later : Z) :
  (∀ c, c ∈ captures (in_db st) → capture_processed c = false →
        capture_id c ∈ capture_id <$> in_captures st) →
  let st' := dismissAll uuid now stringify st in
  (∀ c, c ∈ captures (in_db st') → capture_processed c = true)
  ∧ agingCaptures later (in_db st') = []
  ∧ in_captures st' = []
  ∧ (∃ evs, events (in_db st') = events (in_db st) ++ evs
            ∧ length evs = length (in_captures st)
            ∧ Forall (λ e, event_eventType e = ev_capture_processed) evs)
  ∧ nodes (in_db st') = nodes (in_db st)
  ∧ problems (in_db st') = problems (in_db st)
  ∧ length (captures (in_db st')) = length (captures (in_db st)).
Proof.
  intros Hcover st'.
  destruct (dismissLoop uuid now stringify (in_captures st) st)
    as (Hcap & Hlocal & Hev & Hnodes & Hprob & Hclen & _).
  fold (dismissAll uuid now stringify st) in *. fold st' in Hcap, Hlocal, Hev, Hnodes, Hprob, Hclen.
  assert (Hall : ∀ c, c ∈ captures (in_db st') → capture_processed c = true).
  { intros c Hc. destruct (Hcap c Hc) as [?|[Hin Hnot]]; [done|].
    destruct (capture_processed c) eqn:Hp; [done|].
    exfalso. apply Hnot. by apply Hcover. }
  split_and!; try done.
  - by apply agingCaptures_none.
  - rewrite Hlocal. apply filter_none. intros c Hc Hnot. apply Hnot.
    by apply list_elem_of_fmap_2.
Qed.

Lemma dismissAll_empties_witness :
  agingCaptures (40 * day) (in_db (dismissAll sampleUuid (30 * day) sampleStringify scanInbox))
  = []
  ∧ in_captures (dismissAll sampleUuid (30 * day) sampleStringify scanInbox) = [].
Proof.
  destruct (dismissAll_empties sampleUuid (30 * day) sampleStringify scanInbox (40 * day))
    as (_ & Hscan & Hlist & _).
  - intros c Hc _. by apply (list_elem_of_fmap_2 capture_id).
  - split; [exact Hscan|exact Hlist].
Defined.

Lemma getNode_updateNode db id u node :
  u_id u = None → getNode db id = Some node →
  getNode (updateNode id u db) id = Some (applyUpdates node u).
Proof.
  intros Hu. unfold getNode, updateNode. simpl.
  induction (nodes db) as [|n l IH]; [done|]. simpl.
  destruct (decide (node_id n = id)) as [Hid|Hid].
  - rewrite filter_cons_True by done. intros [= ->].
    rewrite bool_decide_eq_true_2 by done.
    rewrite filter_cons_True; [done|]. simpl. by rewrite Hu.
  - rewrite filter_cons_False by done. intros Hl.
    rewrite bool_decide_eq_false_2 by done.
    rewrite filter_cons_False by done. by apply IH.
Qed.

(** X23. Turning a capture into a note or a problem.  [makeNote] looks
    the node up first: when no row has the id it changes nothing, and
    the capture stays unprocessed in the inbox.  When the node is there,
    its notes get the text at the end (after a blank line when there were
    notes), its [updatedAt] is now, the capture is processed and two
    events are appended.  [makeProblem] does not look the node up: it
    adds one open problem for whatever id it is given. *)
Theorem makeNote_makeProblem (uuid : nat → string) (now : Z)
    (stringify : list (string * string) → string)
    (captureId nodeId text : string) (st : Inbox) :
  (getNode (in_db st) nodeId = None →
   makeNote uuid now stringify captureId nodeId text st = st)
  ∧ (∀ node, getNode (in_db st) nodeId = Some node →
       let st' := makeNote uuid now stringify captureId nodeId text st in
       (∃ n', getNode (in_db st') nodeId = Some n'
              ∧ node_notes n'
                = (if bool_decide (node_notes node = "") then "📥 " +:+ text
                   else node_notes node +:+ String "010" (String "010" "📥 ") +:+ text)
              ∧ node_updatedAt n' = now)
       ∧ (∀ c, c ∈ captures (in_db st') → capture_id c = captureId →
               capture_processed c = true)
       ∧ (event_eventType <$> events (in_db st'))
         = (event_eventType <$> events (in_db st))
           ++ [ev_note_updated; ev_capture_processed]
       ∧ problems (in_db st') = problems (in_db st))
  ∧ (let st' := makeProblem uuid now stringify captureId nodeId text st in
     (∃ p, problems (in_db st') = problems (in_db st) ++ [p]
           ∧ problem_machineNodeId p = nodeId ∧ problem_title p = text
           ∧ problem_status p = open ∧ problem_createdAt p = now)
     ∧ (∀ c, c ∈ captures (in_db st') → capture_id c = captureId →
             capture_processed c = true)
     ∧ (event_eventType <$> events (in_db st'))
       = (event_eventType <$> events (in_db st))
         ++ [ev_problem_logged; ev_capture_processed]
     ∧ nodes (in_db st') = nodes (in_db st)).
Proof.
  assert (Hmark : ∀ db c, c ∈ captures (markProcessed captureId db) →
            capture_id c = captureId → capture_processed c = true).
  { intros db c Hc Hid. simpl in Hc. apply elem_of_map in Hc as (c0 & Hc0 & Heq).
    case_bool_decide; subst; [done|]. done. }
  split_and!.
  - intros Hnone. unfold makeNote. by rewrite Hnone.
  - intros node Hnode st'. unfold st', makeNote. rewrite Hnode. simpl. split_and!.
    + eexists. split; [by apply getNode_updateNode|]. simpl. split; [|done].
      unfold or_else, truthy.
      destruct (decide (node_notes node = "")) as [He|He].
      * rewrite He. reflexivity.
      * rewrite !(bool_decide_eq_true_2 (node_notes node ≠ "")) by done.
        by rewrite bool_decide_eq_false_2.
    + intros c Hc. by apply (Hmark (in_db st) c).
    + by rewrite !fmap_app, <- (assoc_L (++)).
    + done.
  - simpl. split_and!.
    + eexists. split; [reflexivity|]. done.
    + intros c Hc. by apply (Hmark (in_db st) c).
    + by rewrite !fmap_app, <- (assoc_L (++)).
    + done.
Qed.

(** * Duplication and delete *)

Section clone_relations.
Variable uuid : nat → string.
Variable now : Z.

(** A relation on the states of a duplication that the three writes keep
    and that is closed under sequences holds of every run. *)
Lemma cloneRecursive_rel (R : CloneState → CloneState → Prop) :
  (∀ s, R s s) → (∀ a b c, R a b → R b c → R a c) →
  (∀ node x p s, R s (afterClone uuid now node x p s)) →
  (∀ newId s e, R s (cloneEdge uuid newId s e)) →
  (∀ newId s v, R s (cloneVC uuid newId s v)) →
  ∀ fuel x p st st', cloneRecursive uuid now fuel x p st = Some st' → R st st'.
Proof.
  intros Hrefl Htrans Hnode Hedge Hvc.
  assert (Hfold : ∀ {A} (f : CloneState → A → CloneState) l,
            (∀ s a, R s (f s a)) → ∀ s, R s (foldl f s l)).
  { intros A f l Hf. induction l as [|a l IH]; intros s; simpl; [done|].
    eapply Htrans; [apply Hf|apply IH]. }
  induction fuel as [|fuel IH]; intros x p st st' Hrun; [done|].
  rewrite cloneRecursive_S in Hrun.
  destruct (getNode (c_db st) x) as [node|]; [|simplify_eq; apply Hrefl].
  cbn zeta in Hrun.
  destruct (foldl _ _ _) as [st2|] eqn:Hloop; simpl in Hrun; [|done].
  injection Hrun as <-.
  eapply (Htrans _ (afterClone uuid now node x p st)); [apply Hnode|].
  eapply (Htrans _ st2).
  { revert Hloop. generalize (childrenOf (c_db (afterClone uuid now node x p st)) x).
    generalize (afterClone uuid now node x p st).
    intros s cs. revert s. induction cs as [|c cs IHcs]; intros s Hloop; simpl in Hloop.
    - simplify_eq. apply Hrefl.
    - destruct (cloneRecursive uuid now fuel (node_id c) (uuid (c_next st)) s)
        as [s1|] eqn:Hc; simpl in Hloop.
      + eapply Htrans; [eapply IH; exact Hc|by apply IHcs].
      + by rewrite foldl_option_None in Hloop. }
  eapply Htrans; apply Hfold; [apply Hedge|apply Hvc].
Qed.

Lemma indexed_refl s : indexed uuid s s.
Proof.
  split; [lia|]. exists [], []. rewrite app_nil_r. split_and!; try done; constructor.
Qed.

Lemma indexed_trans a b c : indexed uuid a b → indexed uuid b c → indexed uuid a c.
Proof.
  intros (Hab & ns1 & js1 & Hn1 & Hi1 & Hs1 & Hr1) (Hbc & ns2 & js2 & Hn2 & Hi2 & Hs2 & Hr2).
  split; [lia|]. exists (ns1 ++ ns2), (js1 ++ js2). split_and!.
  - by rewrite Hn2, Hn1, (assoc_L (++)).
  - by rewrite !fmap_app, Hi1, Hi2.
  - apply StronglySorted_app_2; [|done..].
    intros x1 x2 H1 H2. rewrite Forall_forall in Hr1, Hr2.
    specialize (Hr1 x1 H1). specialize (Hr2 x2 H2). lia.
  - apply Forall_app. split.
    + eapply Forall_impl; [exact Hr1|]. intros j Hj. simpl in Hj. lia.
    + eapply Forall_impl; [exact Hr2|]. intros j Hj. simpl in Hj. lia.
Qed.

Lemma indexed_cloneRecursive fuel x p st st' :
  cloneRecursive uuid now fuel x p st = Some st' → indexed uuid st st'.
Proof.
  apply (cloneRecursive_rel (indexed uuid)).
  - apply indexed_refl.
  - apply indexed_trans.
  - intros node y q s. split; [simpl; lia|].
    exists [cloneNode uuid now node (uuid (c_next s)) q (S (c_next s))], [c_next s].
    split_and!; try done.
    + repeat constructor.
    + constructor; [simpl; lia|constructor].
  - intros newId s e. split; [simpl; lia|]. exists [], []. rewrite app_nil_r.
    split_and!; try done; constructor.
  - intros newId s v. split; [simpl; lia|]. exists [], []. rewrite app_nil_r.
    split_and!; try done; constructor.
Qed.

(** The rows that a run adds to the edge and victory-condition tables
    are owned by clones of the run. *)
Lemma ownedSince_cloneEdge base newId l : ∀ s,
  ownedSince base s → newId ∈ node_id <$> nodes (c_db s) →
  newId ∉ node_id <$> nodes (c_db base) →
  ownedSince base (foldl (cloneEdge uuid newId) s l).
Proof.
  induction l as [|e l IH]; intros s Hs Hin Hnot; simpl; [done|].
  apply IH; [|done|done].
  destruct Hs as (ns & es & vs & Hn & He & Hv & Fe & Fv).
  exists ns, (es ++ [edgeClone (uuid (c_next s)) newId (c_idMap s) e]), vs.
  split_and!; try done.
  - simpl. by rewrite He, (assoc_L (++)).
  - apply Forall_app. split; [done|]. apply Forall_singleton. simpl.
    rewrite Hn, fmap_app in Hin. apply elem_of_app in Hin as [?|?]; done.
Qed.

Lemma ownedSince_cloneVC base newId l : ∀ s,
  ownedSince base s → newId ∈ node_id <$> nodes (c_db s) →
  newId ∉ node_id <$> nodes (c_db base) →
  ownedSince base (foldl (cloneVC uuid newId) s l).
Proof.
  induction l as [|v l IH]; intros s Hs Hin Hnot; simpl; [done|].
  apply IH; [|done|done].
  destruct Hs as (ns & es & vs & Hn & He & Hv & Fe & Fv).
  eexists ns, es, (vs ++ [_]).
  split_and!; try done.
  - simpl. by rewrite Hv, (assoc_L (++)).
  - apply Forall_app. split; [done|]. apply Forall_singleton. simpl.
    rewrite Hn, fmap_app in Hin. apply elem_of_app in Hin as [?|?]; done.
Qed.

Lemma ownedSince_cloneRecursive base fuel : ∀ x p st st',
  cloneRecursive uuid now fuel x p st = Some st' →
  ownedSince base st →
  (∀ j, (c_next st ≤ j)%nat → uuid j ∉ node_id <$> nodes (c_db base)) →
  ownedSince base st'.
Proof.
  induction fuel as [|fuel IH]; intros x p st st' Hrun Hst Hfresh; [done|].
  destruct (getNode (c_db st) x) as [node|] eqn:Hnode.
  2:{ rewrite cloneRecursive_S, Hnode in Hrun. by simplify_eq. }
  destruct (cloneRecursive_inv uuid now _ _ _ _ _ _ Hrun Hnode)
    as (fuel' & st2 & [= <-] & Hloop & Hg2 & _ & _).
  rewrite cloneRecursive_S, Hnode in Hrun. cbn zeta in Hrun.
  rewrite Hloop in Hrun. simpl in Hrun. injection Hrun as <-.
  set (newId := uuid (c_next st)) in *.
  set (st1 := afterClone uuid now node x p st) in *.
  assert (H1 : ownedSince base st1).
  { destruct Hst as (ns & es & vs & Hn & He & Hv & Fe & Fv).
    exists (ns ++ [cloneNode uuid now node newId p (S (c_next st))]), es, vs.
    split_and!; try done.
    - simpl. by rewrite Hn, (assoc_L (++)).
    - eapply Forall_impl; [exact Fe|]. intros e Hin. simpl in Hin.
      rewrite fmap_app. apply elem_of_app. by left.
    - eapply Forall_impl; [exact Fv|]. intros v Hin. simpl in Hin.
      rewrite fmap_app. apply elem_of_app. by left. }
  assert (H2 : ownedSince base st2).
  { revert Hloop H1.
    assert (Hk : (c_next st ≤ c_next st1)%nat) by (simpl; lia).
    revert Hk. generalize (childrenOf (c_db st1) x). generalize st1.
    intros s cs. revert s.
    induction cs as [|c cs IHcs]; intros s Hk Hloop Hs; simpl in Hloop.
    - by simplify_eq.
    - destruct (cloneRecursive uuid now fuel (node_id c) newId s) as [s1|] eqn:Hc;
        simpl in Hloop; [|by rewrite foldl_option_None in Hloop].
      apply (IHcs s1); [|done|].
      + apply grows_cloneRecursive in Hc as [Hle _]. lia.
      + apply (IH _ _ _ _ Hc Hs). intros j Hj. apply Hfresh. lia. }
  assert (Hin1 : newId ∈ node_id <$> nodes (c_db st1)).
  { simpl. rewrite fmap_app. apply elem_of_app. right. by apply list_elem_of_singleton. }
  assert (Hin2 : newId ∈ node_id <$> nodes (c_db st2)).
  { apply list_elem_of_fmap in Hin1 as (n & -> & Hn).
    apply list_elem_of_fmap_2. by eapply grows_nodes. }
  assert (Hnot : newId ∉ node_id <$> nodes (c_db base)) by (apply Hfresh; lia).
  apply ownedSince_cloneVC; [|..].
  - by apply ownedSince_cloneEdge.
  - by rewrite (proj1 (nodes_foldl_cloneEdge uuid newId _ st2)).
  - done.
Qed.
End clone_relations.


Lemma filter_all_in {A} (P : A → Prop) `{∀ a, Decision (P a)} (l : list A) :
  (∀ a, a ∈ l → P a) → filter P l = l.
Proof.
  induction l as [|a l IH]; intros Hall; [done|].
  rewrite filter_cons_True by (apply Hall; by apply elem_of_cons; left).
  f_equal. apply IH. intros b Hb. apply Hall. by apply elem_of_cons; right.
Qed.

Lemma NoDup_key_pair {A B C} (g : B → C) (ps : list (A * B)) a b na nb :
  NoDup (g <$> ps.*2) → (a, na) ∈ ps → (b, nb) ∈ ps → g na = g nb → a = b.
Proof.
  induction ps as [|[x n] ps IH]; intros Hnd Ha Hb Heq.
  { by apply elem_of_nil in Ha. }
  simpl in Hnd. apply NoDup_cons in Hnd as [Hx Hnd].
  apply elem_of_cons in Ha as [Ha|Ha]; apply elem_of_cons in Hb as [Hb|Hb].
  - congruence.
  - exfalso. simplify_eq. apply Hx. rewrite Heq.
    apply list_elem_of_fmap_2. by apply (list_elem_of_fmap_2 snd _ (b, nb)).
  - exfalso. simplify_eq. apply Hx. rewrite <- Heq.
    apply list_elem_of_fmap_2. by apply (list_elem_of_fmap_2 snd _ (a, na)).
  - by apply IH.
Qed.

Lemma StronglySorted_lt_NoDup (js : list nat) : StronglySorted lt js → NoDup js.
Proof.
  induction 1 as [|j js Hs IH Hall]; constructor; [|done].
  intros Hin. rewrite Forall_forall in Hall. specialize (Hall j Hin). lia.
Qed.

Section duplicate_delete.
Variable uuid : nat → string.
Variable now : Z.
Variables (fuel k : nat) (db : Db) (machine : MachineNode) (L : list string).
Variable st' : CloneState.
Variable pairs : list (string * MachineNode).
Hypothesis ids_unique : NoDup (node_id <$> nodes db).
Hypothesis m_row : machine ∈ nodes db.
Hypothesis HL : subtree fuel db (node_id machine) = Some L.
Hypothesis uuid_not_empty : ∀ j, uuid j ≠ "".
Hypothesis uuid_fresh : ∀ j, (k ≤ j)%nat → uuid j ∉ nodeRefs db.
Hypothesis Hnodes : nodes (c_db st') = nodes db ++ pairs.*2.
Hypothesis Hfst : pairs.*1 = L.
Hypothesis clone_ids_unique : NoDup (node_id <$> pairs.*2).
Hypothesis Hpairs : ∀ x n', (x, n') ∈ pairs →
  c_idMap st' !! x = Some (node_id n')
  ∧ ∃ node j,
      getNode db x = Some node ∧ (k ≤ j)%nat
      ∧ n' = cloneNode uuid now node (uuid j) (node_parentId n') (S j)
      ∧ (x = node_id machine → node_parentId n' = "")
      ∧ (x ≠ node_id machine →
         c_idMap st' !! node_parentId node = Some (node_parentId n')).

Lemma clone_id_fresh x n' : (x, n') ∈ pairs → node_id n' ∉ nodeRefs db.
Proof.
  intros Hin. destruct (Hpairs x n' Hin) as (_ & node & j & _ & Hj & -> & _). simpl.
  by apply uuid_fresh.
Qed.

Lemma clone_id_not_empty x n' : (x, n') ∈ pairs → node_id n' ≠ "".
Proof.
  intros Hin. destruct (Hpairs x n' Hin) as (_ & node & j & _ & Hj & -> & _). simpl.
  apply uuid_not_empty.
Qed.

Lemma pair_of x : x ∈ L → ∃ n', (x, n') ∈ pairs.
Proof.
  rewrite <- Hfst. intros Hx. apply list_elem_of_fmap in Hx as ([y n'] & -> & Hin).
  by exists n'.
Qed.

Lemma pair_in_L x n' : (x, n') ∈ pairs → x ∈ L.
Proof. intros Hin. rewrite <- Hfst. by apply (list_elem_of_fmap_2 fst _ (x, n')). Qed.

(** The children of a clone are the clones of the children. *)
Lemma clone_children x n' c' :
  (x, n') ∈ pairs →
  c' ∈ childrenOf (c_db st') (node_id n')
  ↔ ∃ c, c ∈ childrenOf db x ∧ (node_id c, c') ∈ pairs.
Proof.
  intros Hx. pose proof (pair_in_L _ _ Hx) as HxL.
  destruct (Hpairs x n' Hx) as (Hmx & _).
  rewrite childrenOf_elem, Hnodes. split.
  - intros [Hp Hin]. apply elem_of_app in Hin as [Hold|Hnew].
    + exfalso. apply (clone_id_fresh x n' Hx). unfold nodeRefs.
      apply elem_of_app. right. apply elem_of_app. left.
      rewrite <- Hp. by apply list_elem_of_fmap_2.
    + apply list_elem_of_fmap in Hnew as ([y c''] & -> & Hy). simpl in *.
      destruct (Hpairs y c'' Hy) as (_ & node & j & Hnode & _ & _ & Hroot & Hother).
      destruct (decide (y = node_id machine)) as [Hy0|Hy0].
      { exfalso. apply (clone_id_not_empty x n' Hx). rewrite <- Hp. by apply Hroot. }
      specialize (Hother Hy0). rewrite Hp in Hother.
      apply getNode_Some in Hnode as Hrow. destruct Hrow as [Hrow Hid].
      assert (HpL : node_parentId node ∈ L).
      { apply (subtree_parent db ids_unique fuel (node_id machine) L node HL Hrow).
        - rewrite Hid. by apply (pair_in_L y c'').
        - by rewrite Hid. }
      destruct (pair_of _ HpL) as [np Hnp].
      destruct (Hpairs _ np Hnp) as (Hmp & _).
      assert (Heq : node_parentId node = x).
      { apply (NoDup_key_pair node_id pairs _ _ np n' clone_ids_unique Hnp Hx). congruence. }
      exists node. split; [by apply childrenOf_elem|]. by rewrite Hid.
  - intros (c & Hc & Hin). apply childrenOf_elem in Hc as [Hp Hrow]. split.
    + destruct (Hpairs _ c' Hin) as (_ & node & j & Hnode & _ & _ & _ & Hother).
      rewrite (getNode_row db c ids_unique Hrow) in Hnode. injection Hnode as <-.
      assert (Hne : node_id c ≠ node_id machine).
      { intros Heq.
        destruct (subtree_rows db ids_unique fuel (node_id machine) L c HL Hrow)
          as [_ Hno]. apply Hno. split; [done|]. by rewrite Hp. }
      specialize (Hother Hne). rewrite Hp in Hother. congruence.
    + apply elem_of_app. right. by apply (list_elem_of_fmap_2 snd _ (node_id c, c')).
Qed.

(** The subtree of a clone, in the store after the duplication, holds
    exactly the clones of the subtree of its original. *)
Lemma clone_subtree f : ∀ x Lx n',
  subtree f db x = Some Lx → (∀ y, y ∈ Lx → y ∈ L) → (x, n') ∈ pairs →
  ∃ L', subtree f (c_db st') (node_id n') = Some L'
        ∧ ∀ z, z ∈ L' ↔ ∃ y n'', y ∈ Lx ∧ (y, n'') ∈ pairs ∧ z = node_id n''.
Proof.
  induction f as [|f IH]; intros x Lx n' Hsub HLx Hx; [done|].
  apply subtree_S in Hsub as (ls & Hf & ->).
  assert (Hsubl : ∀ l y, l ∈ ls → y ∈ l → y ∈ L).
  { intros l y Hl Hy. apply HLx. apply elem_of_cons. right.
    apply elem_of_concat. eauto. }
  assert (Hchild : ∀ c', c' ∈ childrenOf (c_db st') (node_id n') →
            ∃ c l L', c ∈ childrenOf db x ∧ (node_id c, c') ∈ pairs
                      ∧ l ∈ ls ∧ subtree f db (node_id c) = Some l
                      ∧ subtree f (c_db st') (node_id c') = Some L'
                      ∧ ∀ z, z ∈ L' ↔ ∃ y n'', y ∈ l ∧ (y, n'') ∈ pairs ∧ z = node_id n'').
  { intros c' Hc'. apply (clone_children x n' c' Hx) in Hc' as (c & Hc & Hin).
    destruct (Forall2_elem_l _ _ _ _ Hf Hc) as (l & Hl & Hsubc).
    destruct (IH _ _ c' Hsubc (λ y, Hsubl l y Hl) Hin) as (L' & HL' & Hel).
    by exists c, l, L'. }
  destruct (mapM (λ child, subtree f (c_db st') (node_id child))
              (childrenOf (c_db st') (node_id n'))) as [ls'|] eqn:HmapM.
  2:{ exfalso.
      assert (Hsome : is_Some (mapM (λ child, subtree f (c_db st') (node_id child))
                                 (childrenOf (c_db st') (node_id n')))).
      { apply mapM_is_Some_2. apply Forall_forall. intros c' Hc'.
        destruct (Hchild c' Hc') as (c & l & L' & _ & _ & _ & _ & HL' & _).
        simpl. by rewrite HL'. }
      rewrite HmapM in Hsome. by destruct Hsome. }
  exists (node_id n' :: concat ls'). split; [simpl; by rewrite HmapM|].
  apply mapM_Some_1 in HmapM.
  intros z. rewrite elem_of_cons, elem_of_concat. split.
  - intros [->|(l' & Hl' & Hz)].
    + exists x, n'. split; [by apply elem_of_cons; left|done].
    + destruct (Forall2_elem_r _ _ _ _ HmapM Hl') as (c' & Hc' & Hsubc').
      destruct (Hchild c' Hc') as (c & l & L' & _ & _ & Hl & _ & HL' & Hel).
      assert (L' = l') as -> by congruence.
      apply Hel in Hz as (y & n'' & Hy & Hin & ->).
      exists y, n''. split; [|done]. apply elem_of_cons. right.
      apply elem_of_concat. eauto.
  - intros (y & n'' & Hy & Hin & ->). apply elem_of_cons in Hy as [->|Hy].
    + left. f_equal. apply (NoDup_fst_eq pairs x n'' n'); [|done|done].
      rewrite Hfst. by apply (subtree_NoDup db ids_unique fuel (node_id machine)).
    + right. apply elem_of_concat in Hy as (l & Hl & Hy).
      destruct (Forall2_elem_r _ _ _ _ Hf Hl) as (c & Hc & Hsubc).
      assert (HcL : node_id c ∈ L).
      { apply (Hsubl l _ Hl). by apply (subtree_root f db). }
      destruct (pair_of _ HcL) as [c' Hcc'].
      assert (Hc' : c' ∈ childrenOf (c_db st') (node_id n')).
      { apply (clone_children x n' c' Hx). eauto. }
      destruct (Forall2_elem_l _ _ _ _ HmapM Hc') as (l' & Hl' & Hsubc').
      destruct (IH _ _ c' Hsubc (λ y0, Hsubl l y0 Hl) Hcc') as (L' & HL' & Hel).
      assert (L' = l') as -> by congruence.
      exists l'. split; [done|]. apply Hel. eauto.
Qed.
End duplicate_delete.

Lemma nodeRefs_elem db x :
  x ∈ nodeRefs db
  ↔ x ∈ node_id <$> nodes db ∨ x ∈ node_parentId <$> nodes db
    ∨ x ∈ edge_parentId <$> edges db ∨ x ∈ problem_machineNodeId <$> problems db
    ∨ x ∈ vc_machineNodeId <$> victoryConditions db
    ∨ x ∈ sc_machineNodeId <$> statusChanges db.
Proof. unfold nodeRefs. rewrite !elem_of_app. tauto. Qed.

Lemma subtree_row_ids db fuel : ∀ n L y,
  subtree fuel db n = Some L → y ∈ L → y = n ∨ y ∈ node_id <$> nodes db.
Proof.
  induction fuel as [|fuel IH]; intros n L y HL Hy; [done|].
  apply subtree_S in HL as (ls & Hf & ->).
  apply elem_of_cons in Hy as [->|Hy]; [by left|]. right.
  apply elem_of_concat in Hy as (l & Hl & Hy).
  destruct (Forall2_elem_r _ _ _ _ Hf Hl) as (c & Hc & Hsub).
  apply childrenOf_elem in Hc as [_ Hrow].
  destruct (IH _ _ _ Hsub Hy) as [->|?]; [by apply list_elem_of_fmap_2|done].
Qed.

Lemma Db_ext (a b : Db) :
  nodes a = nodes b → edges a = edges b → problems a = problems b →
  victoryConditions a = victoryConditions b → statusChanges a = statusChanges b →
  captures a = captures b → events a = events b → a = b.
Proof. destruct a, b. simpl. by intros -> -> -> -> -> -> ->. Qed.

(** X24. Deleting a duplicate gives back the store.  On a store with
    unique node ids, with identifiers that are not empty, differ from one
    another and occur nowhere in the store as a node id, parent id or
    [machineNodeId]: after [duplicateMachine] of a machine, the recursive
    delete of the dashboard on the clone of the machine returns, with the
    same depth of recursion, and leaves exactly the store from before the
    duplication: every node, edge and victory condition that the
    duplication added is removed again and nothing else. *)
Theorem duplicate_then_delete
    (uuid : nat → string) (now : Z) (fuel k : nat) (db : Db)
    (machine : MachineNode) (L : list string) (st' : CloneState) (cloneId : string) :
  NoDup (node_id <$> nodes db) → machine ∈ nodes db →
  subtree fuel db (node_id machine) = Some L → "" ∉ L →
  (∀ j, uuid j ≠ "") →
  (∀ i j, (k ≤ i)%nat → (k ≤ j)%nat → uuid i = uuid j → i = j) →
  (∀ j, (k ≤ j)%nat → uuid j ∉ nodeRefs db) →
  duplicateMachine uuid now fuel k db machine = Some st' →
  c_idMap st' !! node_id machine = Some cloneId →
  deleteRecursive fuel (c_db st') cloneId = Some db.
Proof.
  intros Hnd Hm HL Hempty Hne Hinj Hfresh Hrun Hclone.
  assert (HfreshL : ∀ j, (k ≤ j)%nat → uuid j ∉ L).
  { intros j Hj Hin. apply (Hfresh j Hj). apply nodeRefs_elem. left.
    destruct (subtree_row_ids _ _ _ _ _ HL Hin) as [->|?]; [|done].
    by apply list_elem_of_fmap_2. }
  destruct (duplicateMachine_pairs uuid now fuel k db machine L Hnd Hm HL Hempty HfreshL)
    as (st'' & pairs & Hrun' & Hnodes & Hfst & _ & Hpairs).
  rewrite Hrun in Hrun'. injection Hrun' as <-.
  unfold duplicateMachine in Hrun.
  (* the ids of the clones *)
  destruct (indexed_cloneRecursive uuid now _ _ _ _ _ Hrun)
    as (_ & ns & js & Hns & Hids & Hsorted & Hrange). simpl in Hns, Hrange.
  assert (ns = pairs.*2) as -> by (rewrite Hnodes in Hns; by apply app_inv_head in Hns).
  assert (Hcids : NoDup (node_id <$> pairs.*2)).
  { rewrite Hids. apply NoDup_fmap_2_strong; [|by apply StronglySorted_lt_NoDup].
    intros i j Hi Hj. rewrite Forall_forall in Hrange.
    apply Hinj; [by apply Hrange|by apply Hrange]. }
  (* the owners of the new edges and victory conditions *)
  destruct (ownedSince_cloneRecursive uuid now
              {| c_db := db; c_idMap := ∅; c_next := k |} _ _ _ _ _ Hrun)
    as (ns & es & vs & Hns' & Hes & Hvs & Fe & Fv).
  { exists [], [], []. by rewrite !app_nil_r. }
  { intros j Hj Hin. apply (Hfresh j Hj). apply nodeRefs_elem. by left. }
  simpl in Hns', Hes, Hvs.
  assert (ns = pairs.*2) as -> by (rewrite Hnodes in Hns'; by apply app_inv_head in Hns').
  destruct (grows_cloneRecursive uuid now _ _ _ _ _ Hrun)
    as (_ & _ & Hprob & Hsc & Hcap & Hev & _). simpl in Hprob, Hsc, Hcap, Hev.
  (* the subtree of the clone *)
  assert (HrootL : node_id machine ∈ L) by by apply (subtree_root fuel db).
  destruct (pair_of L pairs Hfst _ HrootL) as [nr Hnr].
  assert (cloneId = node_id nr) as ->.
  { destruct (Hpairs _ _ Hnr) as [Hlook _]. congruence. }
  destruct (clone_subtree uuid now fuel k db machine L st' pairs Hnd HL Hne Hfresh
              Hnodes Hfst Hcids Hpairs fuel (node_id machine) L nr HL (λ y Hy, Hy) Hnr)
    as (L' & Hsub' & Hel).
  assert (Hclones : ∀ n', n' ∈ pairs.*2 → node_id n' ∈ L').
  { intros n' Hn'. apply list_elem_of_fmap in Hn' as ([y n''] & -> & Hin). simpl.
    apply Hel. exists y, n''. split; [|done]. by apply (pair_in_L L pairs Hfst y n''). }
  assert (Hold : ∀ z, z ∈ L' → z ∉ nodeRefs db).
  { intros z Hz. apply Hel in Hz as (y & n'' & _ & Hin & ->).
    by apply (clone_id_fresh uuid now k db machine st' pairs Hfresh Hpairs y n''). }
  assert (Hnd' : NoDup (node_id <$> nodes (c_db st'))).
  { rewrite Hnodes, fmap_app. apply NoDup_app. split; [done|]. split; [|done].
    intros x Hx Hx'. apply list_elem_of_fmap in Hx' as (n' & -> & Hn').
    apply (Hold (node_id n')); [by apply Hclones|]. apply nodeRefs_elem. by left. }
  rewrite (deleteRecursive_subtree fuel (c_db st') (node_id nr) L' Hnd' Hsub').
  f_equal. apply Db_ext; unfold deleteAll; simpl.
  - rewrite Hnodes, filter_app.
    rewrite (filter_all_in _ (nodes db)), (filter_none _ pairs.*2);
      [by rewrite app_nil_r| |].
    + intros n' Hn' Hnot. apply Hnot. by apply Hclones.
    + intros n Hn Hin. apply (Hold _ Hin). apply nodeRefs_elem. left.
      by apply list_elem_of_fmap_2.
  - rewrite Hes, filter_app.
    rewrite (filter_all_in _ (edges db)), (filter_none _ es); [by rewrite app_nil_r| |].
    + intros e He Hnot. apply Hnot. rewrite Forall_forall in Fe.
      specialize (Fe e He). apply list_elem_of_fmap in Fe as (n' & -> & Hn').
      by apply Hclones.
    + intros e He Hin. apply (Hold _ Hin). apply nodeRefs_elem. right. right. left.
      by apply list_elem_of_fmap_2.
  - rewrite Hprob. apply filter_all_in.
    intros p Hp Hin. apply (Hold _ Hin). apply nodeRefs_elem. do 3 right. left.
    by apply list_elem_of_fmap_2.
  - rewrite Hvs, filter_app.
    rewrite (filter_all_in _ (victoryConditions db)), (filter_none _ vs);
      [by rewrite app_nil_r| |].
    + intros v Hv Hnot. apply Hnot. rewrite Forall_forall in Fv.
      specialize (Fv v Hv). apply list_elem_of_fmap in Fv as (n' & -> & Hn').
      by apply Hclones.
    + intros v Hv Hin. apply (Hold _ Hin). apply nodeRefs_elem. do 4 right. left.
      by apply list_elem_of_fmap_2.
  - rewrite Hsc. apply filter_all_in.
    intros c Hc Hin. apply (Hold _ Hin). apply nodeRefs_elem. do 5 right.
    by apply list_elem_of_fmap_2.
  - done.
  - done.
Qed.

Lemma sampleUuid_inj i j : sampleUuid i = sampleUuid j → i = j.
Proof. unfold sampleUuid. simpl. intros [= H]. by apply pretty_nat_inj in H. Qed.

Lemma duplicate_then_delete_witness :
  ∃ st', duplicateMachine sampleUuid 0 3 0 machineWithProcedure rootM = Some st'
         ∧ deleteRecursive 3 (c_db st') "u0" = Some machineWithProcedure.
Proof.
  eexists. split; [vm_compute; reflexivity|].
  eapply (duplicate_then_delete sampleUuid 0 3 0 machineWithProcedure rootM ["m"; "p"]).
  - apply (bool_decide_unpack _). vm_compute. exact I.
  - apply elem_of_cons. by left.
  - vm_compute. reflexivity.
  - apply (bool_decide_unpack _). vm_compute. exact I.
  - intros j. discriminate.
  - intros i j _ _. apply sampleUuid_inj.
  - intros j _ Hin. unfold sampleUuid in Hin. cbn in Hin.
    repeat (apply elem_of_cons in Hin as [Hin|Hin]; [discriminate Hin|]).
    by apply elem_of_nil in Hin.
  - vm_compute. reflexivity.
  - vm_compute. reflexivity.
Defined.

(** ** The identifiers of the items of the feed *)

Lemma forEach_ids {A} (body : A → option (list AttentionItem)) (key : A → string)
    (pre : string) (l : list A) (out : list AttentionItem) :
  (∀ x r it, body x = Some r → it ∈ r → r = [it] ∧ item_id it = pre +:+ key x) →
  forEach body l = Some out → NoDup (key <$> l) →
  NoDup (item_id <$> out)
  ∧ ∀ it, it ∈ out → ∃ x, x ∈ l ∧ item_id it = pre +:+ key x.
Proof.
  intros Hbody. revert out. induction l as [|a l IH]; intros out H Hnd.
  { simpl in H. simplify_eq. split; [constructor|]. intros it Hit.
    by apply elem_of_nil in Hit. }
  simpl in H. destruct (body a) as [ra|] eqn:Hb; simpl in H; [|done].
  destruct (forEach body l) as [rs|] eqn:Hl; simpl in H; [|done]. simplify_eq.
  rewrite fmap_cons in Hnd. apply NoDup_cons in Hnd as [Ha Hnd].
  destruct (IH rs eq_refl Hnd) as [IHnd IHin].
  assert (Hra : ∀ it, it ∈ ra → ra = [it] ∧ item_id it = pre +:+ key a)
    by (intros it; apply Hbody, Hb).
  split.
  - rewrite fmap_app. apply NoDup_app. split_and!; [| |done].
    + destruct ra as [|it ra']; [constructor|].
      destruct (Hra it) as [Heq _]; [by left|]. rewrite Heq. simpl.
      apply NoDup_singleton.
    + intros i Hi Hi'. apply list_elem_of_fmap in Hi as (it & -> & Hit).
      apply list_elem_of_fmap in Hi' as (it' & Heq & Hit').
      destruct (Hra it Hit) as [_ Hid].
      destruct (IHin it' Hit') as (x & Hx & Hid').
      rewrite Hid, Hid' in Heq. apply (inj (String.append pre)) in Heq.
      apply Ha. rewrite Heq. by apply list_elem_of_fmap_2.
  - intros it Hit. apply elem_of_app in Hit as [Hit|Hit].
    + exists a. split; [by left|]. by apply Hra.
    + destruct (IHin it Hit) as (x & Hx & Hid). exists x. split; [by right|done].
Qed.

Lemma NoDup_fmap_filter {A B} (f : A → B) (P : A → Prop) `{∀ x, Decision (P x)}
    (l : list A) :
  NoDup (f <$> l) → NoDup (f <$> filter P l).
Proof.
  intros Hnd. eapply sublist_NoDup; [exact Hnd|].
  apply fmap_sublist, sublist_filter.
Qed.

Lemma staleProblemItem_id fuel now db p r it :
  staleProblemItem fuel now db p = Some r → it ∈ r →
  r = [it] ∧ item_id it = "prob-" +:+ problem_id p.
Proof.
  unfold staleProblemItem. intros H Hit.
  case_bool_decide; [simplify_eq; by apply elem_of_nil in Hit|].
  destruct (findRootMachine _ _ _); simpl in H; [|done]. simplify_eq.
  apply list_elem_of_singleton in Hit. by subst.
Qed.

Lemma blockedMachineItem_id fuel now db n r it :
  blockedMachineItem fuel now db n = Some r → it ∈ r →
  r = [it] ∧ item_id it = "blocked-" +:+ node_id n.
Proof.
  unfold blockedMachineItem. intros H Hit.
  case_bool_decide; [simplify_eq; by apply elem_of_nil in Hit|].
  destruct (findRootMachine _ _ _); simpl in H; [|done]. simplify_eq.
  apply list_elem_of_singleton in Hit. by subst.
Qed.

Lemma unmetVCItem_id fuel now db v r it :
  unmetVCItem fuel now db v = Some r → it ∈ r →
  r = [it] ∧ item_id it = "vc-" +:+ vc_id v.
Proof.
  unfold unmetVCItem. intros H Hit.
  destruct (nodeMapOf (nodes db) !! vc_machineNodeId v) as [node|] eqn:Hn;
    [|simplify_eq; by apply elem_of_nil in Hit].
  case_bool_decide; [simplify_eq; by apply elem_of_nil in Hit|].
  destruct (findRootMachine _ _ _); simpl in H; [|done]. simplify_eq.
  apply list_elem_of_singleton in Hit. by subst.
Qed.

Lemma staleNodeItem_id now n r it :
  Some (staleNodeItem now n) = Some r → it ∈ r →
  r = [it] ∧ item_id it = "stale-" +:+ node_id n.
Proof.
  unfold staleNodeItem. intros H Hit. simplify_eq.
  repeat case_bool_decide; try by apply elem_of_nil in Hit.
  apply list_elem_of_singleton in Hit. by subst.
Qed.

Lemma forEach_total {A B} (f : A → list B) (l : list A) :
  forEach (λ x, Some (f x)) l = Some (concat (map f l)).
Proof. induction l as [|a l IH]; [done|]. simpl. by rewrite IH. Qed.

Lemma agingCaptures_id now db it :
  it ∈ agingCaptures now db → agingCaptures now db = [it] ∧ item_id it = "captures".
Proof.
  unfold agingCaptures. intros Hit.
  destruct (map _ _); [by apply elem_of_nil in Hit|].
  case_bool_decide; [|by apply elem_of_nil in Hit].
  apply list_elem_of_singleton in Hit. by subst.
Qed.

(** X25. The identifiers of the feed are unique.  When the problems, the
    nodes and the victory conditions of the store each have unique ids,
    no two items of a scan share their [id]: a detector pushes at most one
    item for a row, with the id of the row behind the detector's prefix,
    and the prefixes differ. *)
Theorem runScan_ids_unique (fuel : nat) (now : Z) (db : Db) (out : list AttentionItem) :
  NoDup (problem_id <$> problems db) →
  NoDup (node_id <$> nodes db) →
  NoDup (vc_id <$> victoryConditions db) →
  runScan fuel now db = Some out →
  NoDup (item_id <$> out).
Proof.
  intros Hp Hn Hv H. unfold runScan in H.
  destruct (detected fuel now db) as [results|] eqn:Hd; simpl in H; [|done].
  simplify_eq. rewrite (sortBy_perm compareItems results).
  unfold detected in Hd.
  destruct (staleProblems fuel now db) as [r1|] eqn:H1; simpl in Hd; [|done].
  destruct (blockedMachines fuel now db) as [r2|] eqn:H2; simpl in Hd; [|done].
  destruct (unmetVCs fuel now db) as [r3|] eqn:H3; simpl in Hd; [|done].
  simplify_eq.
  destruct (forEach_ids _ problem_id "prob-" _ _
              (staleProblemItem_id fuel now db) H1
              (NoDup_fmap_filter _ _ _ Hp)) as [N1 I1].
  destruct (forEach_ids _ node_id "blocked-" _ _
              (blockedMachineItem_id fuel now db) H2
              (NoDup_fmap_filter _ _ _ Hn)) as [N2 I2].
  destruct (forEach_ids _ vc_id "vc-" _ _
              (unmetVCItem_id fuel now db) H3
              (NoDup_fmap_filter _ _ _ Hv)) as [N3 I3].
  destruct (forEach_ids _ node_id "stale-" _ _
              (staleNodeItem_id now) (forEach_total (staleNodeItem now) _)
              (NoDup_fmap_filter _
                 (λ n, node_parentId n = "" ∧ node_type n = machine) _ Hn))
    as [N4 I4].
  fold (staleNodes now db) in N4, I4.
  assert (N5 : NoDup (item_id <$> agingCaptures now db)).
  { destruct (agingCaptures now db) as [|it l] eqn:Ha; [constructor|].
    destruct (agingCaptures_id now db it) as [Heq _]; [rewrite Ha; by left|].
    rewrite Ha in Heq. rewrite Heq. apply NoDup_singleton. }
  assert (I5 : ∀ it, it ∈ agingCaptures now db → item_id it = "captures")
    by (intros it Hit; by destruct (agingCaptures_id now db it Hit)).
  rewrite !fmap_app.
  repeat (apply NoDup_app; split_and!; [done| |]); [..|done];
    intros i Hi Hi'; apply list_elem_of_fmap in Hi as (a & -> & Ha);
    rewrite <- ?fmap_app in Hi'; apply list_elem_of_fmap in Hi' as (b & Heq & Hb);
    repeat (apply elem_of_app in Hb as [Hb|Hb]);
    repeat match goal with
    | I : ∀ it, it ∈ ?r → _, Hin : _ ∈ ?r |- _ =>
        let x := fresh "x" in let Hx := fresh "Hx" in let Hid := fresh "Hid" in
        first [ destruct (I _ Hin) as (x & Hx & Hid) | pose proof (I _ Hin) as Hid ];
        clear Hin
    end;
    rewrite Hid, Hid0 in Heq; simpl in Heq; discriminate.
Qed.

Lemma runScan_ids_unique_witness :
  ∃ out, runScan 5 (30 * day) scanDb = Some out ∧ NoDup (item_id <$> out).
Proof.
  destruct (runScan 5 (30 * day) scanDb) as [out|] eqn:E;
    [|vm_compute in E; discriminate].
  exists out. split; [done|].
  apply (runScan_ids_unique 5 (30 * day) scanDb out);
    [apply (bool_decide_unpack _); vm_compute; exact I ..|exact E].
Defined.

(** * Duplication: the copies of the edges and victory conditions *)

Lemma rows_foldl_cloneEdge uuid newId l : ∀ s,
  ∃ es, edges (c_db (foldl (cloneEdge uuid newId) s l)) = edges (c_db s) ++ es
        ∧ victoryConditions (c_db (foldl (cloneEdge uuid newId) s l))
          = victoryConditions (c_db s)
        ∧ edgeData <$> es = (λ e, (newId, edge_label e, edge_relationship e)) <$> l.
Proof.
  induction l as [|e l IH]; intros s; simpl.
  { exists []. by rewrite app_nil_r. }
  destruct (IH (cloneEdge uuid newId s e)) as (es & He & Hv & Hd).
  eexists (_ :: es). split_and!.
  - rewrite He. simpl. by rewrite <- (assoc_L (++)).
  - by rewrite Hv.
  - rewrite fmap_cons, Hd. done.
Qed.

Lemma rows_foldl_cloneVC uuid newId l : ∀ s,
  ∃ vs, victoryConditions (c_db (foldl (cloneVC uuid newId) s l))
          = victoryConditions (c_db s) ++ vs
        ∧ edges (c_db (foldl (cloneVC uuid newId) s l)) = edges (c_db s)
        ∧ vcData <$> vs
          = (λ v, (newId, vc_label v, vc_target v, vc_current v, vc_met v, vc_order v))
              <$> l.
Proof.
  induction l as [|v l IH]; intros s; simpl.
  { exists []. by rewrite app_nil_r. }
  destruct (IH (cloneVC uuid newId s v)) as (vs & Hv & He & Hd).
  eexists (_ :: vs). split_and!.
  - rewrite Hv. simpl. by rewrite <- (assoc_L (++)).
  - by rewrite He.
  - rewrite fmap_cons, Hd. done.
Qed.

Lemma pairs_eq {A B} (ps qs : list (A * B)) :
  ps.*1 = qs.*1 → ps.*2 = qs.*2 → ps = qs.
Proof.
  revert qs. induction ps as [|[a b] ps IH]; intros [|[a' b'] qs] H1 H2;
    simplify_eq/=; [done|]. f_equal. by apply IH.
Qed.

Lemma length_bind {A B} (f : A → list B) (l : list A) :
  length (l ≫= f) = sum_list_with (λ a, length (f a)) l.
Proof. induction l as [|a l IH]; [done|]. by rewrite bind_cons, length_app, IH. Qed.

Section clone_rows.
Variable uuid : nat → string.
Variable now : Z.
Variable db : Db.
Variable ids : list string.
Hypothesis ids_unique : NoDup (node_id <$> nodes db).

Lemma filter_rowsExtend_edges st x :
  rowsExtend db ids st → x ∈ ids →
  filter (λ e, edge_parentId e = x) (edges (c_db st))
  = filter (λ e, edge_parentId e = x) (edges db).
Proof.
  intros (es & vs & He & _ & Fe & _) Hx. rewrite He, filter_app.
  rewrite (filter_none _ es); [by rewrite app_nil_r|].
  intros e Hin Heq. rewrite Forall_forall in Fe. apply (Fe e Hin). by rewrite Heq.
Qed.

Lemma filter_rowsExtend_vcs st x :
  rowsExtend db ids st → x ∈ ids →
  filter (λ v, vc_machineNodeId v = x) (victoryConditions (c_db st))
  = filter (λ v, vc_machineNodeId v = x) (victoryConditions db).
Proof.
  intros (es & vs & _ & Hv & _ & Fv) Hx. rewrite Hv, filter_app.
  rewrite (filter_none _ vs); [by rewrite app_nil_r|].
  intros v Hin Heq. rewrite Forall_forall in Fv. apply (Fv v Hin). by rewrite Heq.
Qed.

Lemma rowsExtend_app st st' es vs :
  rowsExtend db ids st →
  edges (c_db st') = edges (c_db st) ++ es →
  victoryConditions (c_db st') = victoryConditions (c_db st) ++ vs →
  Forall (λ e, edge_parentId e ∉ ids) es →
  Forall (λ v, vc_machineNodeId v ∉ ids) vs →
  rowsExtend db ids st'.
Proof.
  intros (es0 & vs0 & He0 & Hv0 & Fe0 & Fv0) He Hv Fe Fv.
  exists (es0 ++ es), (vs0 ++ vs). split_and!.
  - by rewrite He, He0, (assoc_L (++)).
  - by rewrite Hv, Hv0, (assoc_L (++)).
  - by apply Forall_app.
  - by apply Forall_app.
Qed.

Lemma copied_rowsExtend st st' pairs :
  rowsExtend db ids st → copied db ids st st' pairs → rowsExtend db ids st'.
Proof.
  intros Hst (es & vs & He & Hv & Fe & Fv & _). by eapply rowsExtend_app.
Qed.

Lemma copied_app st1 st2 st3 ps qs :
  copied db ids st1 st2 ps → copied db ids st2 st3 qs → copied db ids st1 st3 (ps ++ qs).
Proof.
  intros (es & vs & He & Hv & Fe & Fv & Pe & Pv)
         (es' & vs' & He' & Hv' & Fe' & Fv' & Pe' & Pv').
  exists (es ++ es'), (vs ++ vs'). split_and!.
  - by rewrite He', He, (assoc_L (++)).
  - by rewrite Hv', Hv, (assoc_L (++)).
  - by apply Forall_app.
  - by apply Forall_app.
  - by rewrite fmap_app, bind_app, Pe, Pe'.
  - by rewrite fmap_app, bind_app, Pv, Pv'.
Qed.

Lemma copiedLoop fuel newId k0 :
  (∀ y p st L st' pairs,
     subtree fuel db y = Some L → (∀ z, z ∈ L → z ∈ ids) → is_Some (getNode db y) →
     p ∉ ids → extends db ids st → (∀ j, (c_next st ≤ j)%nat → uuid j ∉ ids) →
     rowsExtend db ids st →
     cloneRecursive uuid now fuel y p st = Some st' →
     nodes (c_db st') = nodes (c_db st) ++ pairs.*2 → pairs.*1 = L →
     copied db ids st st' pairs) →
  newId ∉ ids → (∀ j, (k0 ≤ j)%nat → uuid j ∉ ids) →
  ∀ cs ls, Forall2 (λ c l, subtree fuel db (node_id c) = Some l) cs ls →
  (∀ c, c ∈ cs → c ∈ nodes db) →
  (∀ z, z ∈ concat ls → z ∈ ids) →
  ∀ st st2, extends db ids st → (k0 ≤ c_next st)%nat → rowsExtend db ids st →
  foldl (λ acc child, s ← acc; cloneRecursive uuid now fuel (node_id child) newId s)
        (Some st) cs = Some st2 →
  ∃ ps, nodes (c_db st2) = nodes (c_db st) ++ ps.*2
        ∧ ps.*1 = concat ls
        ∧ copied db ids st st2 ps.
Proof.
  intros IH HnewId Hfresh cs ls Hf.
  induction Hf as [|c l cs ls Hc Hf IHf]; intros Hrows Hsub st st2 Hext Hk Hrx Hfold.
  { simpl in Hfold. simplify_eq. exists []. split_and!; [by rewrite app_nil_r|done|].
    exists [], []. rewrite !app_nil_r. split_and!; done. }
  assert (Hl : ∀ z, z ∈ l → z ∈ ids).
  { intros z Hz. apply Hsub. simpl. apply elem_of_app. by left. }
  assert (Hg : is_Some (getNode db (node_id c))).
  { apply getNode_is_Some. apply Hrows. by apply elem_of_cons; left. }
  assert (Hfr : ∀ j, (c_next st ≤ j)%nat → uuid j ∉ ids).
  { intros j Hj. apply Hfresh. lia. }
  destruct (cloneRecursive_exact uuid now db ids ids_unique fuel (node_id c) newId st l
              Hc Hl Hg HnewId Hext Hfr)
    as (st1 & ps & Hrun & Hn1 & Hfst & _ & Hk1 & Hps).
  simpl in Hfold. rewrite Hrun in Hfold. simpl in Hfold.
  assert (Hcp : copied db ids st st1 ps) by by eapply (IH (node_id c) newId st l st1 ps).
  assert (Hext1 : extends db ids st1).
  { apply (extends_app db ids st st1 ps.*2 Hext Hn1).
    apply (clonesOf_fresh uuid now db ids (c_next st) newId ps Hps HnewId Hfr). }
  destruct (IHf) with (st := st1) (st2 := st2) as (qs & Hn2 & Hfst2 & Hcp2).
  { intros c' Hc'. apply Hrows. by apply elem_of_cons; right. }
  { intros z Hz. apply Hsub. simpl. apply elem_of_app. by right. }
  { done. }
  { lia. }
  { by eapply copied_rowsExtend. }
  { done. }
  exists (ps ++ qs). split_and!.
  - by rewrite Hn2, Hn1, fmap_app, (assoc_L (++)).
  - simpl. by rewrite fmap_app, Hfst, Hfst2.
  - by eapply copied_app.
Qed.

Lemma cloneRecursive_copied fuel : ∀ y p st L st' pairs,
  subtree fuel db y = Some L → (∀ z, z ∈ L → z ∈ ids) → is_Some (getNode db y) →
  p ∉ ids → extends db ids st → (∀ j, (c_next st ≤ j)%nat → uuid j ∉ ids) →
  rowsExtend db ids st →
  cloneRecursive uuid now fuel y p st = Some st' →
  nodes (c_db st') = nodes (c_db st) ++ pairs.*2 → pairs.*1 = L →
  copied db ids st st' pairs.
Proof.
  induction fuel as [|fuel IH];
    intros x p st L st' pairs HL Hsub [node Hnode] Hp Hext Hfresh Hrx Hrun Hnodes Hfst;
    [done|].
  apply subtree_S in HL as (ls & Hf & ->).
  assert (Hx : x ∈ ids). { apply Hsub. by apply elem_of_cons; left. }
  rewrite cloneRecursive_S, (getNode_extends db ids st x Hext Hx), Hnode in Hrun.
  cbv beta iota zeta in Hrun.
  set (newId := uuid (c_next st)) in *.
  set (clone := cloneNode uuid now node newId p (S (c_next st))) in *.
  set (st1 := afterClone uuid now node x p st) in *.
  assert (HnewId : newId ∉ ids). { apply Hfresh. lia. }
  assert (Hext1 : extends db ids st1).
  { apply (extends_app db ids st st1 [clone] Hext); [done|].
    apply Forall_singleton. by split. }
  assert (Hrx1 : rowsExtend db ids st1) by exact Hrx.
  rewrite (childrenOf_extends db ids st1 x Hext1 Hx) in Hrun.
  destruct (foldl _ (Some st1) (childrenOf db x)) as [st2|] eqn:Hfold;
    simpl in Hrun; [|done].
  destruct (copiedLoop fuel newId (c_next st) IH HnewId Hfresh
              (childrenOf db x) ls Hf) with (st := st1) (st2 := st2)
    as (ps & Hn2 & Hfst2 & Hcp2).
  { intros c Hc. by apply childrenOf_elem in Hc as [_ ?]. }
  { intros z Hz. apply Hsub. by apply elem_of_cons; right. }
  { done. }
  { simpl. lia. }
  { done. }
  { done. }
  assert (Hrx2 : rowsExtend db ids st2) by by eapply copied_rowsExtend.
  rewrite (filter_rowsExtend_edges st2 x Hrx2 Hx) in Hrun.
  set (levelEdges := filter (λ e, edge_parentId e = x) (edges db)) in *.
  destruct (rows_foldl_cloneEdge uuid newId levelEdges st2) as (es3 & He3 & Hv3 & Hd3).
  destruct (nodes_foldl_cloneEdge uuid newId levelEdges st2) as [Hn3 _].
  set (st3 := foldl (cloneEdge uuid newId) st2 levelEdges) in *.
  assert (Hf3 : filter (λ v, vc_machineNodeId v = x) (victoryConditions (c_db st3))
                = filter (λ v, vc_machineNodeId v = x) (victoryConditions db)).
  { rewrite Hv3. by apply filter_rowsExtend_vcs. }
  rewrite Hf3 in Hrun.
  set (vcs := filter (λ v, vc_machineNodeId v = x) (victoryConditions db)) in *.
  destruct (rows_foldl_cloneVC uuid newId vcs st3) as (vs4 & Hv4 & He4 & Hd4).
  destruct (nodes_foldl_cloneVC uuid newId vcs st3) as [Hn4 _].
  injection Hrun as <-.
  assert (Hpairs : pairs = (x, clone) :: ps).
  { apply pairs_eq.
    - by rewrite Hfst, fmap_cons, Hfst2.
    - rewrite Hn4, Hn3, Hn2 in Hnodes. simpl in Hnodes.
      rewrite <- (assoc_L (++)) in Hnodes. apply app_inv_head in Hnodes.
      by rewrite fmap_cons. }
  rewrite Hpairs.
  destruct Hcp2 as (es2 & vs2 & He2 & Hv2 & Fe2 & Fv2 & Pe2 & Pv2).
  exists (es2 ++ es3), (vs2 ++ vs4). split_and!.
  - rewrite He4, He3, He2. simpl. by rewrite (assoc_L (++)).
  - rewrite Hv4, Hv3, Hv2. simpl. by rewrite (assoc_L (++)).
  - apply Forall_app. split; [done|].
    apply Forall_forall. intros e He Hin.
    assert (Hd : edge_parentId e = newId).
    { apply (list_elem_of_fmap_2 edgeData) in He. rewrite Hd3 in He.
      apply list_elem_of_fmap in He as (e0 & Heq & _). unfold edgeData in Heq.
      by simplify_eq. }
    by rewrite Hd in Hin.
  - apply Forall_app. split; [done|].
    apply Forall_forall. intros v Hv Hin.
    assert (Hd : vc_machineNodeId v = newId).
    { apply (list_elem_of_fmap_2 vcData) in Hv. rewrite Hd4 in Hv.
      apply list_elem_of_fmap in Hv as (v0 & Heq & _). unfold vcData in Heq.
      by simplify_eq. }
    by rewrite Hd in Hin.
  - rewrite fmap_app, Pe2, Hd3. simpl. apply Permutation_app_comm.
  - rewrite fmap_app, Pv2, Hd4. simpl. apply Permutation_app_comm.
Qed.
End clone_rows.

(** X26. The duplicate gets every edge and every victory condition of the
    subtree, once.  On a store with unique node ids, when the subtree of
    the machine has no empty id and none of the identifiers still to come,
    the rows that [duplicateMachine] adds to the edge and
    victory-condition tables are, up to their order and their new ids,
    one copy of each row owned by a node of the subtree, handed to the
    clone of that node: an edge keeps label and relationship, a victory
    condition keeps label, target, current value, order and its [met]
    flag, which is not reset.  So the two tables grow by the number of
    rows that the subtree owns. *)
Theorem duplicateMachine_copies_rows
    (uuid : nat → string) (now : Z) (fuel k : nat) (db : Db)
    (machine : MachineNode) (L : list string) :
  NoDup (node_id <$> nodes db) → machine ∈ nodes db →
  subtree fuel db (node_id machine) = Some L →
  "" ∉ L → (∀ j, (k ≤ j)%nat → uuid j ∉ L) →
  ∃ st' pairs es vs,
    duplicateMachine uuid now fuel k db machine = Some st'
    ∧ nodes (c_db st') = nodes db ++ pairs.*2
    ∧ pairs.*1 = L
    ∧ edges (c_db st') = edges db ++ es
    ∧ victoryConditions (c_db st') = victoryConditions db ++ vs
    ∧ edgeData <$> es ≡ₚ pairs ≫= edgeCopies db
    ∧ vcData <$> vs ≡ₚ pairs ≫= vcCopies db
    ∧ length es = length (filter (λ e, edge_parentId e ∈ L) (edges db))
    ∧ length vs = length (filter (λ v, vc_machineNodeId v ∈ L) (victoryConditions db)).
Proof.
  intros Hnd Hm HL Hempty Hfresh.
  destruct (duplicateMachine_pairs uuid now fuel k db machine L Hnd Hm HL Hempty Hfresh)
    as (st' & pairs & Hrun & Hnodes & Hfst & _ & _).
  destruct (cloneRecursive_copied uuid now db L Hnd fuel (node_id machine) ""
              {| c_db := db; c_idMap := ∅; c_next := k |} L st' pairs HL)
    as (es & vs & He & Hv & _ & _ & Pe & Pv);
    [done|by apply getNode_is_Some|done| |done| |exact Hrun|exact Hnodes|exact Hfst|].
  { exists []. split; [by rewrite app_nil_r|done]. }
  { exists [], []. by rewrite !app_nil_r. }
  simpl in He, Hv.
  assert (HndL : NoDup L) by by apply (subtree_NoDup db Hnd fuel (node_id machine)).
  exists st', pairs, es, vs. split_and!; try done.
  - rewrite <- (length_fmap edgeData), Pe, length_bind.
    rewrite (length_filter_elem_of edge_parentId (edges db) L HndL), <- Hfst.
    clear. induction pairs as [|q qs IH]; [done|]. simpl. rewrite IH.
    unfold edgeCopies. by rewrite length_fmap.
  - rewrite <- (length_fmap vcData), Pv, length_bind.
    rewrite (length_filter_elem_of vc_machineNodeId (victoryConditions db) L HndL),
      <- Hfst.
    clear. induction pairs as [|q qs IH]; [done|]. simpl. rewrite IH.
    unfold vcCopies. by rewrite length_fmap.
Qed.

Lemma duplicateMachine_copies_rows_witness :
  ∃ st' es vs,
    duplicateMachine sampleUuid 0 3 0 goalDb salesM = Some st'
    ∧ edges (c_db st') = edges goalDb ++ es
    ∧ victoryConditions (c_db st') = victoryConditions goalDb ++ vs
    ∧ length es = 1%nat ∧ length vs = 1%nat
    ∧ vcData <$> vs ≡ₚ [("u1", "10 calls a day", "10", "12", true, 0)].
Proof.
  destruct (duplicateMachine_copies_rows sampleUuid 0 3 0 goalDb salesM ["m"; "x"])
    as (st' & pairs & es & vs & Hrun & Hnodes & Hfst & He & Hv & _ & Pv & Le & Lv).
  - apply (bool_decide_unpack _). vm_compute. exact I.
  - apply elem_of_cons. by left.
  - vm_compute. reflexivity.
  - apply (bool_decide_unpack _). vm_compute. exact I.
  - intros j _ Hin. unfold sampleUuid in Hin. cbn in Hin.
    repeat (apply elem_of_cons in Hin as [Hin|Hin]; [discriminate Hin|]).
    by apply elem_of_nil in Hin.
  - exists st', es, vs. split_and!; try done.
    assert (Hps : pairs = zip ["m"; "x"] (drop 2 (nodes (c_db st')))).
    { rewrite Hnodes, <- Hfst. change (drop 2 (nodes goalDb ++ pairs.*2)) with pairs.*2.
      clear. induction pairs as [|[a b] ps IH]; [done|]. simpl. by f_equal. }
    rewrite Pv, Hps. clear -Hrun. vm_compute in Hrun. injection Hrun as <-.
    vm_compute. reflexivity.
Defined.

(** * Problems of a machine *)

Lemma handleUpdateProblem_problems uuid now id u w :
  problems (ps_db (handleUpdateProblem uuid now id u w))
  = problems (updateProblem id u (ps_db w)).
Proof. unfold handleUpdateProblem. by destruct (getProblem _ _). Qed.

Lemma handleUpdateProblem_events uuid now id u w :
  events (ps_db (handleUpdateProblem uuid now id u w))
  = events (ps_db w)
    ++ match getProblem (ps_db w) id with
       | Some ex =>
           [{| event_id := uuid (ps_next w);
               event_nodeId := problem_machineNodeId ex;
               event_eventType := if bool_decide (pu_status u = Some resolved)
                                  then ev_problem_resolved else ev_problem_updated;
               event_timestamp := now;
               event_previousValue := None; event_newValue := None;
               event_metadata := Some id |}]
       | None => []
       end.
Proof.
  unfold handleUpdateProblem. destruct (getProblem _ _); simpl; [done|].
  by rewrite app_nil_r.
Qed.

(** X27. The status select keeps [resolvedAt] in step with the status.
    After a change of the select of a problem card, every row of the
    store with the id of the card has the chosen status, and a
    [resolvedAt] date (the current one) exactly when that status is
    [resolved]; the other rows are as before, and so is every other field
    of the updated rows.  When the store had a row with that id one event
    is logged for its machine, [problem-resolved] exactly when the chosen
    status is [resolved] and [problem-updated] otherwise; when it had
    none, nothing is logged. *)
Theorem selectProblemStatus_resolvedAt
    (uuid : nat → string) (now : Z) (problem : Problem) (status : ProblemStatus)
    (w : ProblemsState) :
  let w' := selectProblemStatus uuid now problem status w in
  Forall2 (λ p q,
      if bool_decide (problem_id p = problem_id problem)
      then problem_status q = status
           ∧ problem_resolvedAt q = (if bool_decide (status = resolved)
                                     then Some now else None)
           ∧ (is_Some (problem_resolvedAt q) ↔ problem_status q = resolved)
           ∧ problem_id q = problem_id p
           ∧ problem_machineNodeId q = problem_machineNodeId p
           ∧ problem_title q = problem_title p
           ∧ problem_description q = problem_description p
           ∧ problem_severity q = problem_severity p
           ∧ problem_diagnosis q = problem_diagnosis p
           ∧ problem_plan q = problem_plan p
           ∧ problem_createdAt q = problem_createdAt p
      else q = p)
    (problems (ps_db w)) (problems (ps_db w'))
  ∧ (∀ ex, getProblem (ps_db w) (problem_id problem) = Some ex →
       ∃ e, events (ps_db w') = events (ps_db w) ++ [e]
            ∧ event_nodeId e = problem_machineNodeId ex
            ∧ event_metadata e = Some (problem_id problem)
            ∧ (event_eventType e = ev_problem_resolved ↔ status = resolved)
            ∧ (event_eventType e = ev_problem_updated ↔ status ≠ resolved))
  ∧ (getProblem (ps_db w) (problem_id problem) = None →
       events (ps_db w') = events (ps_db w)).
Proof.
  intros w'. unfold w', selectProblemStatus. split_and!.
  - rewrite handleUpdateProblem_problems. simpl.
    apply Forall2_fmap_r, Forall_Forall2_diag, Forall_forall. intros p _.
    unfold compose. cbv beta. case_bool_decide; [|done]. simpl. split_and!; try done.
    case_bool_decide as Hs; split; intros Hx; done.
  - intros ex Hex. rewrite handleUpdateProblem_events, Hex. simpl.
    eexists. split; [done|]. simpl. split_and!; try done.
    + case_bool_decide as Hs; [simplify_eq; by split|].
      split; [done|]. intros ->. done.
    + case_bool_decide as Hs; [simplify_eq; split; [done|]; by intros H|].
      split; [|done]. intros _ ->. done.
  - intros Hnone. rewrite handleUpdateProblem_events, Hnone. by rewrite app_nil_r.
Qed.

(** X28. Saving the diagnosis or the plan of a problem sets its status
    from the text alone.  After [save] on the field [diagnosis] every row
    of the store with the id of the card has the text as its diagnosis and
    the status [diagnosing], or [open] when the text is empty; on the
    field [plan] it has the text as its plan and the status [planned], or
    [diagnosing] when the text is empty.  The status that the row had does
    not matter and [resolvedAt] stays as it was: a resolved problem comes
    out unresolved with its [resolvedAt] date still set, the event logged
    is [problem-updated], and the row counts again among the problems that
    are not resolved. *)
Theorem saveProblemField_status
    (uuid : nat → string) (now : Z) (problem : Problem) (f ev : string)
    (w : ProblemsState) :
  f = "diagnosis" ∨ f = "plan" →
  let w' := saveProblemField uuid now problem f ev w in
  Forall2 (λ p q,
      if bool_decide (problem_id p = problem_id problem)
      then problem_status q = statusOfText f ev
           ∧ problem_status q ≠ resolved
           ∧ problem_resolvedAt q = problem_resolvedAt p
           ∧ problem_diagnosis q = (if bool_decide (f = "diagnosis") then ev
                                    else problem_diagnosis p)
           ∧ problem_plan q = (if bool_decide (f = "plan") then ev
                               else problem_plan p)
           ∧ problem_id q = problem_id p
           ∧ problem_createdAt q = problem_createdAt p
      else q = p)
    (problems (ps_db w)) (problems (ps_db w'))
  ∧ (∀ p, p ∈ problems (ps_db w) → problem_id p = problem_id problem →
       ∃ q, q ∈ filter (λ q, problem_status q ≠ resolved) (problems (ps_db w'))
            ∧ problem_id q = problem_id p
            ∧ problem_resolvedAt q = problem_resolvedAt p)
  ∧ (∀ ex, getProblem (ps_db w) (problem_id problem) = Some ex →
       ∃ e, events (ps_db w') = events (ps_db w) ++ [e]
            ∧ event_nodeId e = problem_machineNodeId ex
            ∧ event_eventType e = ev_problem_updated).
Proof.
  intros Hf w'.
  assert (Hrows : Forall2 (λ p q,
      if bool_decide (problem_id p = problem_id problem)
      then problem_status q = statusOfText f ev
           ∧ problem_status q ≠ resolved
           ∧ problem_resolvedAt q = problem_resolvedAt p
           ∧ problem_diagnosis q = (if bool_decide (f = "diagnosis") then ev
                                    else problem_diagnosis p)
           ∧ problem_plan q = (if bool_decide (f = "plan") then ev
                               else problem_plan p)
           ∧ problem_id q = problem_id p
           ∧ problem_createdAt q = problem_createdAt p
      else q = p)
    (problems (ps_db w)) (problems (ps_db w'))).
  { unfold w', saveProblemField.
    destruct Hf as [-> | ->]; simpl; rewrite handleUpdateProblem_problems; simpl;
      apply Forall2_fmap_r, Forall_Forall2_diag, Forall_forall; intros p _;
      unfold compose; cbv beta; (case_bool_decide; [|done]); simpl; unfold statusOfText; simpl;
      split_and!; try done; by destruct (truthy ev). }
  split_and!; [exact Hrows| |].
  - intros p Hp Hid. apply list_elem_of_lookup in Hp as [i Hi].
    destruct (Forall2_lookup_l _ _ _ _ _ Hrows Hi) as (q & Hq & Hpq).
    rewrite bool_decide_eq_true_2 in Hpq by done.
    destruct Hpq as (_ & Hns & Hr & _ & _ & Hqid & _).
    exists q. split_and!; try done.
    apply list_elem_of_filter. split; [done|]. by eapply list_elem_of_lookup_2.
  - intros ex Hex. unfold w', saveProblemField.
    destruct Hf as [-> | ->]; simpl; rewrite handleUpdateProblem_events, Hex; simpl;
      (eexists; split; [done|]); simpl; (split; [done|]);
      rewrite bool_decide_eq_false_2; try done; by destruct (truthy ev).
Qed.

Lemma saveProblemField_status_witness :
  ∃ q, problems (ps_db (saveProblemField sampleUuid (9 * day) resolvedProblem
                          "diagnosis" "bad list" resolvedState)) = [q]
       ∧ problem_status q = diagnosing
       ∧ problem_resolvedAt q = Some (5 * day).
Proof.
  destruct (saveProblemField_status sampleUuid (9 * day) resolvedProblem
              "diagnosis" "bad list" resolvedState) as (Hrows & _ & _);
    [by left|].
  cbv zeta in Hrows.
  destruct (problems (ps_db (saveProblemField sampleUuid (9 * day) resolvedProblem
                               "diagnosis" "bad list" resolvedState)))
    as [|q [|q' l]] eqn:E; [vm_compute in E; discriminate| |vm_compute in E; discriminate].
  exists q. split; [done|].
  apply Forall2_cons_1 in Hrows as [Hq _]. 
  rewrite bool_decide_eq_true_2 in Hq by done.
  destruct Hq as (Hs & _ & Hr & _). split; [exact Hs|exact Hr].
Defined.

Lemma compareProblems_total x y : compareProblems x y > 0 → compareProblems y x <= 0.
Proof. unfold compareProblems. repeat case_bool_decide; lia. Qed.

Lemma compareProblems_trans x y z :
  compareProblems x y <= 0 → compareProblems y z <= 0 → compareProblems x z <= 0.
Proof. unfold compareProblems. repeat case_bool_decide; lia. Qed.

Lemma PROBLEM_SEVERITY_ORDER_inj a b :
  PROBLEM_SEVERITY_ORDER a = PROBLEM_SEVERITY_ORDER b → a = b.
Proof. by destruct a, b. Qed.

Lemma problemBefore_compare a b : problemBefore a b ↔ compareProblems a b <= 0.
Proof.
  unfold problemBefore, compareProblems. split.
  - intros [Hlt|[Heq Hle]]; case_bool_decide; try lia. rewrite Heq in *. lia.
  - intros Hle. case_bool_decide as Hne; [left; lia|].
    right. split; [|lia]. apply PROBLEM_SEVERITY_ORDER_inj. lia.
Qed.

Lemma severityName_inj a b : severityName a = severityName b → a = b.
Proof. by destruct a, b. Qed.

(** X29. The problems of a machine are listed by severity, then by age.
    [sortedProblems] is a rearrangement of the problems that pass the
    severity filter (all of them for the empty filter, those of one
    severity for the name of that severity), in which a more severe
    problem comes before a less severe one and, among problems of the same
    severity, an older one before a younger one; problems of the same
    severity and date keep their order. *)
Theorem sortedProblems_ranked (severityFilter : string) (problems : list Problem) :
  let out := sortedProblems severityFilter problems in
  StronglySorted problemBefore out
  ∧ (∀ p, p ∈ out ↔
          p ∈ problems
          ∧ (severityFilter = "" ∨ severityName (problem_severity p) = severityFilter))
  ∧ (severityFilter = "" → out ≡ₚ problems)
  ∧ (∀ s, severityFilter = severityName s →
          out ≡ₚ filter (λ p, problem_severity p = s) problems)
  ∧ (∀ s t, filter (λ p, problem_severity p = s ∧ problem_createdAt p = t) out
            = filter (λ p, problem_severity p = s ∧ problem_createdAt p = t)
                (filter (λ p, negb (truthy severityFilter)
                              || bool_decide (severityName (problem_severity p)
                                              = severityFilter)) problems)).
Proof.
  intros out. unfold out, sortedProblems.
  set (kept := filter _ problems).
  assert (Hkept : ∀ p, p ∈ kept ↔
            p ∈ problems
            ∧ (severityFilter = "" ∨ severityName (problem_severity p) = severityFilter)).
  { intros p. unfold kept. rewrite list_elem_of_filter. unfold truthy.
    split.
    - intros [Hp Hin]. split; [done|].
      apply orb_prop_elim in Hp as [Hp|Hp].
      + left. apply negb_prop_elim in Hp. apply dec_stable. intros Hne. apply Hp.
        by apply bool_decide_pack.
      + right. by apply bool_decide_unpack in Hp.
    - intros [Hin [Hp|Hp]]; (split; [|done]); apply orb_prop_intro.
      + left. apply negb_prop_intro. intros Hb. apply bool_decide_unpack in Hb. done.
      + right. by apply bool_decide_pack. }
  split_and!.
  - eapply StronglySorted_ind with (P := StronglySorted problemBefore);
      [constructor| |apply (sortBy_sorted compareProblems
                              compareProblems_total compareProblems_trans kept)].
    intros a l _ IH Hall. constructor; [done|].
    eapply Forall_impl; [exact Hall|]. intros b. apply problemBefore_compare.
  - intros p. by rewrite (sortBy_perm compareProblems kept).
  - intros ->. rewrite sortBy_perm. unfold kept.
    replace (filter _ problems) with problems; [done|].
    clear. induction problems as [|p ps IH]; [done|].
    rewrite filter_cons_True; [by f_equal|]. done.
  - intros s ->. rewrite sortBy_perm. unfold kept.
    replace (filter _ problems) with (filter (λ p, problem_severity p = s) problems);
      [done|].
    clear. induction problems as [|p ps IH]; [done|].
    rewrite !filter_cons, IH.
    destruct (decide (problem_severity p = s)) as [Heq|Hne].
    + rewrite decide_True; [done|]. apply orb_prop_intro. right.
      apply bool_decide_pack. by rewrite Heq.
    + rewrite decide_False; [done|]. intros Hp. apply orb_prop_elim in Hp as [Hp|Hp].
      * by destruct s.
      * apply bool_decide_unpack in Hp. by apply severityName_inj in Hp.
  - intros s t. apply sortBy_stable.
    intros x y [Hx1 Hx2] [Hy1 Hy2]. apply problemBefore_compare.
    right. split; [congruence|lia].
Qed.

(** * Duplication: every edge of the subtree and its endpoints *)

Section clone_edge_exact.
Variable uuid : nat → string.
Variable now : Z.
Variable db : Db.
Variable ids : list string.
Hypothesis ids_unique : NoDup (node_id <$> nodes db).

Lemma clonedIn_later st st1 st2 ps qs e :
  clonedIn uuid db st st1 ps e → grows uuid st1 st2 →
  clonedIn uuid db st st2 (ps ++ qs) e.
Proof.
  intros (ps1 & ps2 & pre & Lz & f & n' & j & -> & Hfst & Hsub & Hin & He) Hg.
  exists ps1, (ps2 ++ qs), pre, Lz, f, n', j. split_and!; try done.
  - by rewrite (assoc_L (++)).
  - by eapply grows_edges.
Qed.

Lemma clonedIn_earlier st st1 st2 ps qs e :
  c_idMap st1 = setAll ps (c_idMap st) →
  clonedIn uuid db st1 st2 qs e →
  clonedIn uuid db st st2 (ps ++ qs) e.
Proof.
  intros Hmap (ps1 & ps2 & pre & Lz & f & n' & j & -> & Hfst & Hsub & Hin & He).
  exists (ps ++ ps1), ps2, (ps.*1 ++ pre), Lz, f, n', j. split_and!; try done.
  - by rewrite (assoc_L (++)).
  - by rewrite fmap_app, Hfst, (assoc_L (++)).
  - apply elem_of_app. by right.
  - by rewrite setAll_app, <- Hmap.
Qed.

Lemma edgeLoop fuel newId k0 :
  (∀ y p st L st' pairs,
     subtree fuel db y = Some L → (∀ z, z ∈ L → z ∈ ids) → is_Some (getNode db y) →
     p ∉ ids → extends db ids st → (∀ j, (c_next st ≤ j)%nat → uuid j ∉ ids) →
     cloneRecursive uuid now fuel y p st = Some st' →
     nodes (c_db st') = nodes (c_db st) ++ pairs.*2 → pairs.*1 = L →
     ∀ e, e ∈ edges (c_db st) → edge_parentId e ∈ L →
          clonedIn uuid db st st' pairs e) →
  newId ∉ ids → (∀ j, (k0 ≤ j)%nat → uuid j ∉ ids) →
  ∀ cs ls, Forall2 (λ c l, subtree fuel db (node_id c) = Some l) cs ls →
  (∀ c, c ∈ cs → c ∈ nodes db) →
  (∀ z, z ∈ concat ls → z ∈ ids) →
  ∀ st st2, extends db ids st → (k0 ≤ c_next st)%nat →
  foldl (λ acc child, s ← acc; cloneRecursive uuid now fuel (node_id child) newId s)
        (Some st) cs = Some st2 →
  ∃ ps, nodes (c_db st2) = nodes (c_db st) ++ ps.*2
        ∧ ps.*1 = concat ls
        ∧ c_idMap st2 = setAll ps (c_idMap st)
        ∧ grows uuid st st2
        ∧ ∀ e, e ∈ edges (c_db st) → edge_parentId e ∈ concat ls →
               clonedIn uuid db st st2 ps e.
Proof.
  intros IH HnewId Hfresh cs ls Hf.
  induction Hf as [|c l cs ls Hc Hf IHf]; intros Hrows Hsub st st2 Hext Hk Hfold.
  { simpl in Hfold. simplify_eq. exists []. split_and!; try done.
    - by rewrite app_nil_r.
    - apply grows_refl.
    - intros e _ He. by apply elem_of_nil in He. }
  assert (Hl : ∀ z, z ∈ l → z ∈ ids).
  { intros z Hz. apply Hsub. simpl. apply elem_of_app. by left. }
  assert (Hg : is_Some (getNode db (node_id c))).
  { apply getNode_is_Some. apply Hrows. by apply elem_of_cons; left. }
  assert (Hfr : ∀ j, (c_next st ≤ j)%nat → uuid j ∉ ids).
  { intros j Hj. apply Hfresh. lia. }
  destruct (cloneRecursive_exact uuid now db ids ids_unique fuel (node_id c) newId st l
              Hc Hl Hg HnewId Hext Hfr)
    as (st1 & ps & Hrun & Hn1 & Hfst & Hm1 & Hk1 & Hps).
  simpl in Hfold. rewrite Hrun in Hfold. simpl in Hfold.
  assert (Hg1 : grows uuid st st1) by by eapply grows_cloneRecursive.
  assert (Hext1 : extends db ids st1).
  { apply (extends_app db ids st st1 ps.*2 Hext Hn1).
    apply (clonesOf_fresh uuid now db ids (c_next st) newId ps Hps HnewId Hfr). }
  destruct (IHf) with (st := st1) (st2 := st2) as (qs & Hn2 & Hfst2 & Hm2 & Hg2 & Hedges).
  { intros c' Hc'. apply Hrows. by apply elem_of_cons; right. }
  { intros z Hz. apply Hsub. simpl. apply elem_of_app. by right. }
  { done. }
  { lia. }
  { done. }
  exists (ps ++ qs). split_and!.
  - by rewrite Hn2, Hn1, fmap_app, (assoc_L (++)).
  - simpl. by rewrite fmap_app, Hfst, Hfst2.
  - by rewrite setAll_app, Hm2, Hm1.
  - by eapply grows_trans.
  - intros e He Hp. simpl in Hp. apply elem_of_app in Hp as [Hp|Hp].
    + eapply clonedIn_later; [|exact Hg2].
      by eapply (IH (node_id c) newId st l st1 ps).
    + eapply clonedIn_earlier; [exact Hm1|].
      apply Hedges; [|done]. by eapply grows_edges.
Qed.

Lemma cloneRecursive_edge fuel : ∀ y p st L st' pairs,
  subtree fuel db y = Some L → (∀ z, z ∈ L → z ∈ ids) → is_Some (getNode db y) →
  p ∉ ids → extends db ids st → (∀ j, (c_next st ≤ j)%nat → uuid j ∉ ids) →
  cloneRecursive uuid now fuel y p st = Some st' →
  nodes (c_db st') = nodes (c_db st) ++ pairs.*2 → pairs.*1 = L →
  ∀ e, e ∈ edges (c_db st) → edge_parentId e ∈ L →
       clonedIn uuid db st st' pairs e.
Proof.
  induction fuel as [|fuel IH];
    intros x p st L st' pairs HL Hsub [node Hnode] Hp Hext Hfresh Hrun Hnodes Hfst e He HeL;
    [done|].
  assert (HL' := HL).
  apply subtree_S in HL as (ls & Hf & ->).
  assert (Hx : x ∈ ids). { apply Hsub. by apply elem_of_cons; left. }
  rewrite cloneRecursive_S, (getNode_extends db ids st x Hext Hx), Hnode in Hrun.
  cbv beta iota zeta in Hrun.
  set (newId := uuid (c_next st)) in *.
  set (clone := cloneNode uuid now node newId p (S (c_next st))) in *.
  set (st1 := afterClone uuid now node x p st) in *.
  assert (HnewId : newId ∉ ids). { apply Hfresh. lia. }
  assert (Hext1 : extends db ids st1).
  { apply (extends_app db ids st st1 [clone] Hext); [done|].
    apply Forall_singleton. by split. }
  assert (Hg01 : grows uuid st st1) by apply grows_afterClone.
  rewrite (childrenOf_extends db ids st1 x Hext1 Hx) in Hrun.
  destruct (foldl _ (Some st1) (childrenOf db x)) as [st2|] eqn:Hfold;
    simpl in Hrun; [|done].
  destruct (edgeLoop fuel newId (c_next st) IH HnewId Hfresh
              (childrenOf db x) ls Hf) with (st := st1) (st2 := st2)
    as (ps & Hn2 & Hfst2 & Hm2 & Hg12 & Hedges).
  { intros c Hc. by apply childrenOf_elem in Hc as [_ ?]. }
  { intros z Hz. apply Hsub. by apply elem_of_cons; right. }
  { done. }
  { simpl. lia. }
  { done. }
  set (levelEdges := filter (λ e, edge_parentId e = x) (edges (c_db st2))) in *.
  set (st3 := foldl (cloneEdge uuid newId) st2 levelEdges) in *.
  destruct (nodes_foldl_cloneEdge uuid newId levelEdges st2) as [Hn3 _].
  fold st3 in Hn3.
  set (vcs := filter (λ v, vc_machineNodeId v = x) (victoryConditions (c_db st3))) in *.
  destruct (nodes_foldl_cloneVC uuid newId vcs st3) as [Hn4 _].
  assert (Hg34 : grows uuid st3 (foldl (cloneVC uuid newId) st3 vcs))
    by apply grows_foldl, grows_cloneVC.
  assert (Hg23 : grows uuid st2 st3) by apply grows_foldl, grows_cloneEdge.
  injection Hrun as <-.
  assert (Hpairs : pairs = (x, clone) :: ps).
  { apply pairs_eq.
    - by rewrite Hfst, fmap_cons, Hfst2.
    - rewrite Hn4, Hn3, Hn2 in Hnodes. simpl in Hnodes.
      rewrite <- (assoc_L (++)) in Hnodes. apply app_inv_head in Hnodes.
      by rewrite fmap_cons. }
  rewrite Hpairs.
  assert (Hm1 : c_idMap st1 = setAll [(x, clone)] (c_idMap st)) by done.
  apply elem_of_cons in HeL as [HeL|HeL].
  - assert (Hin : e ∈ levelEdges).
    { apply list_elem_of_filter. split; [done|].
      eapply grows_edges; [exact Hg12|]. by eapply grows_edges. }
    destruct (foldl_cloneEdge_elem uuid newId levelEdges st2 e Hin) as [j Hj].
    fold st3 in Hj.
    exists ((x, clone) :: ps), [], [], (x :: concat ls), (S fuel), clone, j.
    split_and!.
    + by rewrite app_nil_r.
    + by rewrite fmap_cons, Hfst2.
    + by rewrite HeL.
    + rewrite HeL. by left.
    + eapply grows_edges; [exact Hg34|].
      assert (Hm : setAll ((x, clone) :: ps) (c_idMap st) = c_idMap st2).
      { change ((x, clone) :: ps) with ([(x, clone)] ++ ps).
        by rewrite setAll_app, <- Hm1, Hm2. }
      rewrite Hm. exact Hj.
  - change ((x, clone) :: ps) with ([(x, clone)] ++ ps).
    eapply clonedIn_earlier; [exact Hm1|].
    destruct (Hedges e) as (ps1 & ps2 & pre & Lz & f & n' & j & -> & Hf1 & Hs & Hi & Hc);
      [by eapply grows_edges|done|].
    exists ps1, ps2, pre, Lz, f, n', j. split_and!; try done.
    eapply grows_edges; [exact Hg34|]. by eapply grows_edges.
Qed.
End clone_edge_exact.

Lemma copied_edges_length db ids st st' pairs :
  NoDup pairs.*1 → copied db ids st st' pairs →
  ∃ es, edges (c_db st') = edges (c_db st) ++ es
        ∧ length es = length (filter (λ e, edge_parentId e ∈ pairs.*1) (edges db)).
Proof.
  intros Hnd (es & vs & He & _ & _ & _ & Pe & _).
  exists es. split; [done|].
  rewrite <- (length_fmap edgeData), Pe, length_bind.
  rewrite (length_filter_elem_of edge_parentId (edges db) pairs.*1 Hnd).
  clear. induction pairs as [|q qs IH]; [done|]. simpl. rewrite IH.
  unfold edgeCopies. by rewrite length_fmap.
Qed.

(** C2, as the code has it.  On a store with unique node ids, when the
    subtree of the machine has no empty id and none of the identifiers
    still to come, and [uuid()] never returns the empty string, the
    duplication returns and clones every edge owned by a node of the
    subtree, whatever its endpoints, and each of them once: the edge table
    grows by the number of these edges.  The clone of an edge [e] is owned
    by the clone of its level and keeps label and relationship.  Its
    endpoints go through the [idMap] of the moment the level is processed,
    which holds the part [pre ++ Lz] of the walk [L] that ends with the
    subtree [Lz] of the level (the level and its descendants, so every
    child of it, and the nodes walked before it): an endpoint in
    that part is rewritten to the id of its clone, which is its entry in
    the final [idMap]; every other endpoint, a node outside the subtree
    of the machine or a node of it that the walk reaches only later, is
    kept as it is, and the edge is cloned all the same. *)
Theorem duplicateMachine_clones_every_edge
    (uuid : nat → string) (now : Z) (fuel k : nat) (db : Db)
    (machine : MachineNode) (L : list string) :
  NoDup (node_id <$> nodes db) → machine ∈ nodes db →
  subtree fuel db (node_id machine) = Some L →
  "" ∉ L → (∀ j, (k ≤ j)%nat → uuid j ∉ L) → (∀ j, uuid j ≠ "") →
  ∃ st' pairs es,
    duplicateMachine uuid now fuel k db machine = Some st'
    ∧ nodes (c_db st') = nodes db ++ pairs.*2
    ∧ pairs.*1 = L
    ∧ (∀ x n', (x, n') ∈ pairs →
         c_idMap st' !! x = Some (node_id n')
         ∧ ∃ node i, getNode db x = Some node
                     ∧ n' = cloneNode uuid now node (uuid i) (node_parentId n') (S i))
    ∧ edges (c_db st') = edges db ++ es
    ∧ length es = length (filter (λ e, edge_parentId e ∈ L) (edges db))
    ∧ ∀ e, e ∈ edges db → edge_parentId e ∈ L →
        ∃ (pre Lz post : list string) (f j : nat) (newId : string),
          L = pre ++ Lz ++ post
          ∧ subtree f db (edge_parentId e) = Some Lz
          ∧ edge_parentId e ∈ Lz
          ∧ (∀ r, r ∈ nodes db → node_parentId r ∈ Lz → node_id r ∈ Lz)
          ∧ (∀ x, x ∈ Lz → ∃ d, up db d x = Some (edge_parentId e))
          ∧ c_idMap st' !! edge_parentId e = Some newId
          ∧ {| edge_id := uuid j; edge_parentId := newId;
               edge_source := rewritten (c_idMap st') (pre ++ Lz) (edge_source e);
               edge_target := rewritten (c_idMap st') (pre ++ Lz) (edge_target e);
               edge_label := edge_label e;
               edge_relationship := edge_relationship e |} ∈ edges (c_db st').
Proof.
  intros Hnd Hm HL Hempty Hfresh Htruthy.
  destruct (duplicateMachine_pairs uuid now fuel k db machine L Hnd Hm HL Hempty Hfresh)
    as (st' & pairs & Hrun & Hnodes & Hfst & Hmap & Hpairs).
  set (st0 := {| c_db := db; c_idMap := ∅; c_next := k |}).
  assert (Hext0 : extends db L st0).
  { exists []. split; [by rewrite app_nil_r|done]. }
  assert (HndL : NoDup L) by by apply (subtree_NoDup db Hnd fuel (node_id machine)).
  destruct (copied_edges_length db L st0 st' pairs) as (es & Hes & Hlen).
  { by rewrite Hfst. }
  { apply (cloneRecursive_copied uuid now db L Hnd fuel (node_id machine) "" st0 L st' pairs
             HL); try done.
    - by apply getNode_is_Some.
    - exists [], []. by rewrite !app_nil_r. }
  exists st', pairs, es. split_and!; try done.
  - intros x n' Hin.
    destruct (Hpairs x n' Hin) as (Hlook & node & i & Hget & _ & Hn' & _).
    split; [done|]. by exists node, i.
  - by rewrite <- Hfst.
  - intros e He HeL.
    destruct (cloneRecursive_edge uuid now db L Hnd fuel (node_id machine) "" st0 L st' pairs
                HL) with (e := e)
      as (ps1 & ps2 & pre & Lz & f & n' & j & Hsplit & Hfst1 & Hsub & Hin & Hedge);
      try done.
    { by apply getNode_is_Some. }
    assert (Hnd1 : NoDup ps1.*1).
    { rewrite <- Hfst, Hsplit, fmap_app in HndL. by apply NoDup_app in HndL as [? _]. }
    assert (Hin' : (edge_parentId e, n') ∈ pairs).
    { rewrite Hsplit. apply elem_of_app. by left. }
    assert (Hre : ∀ x, remap (setAll ps1 ∅) x = rewritten (c_idMap st') (pre ++ Lz) x).
    { intros x. unfold rewritten. rewrite <- Hfst1. case_bool_decide as Hx.
      - apply list_elem_of_fmap in Hx as ([x' n''] & -> & Hxin). simpl.
        assert (Hxin' : (x', n'') ∈ pairs).
        { rewrite Hsplit. apply elem_of_app. by left. }
        destruct (Hpairs x' n'' Hxin') as (Hlook & node & i & _ & _ & Hn'' & _).
        rewrite Hlook. simpl. apply remap_Some.
        + by apply setAll_lookup.
        + rewrite Hn''. simpl. apply Htruthy.
      - apply remap_None. rewrite setAll_lookup_notin by done. apply lookup_empty. }
    exists pre, Lz, ps2.*1, f, j, (node_id n'). split_and!.
    + by rewrite <- Hfst, Hsplit, fmap_app, Hfst1, (assoc_L (++)).
    + done.
    + by eapply subtree_root.
    + intros r Hr Hp.
      pose proof (subtree_closed db f _ _ r Hsub Hr Hp) as Ht.
      destruct Lz; [by apply elem_of_nil in Ht|]. simpl in Ht. by right.
    + intros x Hx. by eapply subtree_up.
    + by destruct (Hpairs _ _ Hin').
    + unfold edgeClone in Hedge. simpl in Hedge. by rewrite !Hre in Hedge.
Qed.

Lemma duplicateMachine_clones_every_edge_witness :
  ∃ st',
    duplicateMachine sampleUuid 0 3 0 siblingEdgeDb salesM = Some st'
    ∧ (c_idMap st' !! "m", c_idMap st' !! "c1", c_idMap st' !! "c2")
      = (Some "u0", Some "u1", Some "u3")
    ∧ edges (c_db st')
      = edges siblingEdgeDb
        ++ [{| edge_id := "u2"; edge_parentId := "u1"; edge_source := "u1";
               edge_target := "c2"; edge_label := None;
               edge_relationship := depends |};
            {| edge_id := "u4"; edge_parentId := "u0"; edge_source := "u1";
               edge_target := "u3"; edge_label := None;
               edge_relationship := feeds |}].
Proof.
  destruct (duplicateMachine_clones_every_edge sampleUuid 0 3 0 siblingEdgeDb salesM
              ["m"; "c1"; "c2"])
    as (st' & pairs & es & Hrun & _).
  - apply (bool_decide_unpack _). vm_compute. exact I.
  - apply elem_of_cons. by left.
  - vm_compute. reflexivity.
  - apply (bool_decide_unpack _). vm_compute. exact I.
  - intros j _ Hin. unfold sampleUuid in Hin. cbn in Hin.
    repeat (apply elem_of_cons in Hin as [Hin|Hin]; [discriminate Hin|]).
    by apply elem_of_nil in Hin.
  - intros j. unfold sampleUuid. discriminate.
  - exists st'. split; [exact Hrun|].
    clear -Hrun. vm_compute in Hrun. injection Hrun as <-.
    split; vm_compute; reflexivity.
Defined.
